(** * proglog/internal/log: the record store

    A shallow embedding of [internal/log/store.go] together with the parts of
    the Go runtime and standard library the store is written against
    ([encoding/binary], [bufio.Writer], [os.File]), and the properties of the
    store that follow from the code. *)

From Stdlib Require Import ZArith List Lia Bool Permutation.
From Stdlib Require String.
From Stdlib.Strings Require Import Byte.
Import ListNotations.
Local Open Scope Z_scope.

(** ** Go integers and bytes *)

Module Go.

(** [uint64(x)]: conversion wraps modulo 2^64. *)
Definition uint64 (x : Z) : Z := x mod 2 ^ 64.

(** [int64(x)] and [int] on a 64-bit platform: two's complement wrap. *)
Definition int64 (x : Z) : Z := (x + 2 ^ 63) mod 2 ^ 64 - 2 ^ 63.

(** runtime: the largest allocation on a 64-bit platform (48 address bits);
    [make([]byte, n)] panics above it, so no slice is longer. *)
Definition maxAlloc : Z := 2 ^ 48.

(** [byte(x)]: the low eight bits. *)
Definition byte_of_Z (x : Z) : byte :=
  match Byte.of_N (Z.to_N (x mod 256)) with
  | Some b => b
  | None => x00
  end.

(** [uint64(b)] for a byte [b]. *)
Definition Z_of_byte (b : byte) : Z := Z.of_N (Byte.to_N b).

(** [len(s)] as an integer. *)
Definition len {A} (s : list A) : Z := Z.of_nat (length s).

(** [make([]byte, n)] for [n] of type uint64: [None] is the runtime panic
    (len out of range), otherwise [n] zero bytes. Memory is taken to be
    there for every slice within the bound: running out of it stops the
    whole program and is no result of a call. *)
Definition make (n : Z) : option (list byte) :=
  if n <=? maxAlloc then Some (repeat x00 (Z.to_nat n)) else None.

End Go.

(** ** encoding/binary: the big-endian byte order [enc] *)

Module BigEndian.
Import Go.

(** [PutUint64(b, v)] into a fresh 8-byte slice. *)
Definition PutUint64 (v : Z) : list byte :=
  [ byte_of_Z (Z.shiftr v 56); byte_of_Z (Z.shiftr v 48);
    byte_of_Z (Z.shiftr v 40); byte_of_Z (Z.shiftr v 32);
    byte_of_Z (Z.shiftr v 24); byte_of_Z (Z.shiftr v 16);
    byte_of_Z (Z.shiftr v 8);  byte_of_Z v ].

(** [Uint64(b)]: reads [b[0..7]]; [None] is the index-out-of-range panic on
    a slice shorter than eight bytes. *)
Definition Uint64 (b : list byte) : option Z :=
  match b with
  | b0 :: b1 :: b2 :: b3 :: b4 :: b5 :: b6 :: b7 :: _ =>
      Some (Z.lor (Z.lor (Z.lor (Z.lor (Z.lor (Z.lor (Z.lor
        (Z_of_byte b7)
        (Z.shiftl (Z_of_byte b6) 8))
        (Z.shiftl (Z_of_byte b5) 16))
        (Z.shiftl (Z_of_byte b4) 24))
        (Z.shiftl (Z_of_byte b3) 32))
        (Z.shiftl (Z_of_byte b2) 40))
        (Z.shiftl (Z_of_byte b1) 48))
        (Z.shiftl (Z_of_byte b0) 56))
  | _ => None
  end.

End BigEndian.

(** ** os: the backing file and its handle

    The world is the backing file of the store as the operating system holds
    it, with a schedule of the failures the system is going to report: the
    n-th system call takes the n-th entry, [None] (or the end of the
    schedule) lets the call behave normally and [Some (Fault k e)] makes it
    transfer at most [k] bytes and fail with [e]. *)

Module os.
Import Go.

Inductive error : Type :=
| ErrClosed            (* os.ErrClosed: use of a closed file *)
| ErrNegativeOffset    (* ReadAt: negative offset *)
| EOF                  (* io.EOF *)
| ErrShortWrite        (* io.ErrShortWrite *)
| EFBIG                (* file too large *)
| Errno (code : nat).  (* ENOSPC, EIO, ENOENT, ... *)

Inductive fault : Type := Fault (k : nat) (e : error).

Record World : Type := mkWorld {
  disk : list byte;
  faults : list (option fault)
}.

(** An open file description: the kernel offset, the O_APPEND flag and
    whether the handle was closed. *)
Record File : Type := mkFile {
  offset : Z;
  append : bool;
  closed : bool
}.

(** The largest length of a file (off_t is a signed 64-bit integer). *)
Definition maxFileSize : Z := 2 ^ 63 - 1.

(** EINVAL: the system refuses the arguments of the call. *)
Definition EINVAL : error := Errno 22.

(** Entering a system call takes the next entry of the schedule. *)
Definition syscall (w : World) : option fault * World :=
  match faults w with
  | [] => (None, w)
  | f :: fs => (f, mkWorld (disk w) fs)
  end.

(** Where the next write lands: the end of the file with O_APPEND, the
    kernel offset otherwise. *)
Definition write_pos (w : World) (f : File) : Z :=
  if append f then len (disk w) else offset f.

(** The file content after [b] was written at [pos] (a hole is
    zero-filled); a write of no byte leaves the file as it is. *)
Definition pwrite (d : list byte) (pos : Z) (b : list byte) : list byte :=
  match b with
  | [] => d
  | _ :: _ =>
      firstn (Z.to_nat pos) d
      ++ repeat x00 (Z.to_nat (pos - len d))
      ++ b
      ++ skipn (Z.to_nat (pos + len b)) d
  end.

(** The bytes of [b] that fit below the largest file length. *)
Definition fitting (pos : Z) (b : list byte) : list byte :=
  if pos + len b <=? maxFileSize then b
  else firstn (Z.to_nat (maxFileSize - pos)) b.

(** The bytes of [b] the system accepts before it fails, if it does. *)
Definition accepted (flt : option fault) (pos : Z) (b : list byte)
  : list byte * option error :=
  let fit := fitting pos b in
  match flt with
  | Some (Fault k e) => (firstn k fit, Some e)
  | None => (fit, if len fit <? len b then Some EFBIG else None)
  end.

(** [(f *File) Write(b)]: all of [b] is written, or an error is returned
    with the number of bytes that were. *)
Definition Write (w : World) (f : File) (b : list byte)
  : World * File * (Z * option error) :=
  if closed f then (w, f, (0, Some ErrClosed))
  else
    let (flt, w1) := syscall w in
    let pos := write_pos w1 f in
    let (b', e) := accepted flt pos b in
    (mkWorld (pwrite (disk w1) pos b') (faults w1),
     mkFile (pos + len b') (append f) (closed f),
     (len b', e)).

(** [(f *File) ReadAt(b, off)]: fills [b] from the bytes at [off]; fewer
    than [len(b)] bytes come with an error (io.EOF at the end of the file).
    The offset is checked first, an empty [b] reads nothing, and a closed
    handle is found out by the read itself. The system (pread) refuses with
    EINVAL, before it reads anything, a read that would end past the
    largest offset of a file.
    Returns the slice as it was filled, the count and the error. *)
Definition ReadAt (w : World) (f : File) (b : list byte) (off : Z)
  : World * (list byte * Z * option error) :=
  if off <? 0 then (w, (b, 0, Some ErrNegativeOffset))
  else if len b =? 0 then (w, (b, 0, None))
  else if closed f then (w, (b, 0, Some ErrClosed))
  else
    let (flt, w1) := syscall w in
    if maxFileSize <? off + len b then (w1, (b, 0, Some EINVAL))
    else
      let there :=
        if off <? len (disk w1)
        then firstn (length b) (skipn (Z.to_nat off) (disk w1)) else [] in
      let (got, e) :=
        match flt with
        | Some (Fault k e) => (firstn k there, Some e)
        | None => (there, if len there <? len b then Some EOF else None)
        end in
      (w1, (got ++ skipn (length got) b, len got, e)).

(** [os.Stat(name)] of the backing file: its length. *)
Definition Stat (w : World) : World * (Z + error) :=
  let (flt, w1) := syscall w in
  match flt with
  | Some (Fault _ e) => (w1, inr e)
  | None => (w1, inl (len (disk w1)))
  end.

(** [(f *File) Close()]: the handle is released even when the system
    reports an error. *)
Definition Close (w : World) (f : File) : World * File * option error :=
  if closed f then (w, f, Some ErrClosed)
  else
    let (flt, w1) := syscall w in
    (w1, mkFile (offset f) (append f) true,
     match flt with Some (Fault _ e) => Some e | None => None end).

End os.

(** ** bufio.Writer over the file *)

Module bufio.
Import Go os.

Definition defaultBufSize : Z := 4096.

(** [buf] is [b.buf[0:b.n]], the bytes waiting to be written; [err] is the
    sticky error; [b.wr] is the file of the store that owns the writer. *)
Record Writer : Type := mkWriter {
  err : option error;
  buf : list byte
}.

Definition NewWriter : Writer := mkWriter None [].

Definition Buffered (b : Writer) : Z := len (buf b).
Definition Available (b : Writer) : Z := defaultBufSize - len (buf b).

Definition is_nil (e : option error) : bool :=
  match e with None => true | Some _ => false end.

(** [(b *Writer) Flush()] *)
Definition Flush (w : World) (f : File) (b : Writer)
  : World * File * Writer * option error :=
  match err b with
  | Some e => (w, f, b, Some e)
  | None =>
      if Buffered b =? 0 then (w, f, b, None)
      else
        let '(w1, f1, (n, e)) := os.Write w f (buf b) in
        let e := if (n <? Buffered b) && is_nil e
                 then Some ErrShortWrite else e in
        match e with
        | Some e' =>
            (w1, f1, mkWriter (Some e') (skipn (Z.to_nat n) (buf b)), Some e')
        | None => (w1, f1, mkWriter None [], None)
        end
  end.

(** [n := copy(b.buf[b.n:], p); b.n += n] *)
Definition fill (b : Writer) (p : list byte) : Writer * Z :=
  let c := firstn (Z.to_nat (Available b)) p in
  (mkWriter (err b) (buf b ++ c), len c).

(** The loop condition of [Write]: [len(p) > b.Available() && b.err == nil]. *)
Definition Write_more (b : Writer) (p : list byte) : bool :=
  (Available b <? len p) && is_nil (err b).

(** The loop of [(b *Writer) Write(p)], at most [fuel] iterations; returns
    what is left of [p] and the count [nn]. *)
Fixpoint Write_loop (fuel : nat) (w : World) (f : File) (b : Writer)
    (p : list byte) (nn : Z) : World * File * Writer * list byte * Z :=
  match fuel with
  | O => (w, f, b, p, nn)
  | S fuel' =>
      if Write_more b p then
        if Buffered b =? 0 then
          (* large write, empty buffer: write directly from p *)
          let '(w1, f1, (n, e)) := os.Write w f p in
          Write_loop fuel' w1 f1 (mkWriter e (buf b))
            (skipn (Z.to_nat n) p) (nn + n)
        else
          let (b1, n) := fill b p in
          let '(w1, f1, b2, _) := Flush w f b1 in
          Write_loop fuel' w1 f1 b2 (skipn (Z.to_nat n) p) (nn + n)
      else (w, f, b, p, nn)
  end.

(** [(b *Writer) Write(p)]. Two iterations always end the loop
    (see [Write_loop_done] and [Write_loop_fuel]). *)
Definition Write (w : World) (f : File) (b : Writer) (p : list byte)
  : World * File * Writer * (Z * option error) :=
  let '(w1, f1, b1, p1, nn) := Write_loop 2 w f b p 0 in
  match err b1 with
  | Some e => (w1, f1, b1, (nn, Some e))
  | None =>
      let (b2, n) := fill b1 p1 in
      (w1, f1, b2, (nn + n, None))
  end.

End bufio.

(** ** encoding/binary.Write for a uint64 *)

Module binary.
Import Go os.

(** [binary.Write(w, enc, v)] for the byte order [enc] of the package, the
    big-endian one: the fast path for a fixed-size value encodes it into a
    fresh slice and writes the slice. *)
Definition Write (w : World) (f : File) (b : bufio.Writer) (v : Z)
  : World * File * bufio.Writer * option error :=
  let bs := BigEndian.PutUint64 v in
  let '(w1, f1, b1, (_, e)) := bufio.Write w f b bs in
  (w1, f1, b1, e).

End binary.

(** ** package log: the store *)

Module log.
Import Go os.

(** [var enc = binary.BigEndian] *)
Module enc := BigEndian.

Definition dataLengthWeightInBytes : Z := 8.

(** How a call ends: it returns, it panics, or, called by a lone goroutine
    on a store whose mutex is held, it never acquires the mutex. *)
Inductive outcome (A : Type) : Type :=
| Return (a : A)
| Panic
| Deadlock.
Arguments Return {A} a.
Arguments Panic {A}.
Arguments Deadlock {A}.

(** [type store struct]: the embedded [*os.File], the mutex (held or not),
    the buffered writer over the file and the size cursor (a uint64). The
    store is the only user of its handle, so the record holds the state of
    the handle itself. *)
Record store : Type := mkStore {
  File : os.File;
  mutex : bool;
  buffer : bufio.Writer;
  fileSize : Z
}.

Definition Lock (s : store) : store :=
  mkStore (File s) true (buffer s) (fileSize s).
Definition Unlock (s : store) : store :=
  mkStore (File s) false (buffer s) (fileSize s).

(** [newStore(file)] *)
Definition newStore (w : World) (file : os.File) : World * (store + error) :=
  let (w1, r) := os.Stat w in
  match r with
  | inr e => (w1, inr e)
  | inl size =>
      let fileSize := uint64 size in
      (w1, inl (mkStore file false bufio.NewWriter fileSize))
  end.

(** [(s *store) Append(data) (n uint64, pos uint64, err error)] *)
Definition Append (w : World) (s : store) (data : list byte)
  : World * store * outcome (Z * Z * option error) :=
  if mutex s then (w, s, Deadlock) else
  let s := Lock s in
  let pos := fileSize s in
  (* the length of the data, 8 bytes *)
  let '(w1, f1, b1, e) :=
    binary.Write w (File s) (buffer s) (uint64 (len data)) in
  match e with
  | Some e =>
      (w1, Unlock (mkStore f1 (mutex s) b1 (fileSize s)),
       Return (0, 0, Some e))
  | None =>
      (* the data *)
      let '(w2, f2, b2, (wn, e)) := bufio.Write w1 f1 b1 data in
      match e with
      | Some e =>
          (w2, Unlock (mkStore f2 (mutex s) b2 (fileSize s)),
           Return (0, 0, Some e))
      | None =>
          let wn := int64 (wn + dataLengthWeightInBytes) in
          let fileSize' := uint64 (fileSize s + uint64 wn) in
          (w2, Unlock (mkStore f2 (mutex s) b2 fileSize'),
           Return (uint64 wn, pos, None))
      end
  end.

(** [(s *store) Read(pos) ([]byte, error)]; a nil slice is the empty list. *)
Definition Read (w : World) (s : store) (pos : Z)
  : World * store * outcome (list byte * option error) :=
  if mutex s then (w, s, Deadlock) else
  let s := Lock s in
  let '(w1, f1, b1, e) := bufio.Flush w (File s) (buffer s) in
  let s1 := Unlock (mkStore f1 (mutex s) b1 (fileSize s)) in
  match e with
  | Some e => (w1, s1, Return ([], Some e))
  | None =>
      match make dataLengthWeightInBytes with
      | None => (w1, s1, Panic)
      | Some length =>
          let '(w2, (length, _, e)) := os.ReadAt w1 f1 length (int64 pos) in
          match e with
          | Some e => (w2, s1, Return ([], Some e))
          | None =>
              match enc.Uint64 length with
              | None => (w2, s1, Panic)
              | Some n =>
                  match make n with
                  | None => (w2, s1, Panic)
                  | Some b =>
                      let '(w3, (b, _, e)) :=
                        os.ReadAt w2 f1 b
                          (int64 (uint64 (pos + dataLengthWeightInBytes))) in
                      match e with
                      | Some e => (w3, s1, Return ([], Some e))
                      | None => (w3, s1, Return (b, None))
                      end
                  end
              end
          end
      end
  end.

(** [(s *store) ReadAt(data, offset) (int, error)]; the slice [data] is
    returned as the call leaves it. *)
Definition ReadAt (w : World) (s : store) (data : list byte) (offset : Z)
  : World * store * outcome (list byte * Z * option error) :=
  if mutex s then (w, s, Deadlock) else
  let s := Lock s in
  let '(w1, f1, b1, e) := bufio.Flush w (File s) (buffer s) in
  let s1 := Unlock (mkStore f1 (mutex s) b1 (fileSize s)) in
  match e with
  | Some e => (w1, s1, Return (data, 0, Some e))
  | None =>
      let (w2, r) := os.ReadAt w1 f1 data offset in
      (w2, s1, Return r)
  end.

(** [(s *store) Close() error] *)
Definition Close (w : World) (s : store) : World * store * outcome (option error) :=
  if mutex s then (w, s, Deadlock) else
  let s := Lock s in
  let '(w1, f1, b1, e) := bufio.Flush w (File s) (buffer s) in
  match e with
  | Some e =>
      (w1, Unlock (mkStore f1 (mutex s) b1 (fileSize s)), Return (Some e))
  | None =>
      let '(w2, f2, e) := os.Close w1 f1 in
      (w2, Unlock (mkStore f2 (mutex s) b1 (fileSize s)), Return e)
  end.

(** The test data of store_test.go. *)
Section TestData.
Import String.
Definition testData : list byte :=
  list_byte_of_string "hello world log"%string.
End TestData.
Definition testDataLength : Z := uint64 (len testData) + dataLengthWeightInBytes.

(** [os.CreateTemp]: a fresh empty file, opened read-write at offset 0. *)
Definition CreateTemp (faults : list (option fault)) : World * os.File :=
  (mkWorld [] faults, mkFile 0 false false).

(** [openFile(name)] of the tests: O_RDWR|O_CREATE|O_APPEND on the backing
    file; returns the handle and the length of the file. *)
Definition openFile (w : World) : World * (os.File * Z + error) :=
  let (flt, w1) := syscall w in
  match flt with
  | Some (Fault _ e) => (w1, inr e)
  | None =>
      let f := mkFile 0 true false in
      let (w2, r) := os.Stat w1 in
      match r with
      | inr e => (w2, inr e)
      | inl size => (w2, inl (f, size))
      end
  end.

End log.

(** ** store_test.go

    The tests of the package, each returning whether every [require] of
    the test holds. *)

Module log_test.
Import Go os log.

Definition bytes_equal (a b : list byte) : bool :=
  if list_eq_dec Byte.byte_eq_dec a b then true else false.

(** [testAppend]: [for i := uint64(1); i < 4; i++]. *)
Fixpoint testAppend_from (k : nat) (i : Z) (w : World) (s : store)
  : World * store * bool :=
  match k with
  | O => (w, s, true)
  | S k' =>
      match Append w s testData with
      | (w1, s1, Return (n, pos, None)) =>
          if uint64 (pos + n) =? uint64 (testDataLength * i)
          then testAppend_from k' (i + 1) w1 s1
          else (w1, s1, false)
      | (w1, s1, _) => (w1, s1, false)
      end
  end.
Definition testAppend : World -> store -> World * store * bool :=
  testAppend_from 3 1.

(** [testRead]: reads the three records back from position 0 on. *)
Fixpoint testRead_from (k : nat) (pos : Z) (w : World) (s : store)
  : World * store * bool :=
  match k with
  | O => (w, s, true)
  | S k' =>
      match Read w s pos with
      | (w1, s1, Return (read, None)) =>
          if bytes_equal testData read
          then testRead_from k' (uint64 (pos + testDataLength)) w1 s1
          else (w1, s1, false)
      | (w1, s1, _) => (w1, s1, false)
      end
  end.
Definition testRead : World -> store -> World * store * bool :=
  testRead_from 3 0.

(** [testReadAt]: the header, then the payload, through [ReadAt]. *)
Fixpoint testReadAt_from (k : nat) (offset : Z) (w : World) (s : store)
  : World * store * bool :=
  match k with
  | O => (w, s, true)
  | S k' =>
      match make dataLengthWeightInBytes with
      | None => (w, s, false)
      | Some b =>
          match ReadAt w s b offset with
          | (w1, s1, Return (b, n, None)) =>
              if n =? dataLengthWeightInBytes then
                let offset := int64 (offset + n) in
                match enc.Uint64 b with
                | None => (w1, s1, false)
                | Some size =>
                    match make size with
                    | None => (w1, s1, false)
                    | Some b =>
                        match ReadAt w1 s1 b offset with
                        | (w2, s2, Return (b, n, None)) =>
                            if bytes_equal testData b && (int64 size =? n)
                            then testReadAt_from k' (int64 (offset + n)) w2 s2
                            else (w2, s2, false)
                        | (w2, s2, _) => (w2, s2, false)
                        end
                    end
                end
              else (w1, s1, false)
          | (w1, s1, _) => (w1, s1, false)
          end
      end
  end.
Definition testReadAt : World -> store -> World * store * bool :=
  testReadAt_from 3 0.

(** [TestStoreAppendRead]; the second [newStore(f)] is over the same
    handle, as the first store left it. *)
Definition TestStoreAppendRead (faults : list (option fault)) : bool :=
  let (w, f) := CreateTemp faults in
  match newStore w f with
  | (w, inl s) =>
      let '(w, s, ok1) := testAppend w s in
      let '(w, s, ok2) := testRead w s in
      let '(w, s, ok3) := testReadAt w s in
      match newStore w (File s) with
      | (w, inl s) =>
          let '(_, _, ok4) := testRead w s in
          ok1 && ok2 && ok3 && ok4
      | _ => false
      end
  | _ => false
  end.

(** [TestStoreClose]: the file is longer after [Close] than before. *)
Definition TestStoreClose (faults : list (option fault)) : bool :=
  let (w, f) := CreateTemp faults in
  match newStore w f with
  | (w, inl s) =>
      match Append w s testData with
      | (w, s, Return (_, _, None)) =>
          match openFile w with
          | (w, inl (_, beforeSize)) =>
              match Close w s with
              | (w, _, Return None) =>
                  match openFile w with
                  | (_, inl (_, afterSize)) => beforeSize <? afterSize
                  | _ => false
                  end
              | _ => false
              end
          | _ => false
          end
      | _ => false
      end
  | _ => false
  end.

End log_test.

(** ** Goroutines calling [Append] on one store

    Each goroutine runs [s.Append(data)] one statement at a time; the
    scheduler picks which goroutine moves next. [s.mutex.Lock()] moves only
    when the mutex is free. *)

Module Goroutines.
Import Go os bufio log.

(** Where a goroutine is in [Append], with its locals. *)
Inductive pc : Type :=
| AtLock                               (* s.mutex.Lock() *)
| AtPos                                (* pos = s.fileSize *)
| AtHeader (pos : Z)                   (* binary.Write(s.buffer, enc, uint64(len(data))) *)
| AtPayload (pos : Z)                  (* w, err := s.buffer.Write(data) *)
| AtAdvance (pos w : Z)                (* w += 8; s.fileSize += uint64(w) *)
| AtUnlock (r : Z * Z * option error)  (* the deferred s.mutex.Unlock() *)
| Done (r : Z * Z * option error).     (* returned (n, pos, err) *)

Record goroutine : Type := mkGoroutine {
  data : list byte;
  now : pc
}.

(** One statement of [Append] by the goroutine [g]. *)
Definition statement (w : World) (s : store) (g : goroutine)
  : World * store * goroutine :=
  match now g with
  | AtLock =>
      if mutex s then (w, s, g)
      else (w, Lock s, mkGoroutine (data g) AtPos)
  | AtPos => (w, s, mkGoroutine (data g) (AtHeader (fileSize s)))
  | AtHeader pos =>
      let '(w1, f1, b1, e) :=
        binary.Write w (File s) (buffer s) (uint64 (len (data g))) in
      let s1 := mkStore f1 (mutex s) b1 (fileSize s) in
      match e with
      | Some e => (w1, s1, mkGoroutine (data g) (AtUnlock (0, 0, Some e)))
      | None => (w1, s1, mkGoroutine (data g) (AtPayload pos))
      end
  | AtPayload pos =>
      let '(w1, f1, b1, (wn, e)) :=
        bufio.Write w (File s) (buffer s) (data g) in
      let s1 := mkStore f1 (mutex s) b1 (fileSize s) in
      match e with
      | Some e => (w1, s1, mkGoroutine (data g) (AtUnlock (0, 0, Some e)))
      | None => (w1, s1, mkGoroutine (data g) (AtAdvance pos wn))
      end
  | AtAdvance pos wn =>
      let wn := int64 (wn + dataLengthWeightInBytes) in
      let fileSize' := uint64 (fileSize s + uint64 wn) in
      (w, mkStore (File s) (mutex s) (buffer s) fileSize',
       mkGoroutine (data g) (AtUnlock (uint64 wn, pos, None)))
  | AtUnlock r => (w, Unlock s, mkGoroutine (data g) (Done r))
  | Done r => (w, s, g)
  end.

(** The file, the store shared by the goroutines, and the goroutines. *)
Record system : Type := mkSystem {
  world : World;
  shared : store;
  threads : list goroutine
}.

Fixpoint set_nth {A} (i : nat) (x : A) (l : list A) : list A :=
  match l, i with
  | [], _ => []
  | _ :: t, O => x :: t
  | h :: t, S i' => h :: set_nth i' x t
  end.

(** The goroutine [i] moves. *)
Definition step (i : nat) (sys : system) : system :=
  match nth_error (threads sys) i with
  | None => sys
  | Some g =>
      let '(w, s, g') := statement (world sys) (shared sys) g in
      mkSystem w s (set_nth i g' (threads sys))
  end.

(** The system after the schedule [sched]. *)
Fixpoint run (sched : list nat) (sys : system) : system :=
  match sched with
  | [] => sys
  | i :: rest => run rest (step i sys)
  end.

(** One goroutine per payload, all about to call [Append]. *)
Definition spawn (w : World) (s : store) (ds : list (list byte)) : system :=
  mkSystem w s (map (fun d => mkGoroutine d AtLock) ds).

Definition returned (g : goroutine) : option (Z * Z * option error) :=
  match now g with Done r => Some r | _ => None end.

(** Every goroutine has returned. *)
Definition all_done (sys : system) : Prop :=
  Forall (fun g => returned g <> None) (threads sys).

(** The goroutine is between [Lock] and [Unlock]. *)
Definition inside (g : goroutine) : bool :=
  match now g with AtLock | Done _ => false | _ => true end.

(** The goroutines that release the mutex along a schedule, in order. *)
Fixpoint releases (sched : list nat) (sys : system) : list nat :=
  match sched with
  | [] => []
  | i :: rest =>
      match nth_error (threads sys) i with
      | Some (mkGoroutine _ (AtUnlock _)) => i :: releases rest (step i sys)
      | _ => releases rest (step i sys)
      end
  end.


End Goroutines.

(** ** Predicates on the state of the world and of the store *)

Section Predicates.
Import Go os bufio.

(** The next write through the handle lands at the end of the file. *)
Definition at_end (w : World) (f : File) : Prop :=
  append f = true \/ offset f = len (disk w).

(** The system reports no failure from here on. *)
Definition calm (w : World) : Prop := Forall (fun x => x = None) (faults w).

(** What a call does to the bytes of the store: the file followed by the
    buffer gains [c] at its end; the handle stays at the end of the file. *)
Definition grows (w : World) (f : File) (b : Writer)
    (w1 : World) (f1 : File) (b1 : Writer) (c : list byte) : Prop :=
  disk w1 ++ buf b1 = disk w ++ buf b ++ c /\
  at_end w1 f1 /\ closed f1 = closed f /\ append f1 = append f /\
  (len (buf b) <= defaultBufSize -> len (buf b1) <= defaultBufSize) /\
  (len (disk w) <= maxFileSize -> len (disk w1) <= maxFileSize).

(** The base-256 digits of [v], the most significant first, [n] of them. *)
Fixpoint big_endian (n : nat) (v : Z) : list Z :=
  match n with
  | O => []
  | S n' => big_endian n' (v / 256) ++ [v mod 256]
  end.

End Predicates.

Section StorePredicates.
Import Go os bufio log.

(** The bytes the store has committed: the file followed by the buffer. *)
Definition logical (w : World) (s : store) : list byte :=
  disk w ++ buf (buffer s).

(** The encoding of one record: the length header, then the payload. *)
Definition record (d : list byte) : list byte :=
  BigEndian.PutUint64 (uint64 (len d)) ++ d.

(** The record of payload [d] starts at byte [p] of [l]. *)
Definition record_at (l : list byte) (p : Z) (d : list byte) : Prop :=
  exists pre post, l = pre ++ record d ++ post /\ len pre = p.

(** An open store whose cursor matches its bytes, over a handle that
    writes at the end of its file: the state [newStore] builds and every
    successful call keeps. *)
Record store_ok (w : World) (s : store) : Prop := mk_store_ok {
  ok_mutex : mutex s = false;
  ok_open : closed (File s) = false;
  ok_end : at_end w (File s);
  ok_err : err (buffer s) = None;
  ok_size : fileSize s = len (disk w) + len (buf (buffer s));
  ok_buf : len (buf (buffer s)) <= defaultBufSize;
  ok_disk : len (disk w) <= maxFileSize
}.

(** What every call keeps, also a failed one: the cursor matches the bytes
    as long as the writer has not failed. *)
Record store_inv (w : World) (s : store) : Prop := mk_store_inv {
  inv_mutex : mutex s = false;
  inv_end : at_end w (File s);
  inv_buf : len (buf (buffer s)) <= defaultBufSize;
  inv_disk : len (disk w) <= maxFileSize;
  inv_size : err (buffer s) = None ->
             fileSize s = len (disk w) + len (buf (buffer s))
}.

(** What [Read] does after the flush: the two positional reads. *)
Definition Read_tail (w : World) (f : os.File) (pos : Z)
  : World * outcome (list byte * option error) :=
  match make dataLengthWeightInBytes with
  | None => (w, Panic)
  | Some length =>
      let '(w2, (length, _, e)) := os.ReadAt w f length (int64 pos) in
      match e with
      | Some e => (w2, Return ([], Some e))
      | None =>
          match BigEndian.Uint64 length with
          | None => (w2, Panic)
          | Some n =>
              match make n with
              | None => (w2, Panic)
              | Some b =>
                  let '(w3, (b, _, e)) :=
                    os.ReadAt w2 f b
                      (int64 (uint64 (pos + dataLengthWeightInBytes))) in
                  match e with
                  | Some e => (w3, Return ([], Some e))
                  | None => (w3, Return (b, None))
                  end
              end
          end
      end
  end.

(** The read of a record in two calls of [ReadAt], as the specification
    words it and testReadAt does it: eight bytes at [p], decoded as the
    length, then that many bytes at [p + 8] (offsets are int64). *)
Definition Read_by_ReadAt (w : World) (s : store) (p : Z)
  : World * store * outcome (list byte * option error) :=
  match make dataLengthWeightInBytes with
  | None => (w, s, Panic)
  | Some b =>
      let offset := int64 p in
      let '(w1, s1, r1) := ReadAt w s b offset in
      match r1 with
      | Deadlock => (w1, s1, Deadlock)
      | Panic => (w1, s1, Panic)
      | Return (_, _, Some e) => (w1, s1, Return ([], Some e))
      | Return (b, _, None) =>
          match BigEndian.Uint64 b with
          | None => (w1, s1, Panic)
          | Some size =>
              match make size with
              | None => (w1, s1, Panic)
              | Some b =>
                  let offset := int64 (offset + dataLengthWeightInBytes) in
                  let '(w2, s2, r2) := ReadAt w1 s1 b offset in
                  match r2 with
                  | Deadlock => (w2, s2, Deadlock)
                  | Panic => (w2, s2, Panic)
                  | Return (_, _, Some e) => (w2, s2, Return ([], Some e))
                  | Return (b, _, None) => (w2, s2, Return (b, None))
                  end
              end
          end
      end
  end.

(** Appending the payloads [ds] one after the other, as testAppend does. *)
Fixpoint appends (w : World) (s : store) (ds : list (list byte))
  : World * store * list (outcome (Z * Z * option error)) :=
  match ds with
  | [] => (w, s, [])
  | d :: ds' =>
      let '(w1, s1, r) := Append w s d in
      let '(w2, s2, rs) := appends w1 s1 ds' in
      (w2, s2, r :: rs)
  end.

(** The result of a successful [Append]: the byte count and the position. *)
Definition appended (np : Z * Z) : outcome (Z * Z * option error) :=
  Return (fst np, snd np, None).

(** The counts and positions of the records of [ds] laid out from [c]. *)
Fixpoint layout (c : Z) (ds : list (list byte)) : list (Z * Z) :=
  match ds with
  | [] => []
  | d :: ds' => (len d + 8, c) :: layout (c + (len d + 8)) ds'
  end.

End StorePredicates.

Section RunPredicates.
Import Go os bufio log.

(** A payload that a Go slice can hold. *)
Definition valid (d : list byte) : Prop := len d <= maxAlloc.

(** [Read(p)] gives back [d]: it returns [d] when the system reports no
    failure and the bytes of the store fit in a file, and it never returns
    anything but [d] or an error of the system. *)
Definition reads_back (w : World) (s : store) (p : Z) (d : list byte) : Prop :=
  (calm w -> fileSize s <= maxFileSize ->
   exists w1 s1, Read w s p = (w1, s1, Return (d, None))) /\
  (forall w1 s1 r, Read w s p = (w1, s1, r) ->
   r = Return (d, None) \/ exists e, r = Return ([], Some e)).

(** One call of a method of the store, whatever it returns. *)
Inductive call : World * store -> World * store -> Prop :=
| call_Append w s d w1 s1 r :
    valid d -> Append w s d = (w1, s1, r) -> call (w, s) (w1, s1)
| call_Read w s p w1 s1 r :
    Read w s p = (w1, s1, r) -> call (w, s) (w1, s1)
| call_ReadAt w s data off w1 s1 r :
    ReadAt w s data off = (w1, s1, r) -> call (w, s) (w1, s1)
| call_Close w s w1 s1 r :
    Close w s = (w1, s1, r) -> call (w, s) (w1, s1).

(** Any sequence of calls. *)
Inductive calls : World * store -> World * store -> Prop :=
| calls_nil st : calls st st
| calls_cons st st1 st2 : call st st1 -> calls st1 st2 -> calls st st2.

End RunPredicates.

Section GoroutinePredicates.
Import Go os bufio log Goroutines.

(** The goroutine alone for [k] statements. *)
Fixpoint finish (k : nat) (w : World) (s : store) (g : goroutine)
  : World * store * goroutine :=
  match k with
  | O => (w, s, g)
  | S k' => let '(w1, s1, g1) := statement w s g in finish k' w1 s1 g1
  end.

(** The goroutine that releases the mutex at this step, if one does. *)
Definition released (i : nat) (sys : system) : list nat :=
  match nth_error (threads sys) i with
  | Some (mkGoroutine _ (AtUnlock _)) => [i]
  | _ => []
  end.



(** The state of the system is the one a sequence of whole calls of
    [Append] leads to: the calls of the goroutines of [order], one after
    the other, and if a goroutine holds the mutex, the part of its call
    it has run so far. *)
Record linearized (w0 : World) (s0 : store) (ds : list (list byte))
    (sys : system) (order : list nat) : Prop := mk_linearized {
  lin_data : map data (threads sys) = ds;
  lin_nodup : NoDup order;
  lin_done : forall i, In i order <->
     exists g, nth_error (threads sys) i = Some g /\ returned g <> None;
  lin_state :
    exists wl sl rs,
      appends w0 s0 (map (fun i => nth i ds []) order) = (wl, sl, rs) /\
      mutex sl = false /\
      (forall k i, nth_error order k = Some i ->
         exists g r, nth_error (threads sys) i = Some g /\ now g = Done r /\
                     nth_error rs k = Some (Return r)) /\
      ((world sys = wl /\ shared sys = sl /\
        Forall (fun g => inside g = false) (threads sys))
       \/
       (exists j g, nth_error (threads sys) j = Some g /\ inside g = true /\
          mutex (shared sys) = true /\
          (forall i g', i <> j -> nth_error (threads sys) i = Some g' ->
                        inside g' = false) /\
          exists w1 s1 r,
            Append wl sl (data g) = (w1, s1, Return r) /\
            finish 5 (world sys) (shared sys) g
            = (w1, s1, mkGoroutine (data g) (Done r))))
}.

(** What the goroutine [i] returned ((0, 0, nil) if it has not). *)
Definition result_of (ths : list goroutine) (i : nat) : Z * Z * option error :=
  match nth_error ths i with
  | Some g => match returned g with Some r => r | None => (0, 0, None) end
  | None => (0, 0, None)
  end.

End GoroutinePredicates.

(** ** Concrete runs *)

Section Scenarios.
Import Go os bufio log Goroutines.

(** A fresh temporary file and the store [newStore] builds over it. *)
Definition fresh_world : World := fst (CreateTemp []).
Definition fresh_store : store :=
  mkStore (snd (CreateTemp [])) false NewWriter 0.

Definition ENOSPC : error := Errno 28.

(** A file system that is about to be full: the file is still empty and
    the first write is going to accept ten bytes. *)
Definition full_world : World := mkWorld [] [Some (Fault 10 ENOSPC)].

(** The store over [full_world] after one record was appended. *)
Definition full_store : store :=
  mkStore (mkFile 0 false false) false (mkWriter None (record testData)) 23.

(** A payload larger than the buffer of the writer. *)
Definition big_payload : list byte := repeat x01 5000.

(** testAppend on the fresh store, then [Close]. *)
Definition three_appends :=
  appends fresh_world fresh_store [testData; testData; testData].
Definition three_closed :=
  Close (fst (fst three_appends)) (snd (fst three_appends)).


End Scenarios.

(** ** Further predicates and concrete states *)

Section MorePredicates.
Import Go os bufio log.

(** The [n] bytes of [l] from the offset [off] on, or as many as there are. *)
Definition bytes_at (l : list byte) (off : Z) (n : nat) : list byte :=
  firstn n (skipn (Z.to_nat off) l).

(** What a positional read into [data] returns when it found [x]: the
    slice with [x] copied to its start, the count, and io.EOF if the slice
    was not filled. *)
Definition read_result (data x : list byte) : list byte * Z * option error :=
  (x ++ skipn (length x) data, len x,
   if len x <? len data then Some EOF else None).

(** The same file under a system that reports no failure at all. *)
Definition quiet (w : World) : World := mkWorld (disk w) [].

End MorePredicates.

Section MoreGoroutinePredicates.
Import Go os bufio log Goroutines.

(** No goroutine is inside [Append] and the mutex is free. *)
Definition idle (sys : system) : Prop :=
  mutex (shared sys) = false /\
  Forall (fun g => inside g = false) (threads sys).

(** The schedule that lets each of the first [n] goroutines in turn run
    the six statements of a whole call. *)
Definition in_turn (n : nat) : list nat :=
  flat_map (fun i => repeat i 6) (seq 0 n).

End MoreGoroutinePredicates.

Section MoreScenarios.
Import Go os bufio log.

(** The store over [full_world] after the append of [big_payload] failed. *)
Definition torn_world : World :=
  fst (fst (Append full_world full_store big_payload)).
Definition torn_store : store :=
  snd (fst (Append full_world full_store big_payload)).

(** The fresh store after one record was appended. *)
Definition one_record : store :=
  snd (fst (Append fresh_world fresh_store testData)).

(** A payload that reads as the length header of a record of 2^64 - 1
    bytes, and the fresh store after it was appended. *)
Definition hostile_payload : list byte := repeat xff 8.
Definition hostile_store : store :=
  snd (fst (Append fresh_world fresh_store hostile_payload)).

(** A file that holds two records, and a second handle on it, opened
    without O_APPEND and so at offset 0. *)
Definition two_records : World := mkWorld (record testData ++ record testData) [].
Definition rewound : os.File := mkFile 0 false false.

End MoreScenarios.

(** ** Goroutines calling any method of the store

    As [Goroutines], for the four methods: each goroutine runs one call, a
    statement at a time. Every method takes the mutex first and releases it
    in a deferred call, which also runs when the method panics; the
    goroutine of a call that panicked is taken to end there. *)

Module Callers.
Import Go os bufio log.

(** A call of a method, with its arguments. *)
Inductive method : Type :=
| CallAppend (data : list byte)
| CallRead (pos : Z)
| CallReadAt (data : list byte) (offset : Z)
| CallClose.

(** What a call returned. *)
Inductive result : Type :=
| FromAppend (r : Z * Z * option error)
| FromRead (r : list byte * option error)
| FromReadAt (r : list byte * Z * option error)
| FromClose (r : option error).

Definition returns {A} (f : A -> result) (r : outcome A) : outcome result :=
  match r with
  | Return a => Return (f a)
  | Panic => Panic
  | Deadlock => Deadlock
  end.

(** The call run alone. *)
Definition perform (w : World) (s : store) (m : method)
  : World * store * outcome result :=
  match m with
  | CallAppend data =>
      let '(w1, s1, r) := Append w s data in (w1, s1, returns FromAppend r)
  | CallRead pos =>
      let '(w1, s1, r) := Read w s pos in (w1, s1, returns FromRead r)
  | CallReadAt data offset =>
      let '(w1, s1, r) := ReadAt w s data offset in (w1, s1, returns FromReadAt r)
  | CallClose =>
      let '(w1, s1, r) := Close w s in (w1, s1, returns FromClose r)
  end.

(** The payload of an [Append] is one that a Go slice can hold. *)
Definition valid_method (m : method) : Prop :=
  match m with
  | CallAppend data => len data <= maxAlloc
  | _ => True
  end.

(** The calls run one after the other. *)
Fixpoint performs (w : World) (s : store) (ms : list method)
  : World * store * list (outcome result) :=
  match ms with
  | [] => (w, s, [])
  | m :: ms' =>
      let '(w1, s1, r) := perform w s m in
      let '(w2, s2, rs) := performs w1 s1 ms' in
      (w2, s2, r :: rs)
  end.

(** Where a goroutine is in its method, with its locals. *)
Inductive pc : Type :=
| AtLock                                      (* s.mutex.Lock() *)
| AppendPos (data : list byte)                (* pos = s.fileSize *)
| AppendHeader (data : list byte) (pos : Z)   (* binary.Write(s.buffer, enc, uint64(len(data))) *)
| AppendPayload (data : list byte) (pos : Z)  (* w, err := s.buffer.Write(data) *)
| AppendAdvance (pos w : Z)                   (* w += 8; s.fileSize += uint64(w) *)
| ReadFlush (pos : Z)                         (* s.buffer.Flush() *)
| ReadHeader (pos : Z)                        (* s.File.ReadAt(length, int64(pos)) *)
| ReadPayload (pos : Z) (length : list byte)  (* b := make(...); s.File.ReadAt(b, ...) *)
| ReadAtFlush (data : list byte) (offset : Z) (* s.buffer.Flush() *)
| ReadAtFile (data : list byte) (offset : Z)  (* s.File.ReadAt(data, offset) *)
| CloseFlush                                  (* s.buffer.Flush() *)
| CloseFile                                   (* s.File.Close() *)
| AtUnlock (r : outcome result)               (* the deferred s.mutex.Unlock() *)
| Done (r : outcome result).                  (* returned, or ended in a panic *)

Record goroutine : Type := mkGoroutine {
  calling : method;
  now : pc
}.

(** The first statement after [Lock]. *)
Definition enter (m : method) : pc :=
  match m with
  | CallAppend data => AppendPos data
  | CallRead pos => ReadFlush pos
  | CallReadAt data offset => ReadAtFlush data offset
  | CallClose => CloseFlush
  end.

(** One statement of its method by the goroutine [g]. *)
Definition statement (w : World) (s : store) (g : goroutine)
  : World * store * goroutine :=
  let next pc := mkGoroutine (calling g) pc in
  match now g with
  | AtLock =>
      if mutex s then (w, s, g) else (w, Lock s, next (enter (calling g)))
  | AppendPos data => (w, s, next (AppendHeader data (fileSize s)))
  | AppendHeader data pos =>
      let '(w1, f1, b1, e) :=
        binary.Write w (File s) (buffer s) (uint64 (len data)) in
      let s1 := mkStore f1 (mutex s) b1 (fileSize s) in
      match e with
      | Some e => (w1, s1, next (AtUnlock (Return (FromAppend (0, 0, Some e)))))
      | None => (w1, s1, next (AppendPayload data pos))
      end
  | AppendPayload data pos =>
      let '(w1, f1, b1, (wn, e)) := bufio.Write w (File s) (buffer s) data in
      let s1 := mkStore f1 (mutex s) b1 (fileSize s) in
      match e with
      | Some e => (w1, s1, next (AtUnlock (Return (FromAppend (0, 0, Some e)))))
      | None => (w1, s1, next (AppendAdvance pos wn))
      end
  | AppendAdvance pos wn =>
      let wn := int64 (wn + dataLengthWeightInBytes) in
      let fileSize' := uint64 (fileSize s + uint64 wn) in
      (w, mkStore (File s) (mutex s) (buffer s) fileSize',
       next (AtUnlock (Return (FromAppend (uint64 wn, pos, None)))))
  | ReadFlush pos =>
      let '(w1, f1, b1, e) := bufio.Flush w (File s) (buffer s) in
      let s1 := mkStore f1 (mutex s) b1 (fileSize s) in
      match e with
      | Some e => (w1, s1, next (AtUnlock (Return (FromRead ([], Some e)))))
      | None => (w1, s1, next (ReadHeader pos))
      end
  | ReadHeader pos =>
      match make dataLengthWeightInBytes with
      | None => (w, s, next (AtUnlock Panic))
      | Some length =>
          let '(w1, (length, _, e)) := os.ReadAt w (File s) length (int64 pos) in
          match e with
          | Some e => (w1, s, next (AtUnlock (Return (FromRead ([], Some e)))))
          | None => (w1, s, next (ReadPayload pos length))
          end
      end
  | ReadPayload pos length =>
      match enc.Uint64 length with
      | None => (w, s, next (AtUnlock Panic))
      | Some n =>
          match make n with
          | None => (w, s, next (AtUnlock Panic))
          | Some b =>
              let '(w1, (b, _, e)) :=
                os.ReadAt w (File s) b
                  (int64 (uint64 (pos + dataLengthWeightInBytes))) in
              match e with
              | Some e => (w1, s, next (AtUnlock (Return (FromRead ([], Some e)))))
              | None => (w1, s, next (AtUnlock (Return (FromRead (b, None)))))
              end
          end
      end
  | ReadAtFlush data offset =>
      let '(w1, f1, b1, e) := bufio.Flush w (File s) (buffer s) in
      let s1 := mkStore f1 (mutex s) b1 (fileSize s) in
      match e with
      | Some e => (w1, s1, next (AtUnlock (Return (FromReadAt (data, 0, Some e)))))
      | None => (w1, s1, next (ReadAtFile data offset))
      end
  | ReadAtFile data offset =>
      let (w1, r) := os.ReadAt w (File s) data offset in
      (w1, s, next (AtUnlock (Return (FromReadAt r))))
  | CloseFlush =>
      let '(w1, f1, b1, e) := bufio.Flush w (File s) (buffer s) in
      let s1 := mkStore f1 (mutex s) b1 (fileSize s) in
      match e with
      | Some e => (w1, s1, next (AtUnlock (Return (FromClose (Some e)))))
      | None => (w1, s1, next CloseFile)
      end
  | CloseFile =>
      let '(w1, f1, e) := os.Close w (File s) in
      (w1, mkStore f1 (mutex s) (buffer s) (fileSize s),
       next (AtUnlock (Return (FromClose e))))
  | AtUnlock r => (w, Unlock s, next (Done r))
  | Done r => (w, s, g)
  end.

(** The file, the store shared by the goroutines, and the goroutines. *)
Record system : Type := mkSystem {
  world : World;
  shared : store;
  threads : list goroutine
}.

(** The goroutine [i] moves. *)
Definition step (i : nat) (sys : system) : system :=
  match nth_error (threads sys) i with
  | None => sys
  | Some g =>
      let '(w, s, g') := statement (world sys) (shared sys) g in
      mkSystem w s (Goroutines.set_nth i g' (threads sys))
  end.

(** The system after the schedule [sched]. *)
Fixpoint run (sched : list nat) (sys : system) : system :=
  match sched with
  | [] => sys
  | i :: rest => run rest (step i sys)
  end.

(** One goroutine per call, all about to take the mutex. *)
Definition spawn (w : World) (s : store) (ms : list method) : system :=
  mkSystem w s (map (fun m => mkGoroutine m AtLock) ms).

Definition returned (g : goroutine) : option (outcome result) :=
  match now g with Done r => Some r | _ => None end.

(** Every goroutine has returned. *)
Definition all_done (sys : system) : Prop :=
  Forall (fun g => returned g <> None) (threads sys).

(** The goroutine is between [Lock] and [Unlock]. *)
Definition inside (g : goroutine) : bool :=
  match now g with AtLock | Done _ => false | _ => true end.

(** The goroutine that releases the mutex at this step, if one does. *)
Definition released (i : nat) (sys : system) : list nat :=
  match nth_error (threads sys) i with
  | Some (mkGoroutine _ (AtUnlock _)) => [i]
  | _ => []
  end.

(** The goroutines that release the mutex along a schedule, in order. *)
Fixpoint releases (sched : list nat) (sys : system) : list nat :=
  match sched with
  | [] => []
  | i :: rest => released i sys ++ releases rest (step i sys)
  end.

(** The goroutine alone for [k] statements. *)
Fixpoint finish (k : nat) (w : World) (s : store) (g : goroutine)
  : World * store * goroutine :=
  match k with
  | O => (w, s, g)
  | S k' => let '(w1, s1, g1) := statement w s g in finish k' w1 s1 g1
  end.

(** The statements a goroutine inside its method has left, at most,
    the deferred [Unlock] included. *)
Definition budget (p : pc) : nat :=
  match p with
  | AtLock => 6
  | AppendPos _ => 5
  | AppendHeader _ _ => 4
  | AppendPayload _ _ => 3
  | AppendAdvance _ _ => 2
  | ReadFlush _ => 4
  | ReadHeader _ => 3
  | ReadPayload _ _ => 2
  | ReadAtFlush _ _ => 3
  | ReadAtFile _ _ => 2
  | CloseFlush => 3
  | CloseFile => 2
  | AtUnlock _ => 1
  | Done _ => 0
  end.

(** No goroutine is inside a method and the mutex is free. *)
Definition idle (sys : system) : Prop :=
  mutex (shared sys) = false /\
  Forall (fun g => inside g = false) (threads sys).

(** The schedule that lets each of the first [n] goroutines in turn run
    the statements of a whole call, six at most. *)
Definition in_turn (n : nat) : list nat :=
  flat_map (fun i => repeat i 6) (seq 0 n).

(** What the goroutine [i] got from its call. *)
Definition result_of (ths : list goroutine) (i : nat) : outcome result :=
  match nth_error ths i with
  | Some g => match returned g with Some r => r | None => Deadlock end
  | None => Deadlock
  end.

(** The state of the system is the one a sequence of whole calls leads
    to: the calls of the goroutines of [order], one after the other, and
    if a goroutine holds the mutex, the part of its call it has run so
    far. *)
Record serialized (w0 : World) (s0 : store) (ms : list method)
    (sys : system) (order : list nat) : Prop := mk_serialized {
  ser_calls : map calling (threads sys) = ms;
  ser_nodup : NoDup order;
  ser_done : forall i, In i order <->
     exists g, nth_error (threads sys) i = Some g /\ returned g <> None;
  ser_state :
    exists wl sl rs,
      performs w0 s0 (map (fun i => nth i ms CallClose) order) = (wl, sl, rs) /\
      mutex sl = false /\
      (forall k i, nth_error order k = Some i ->
         exists g r, nth_error (threads sys) i = Some g /\ now g = Done r /\
                     nth_error rs k = Some r) /\
      ((world sys = wl /\ shared sys = sl /\
        Forall (fun g => inside g = false) (threads sys))
       \/
       (exists j g, nth_error (threads sys) j = Some g /\ inside g = true /\
          mutex (shared sys) = true /\
          (forall i g', i <> j -> nth_error (threads sys) i = Some g' ->
                        inside g' = false) /\
          exists w1 s1 r,
            perform wl sl (calling g) = (w1, s1, r) /\
            finish 5 (world sys) (shared sys) g
            = (w1, s1, mkGoroutine (calling g) (Done r))))
}.

End Callers.

(** ** Goroutines with different calls *)

Section CallerScenarios.
Import Go os bufio log Callers.

(** An append, a read of position 0 and a close over the fresh store,
    scheduled in turn. *)
Definition mixed_calls : list method := [CallAppend testData; CallRead 0; CallClose].
Definition mixed_goroutines : system := spawn fresh_world fresh_store mixed_calls.
Definition mixed_schedule : list nat := concat (repeat [0; 1; 2]%nat 16).

End CallerScenarios.

(** * Properties *)

(** ** encoding/binary *)

Section Encoding.
Import Go BigEndian.

Lemma Z_of_byte_of_Z x : Z_of_byte (byte_of_Z x) = Z.land x (Z.ones 8).
Proof.
  unfold Z_of_byte, byte_of_Z.
  assert (Hr : 0 <= x mod 256 < 256) by (apply Z.mod_pos_bound; lia).
  rewrite Z.land_ones by lia. change (2 ^ 8) with 256.
  destruct (Byte.of_N (Z.to_N (x mod 256))) as [b|] eqn:E.
  - apply Byte.to_of_N in E. rewrite E. lia.
  - apply Byte.of_N_None_iff in E. lia.
Qed.

Lemma byte_bit (v k n : Z) :
  0 <= k -> 0 <= n ->
  Z.testbit (Z.shiftl (Z_of_byte (byte_of_Z (Z.shiftr v k))) k) n
  = Z.testbit v n && (k <=? n) && (n <? k + 8).
Proof.
  intros Hk Hn. rewrite Z_of_byte_of_Z.
  destruct (Z.leb_spec k n) as [Hle|Hlt].
  - rewrite Z.shiftl_spec by lia. rewrite Z.land_spec, Z.shiftr_spec by lia.
    replace (n - k + k) with n by lia.
    destruct (Z.ltb_spec n (k + 8)).
    + rewrite Z.ones_spec_low by lia. now rewrite !andb_true_r.
    + rewrite Z.ones_spec_high by lia. now rewrite !andb_false_r.
  - rewrite Z.shiftl_spec_low by lia. now rewrite andb_false_r.
Qed.

Lemma Uint64_PutUint64 v :
  0 <= v < 2 ^ 64 -> Uint64 (PutUint64 v) = Some v.
Proof.
  intros Hv. unfold PutUint64, Uint64. f_equal.
  apply Z.bits_inj'. intros n Hn.
  rewrite !Z.lor_spec.
  rewrite <- (Z.shiftl_0_r (Z_of_byte (byte_of_Z v))).
  rewrite <- (Z.shiftr_0_r v) at 1.
  rewrite !byte_bit by lia.
  destruct (Z.ltb_spec n 64) as [Hlt|Hge].
  - destruct (Z.testbit v n); simpl; [|reflexivity].
    destruct (Z.leb_spec 8 n), (Z.leb_spec 16 n), (Z.leb_spec 24 n),
      (Z.leb_spec 32 n), (Z.leb_spec 40 n), (Z.leb_spec 48 n),
      (Z.leb_spec 56 n); try lia;
    destruct (Z.ltb_spec n 8), (Z.ltb_spec n 16), (Z.ltb_spec n 24),
      (Z.ltb_spec n 32), (Z.ltb_spec n 40), (Z.ltb_spec n 48),
      (Z.ltb_spec n 56); try lia;
    destruct (Z.leb_spec 0 n); try lia; destruct (Z.ltb_spec n 64); try lia;
    reflexivity.
  - assert (Hb : Z.testbit v n = false).
    { destruct (Z.eq_dec v 0) as [->|Hnz]; [apply Z.bits_0|].
      apply Z.bits_above_log2; [lia|].
      assert (Z.log2 v < 64) by (apply Z.log2_lt_pow2; lia). lia. }
    rewrite Hb. reflexivity.
Qed.

Lemma PutUint64_length v : length (PutUint64 v) = 8%nat.
Proof. reflexivity. Qed.

(** The header bytes are the big-endian digits of the length. *)
Lemma PutUint64_digits v :
  map Z_of_byte (PutUint64 v)
  = [ v / 2 ^ 56 mod 256; v / 2 ^ 48 mod 256; v / 2 ^ 40 mod 256;
      v / 2 ^ 32 mod 256; v / 2 ^ 24 mod 256; v / 2 ^ 16 mod 256;
      v / 2 ^ 8 mod 256; v mod 256 ].
Proof.
  unfold PutUint64. cbn [map]. rewrite !Z_of_byte_of_Z.
  rewrite !Z.land_ones by lia. rewrite !Z.shiftr_div_pow2 by lia.
  reflexivity.
Qed.

Lemma PutUint64_big_endian v : map Z_of_byte (PutUint64 v) = big_endian 8 v.
Proof.
  rewrite PutUint64_digits. cbn [big_endian app].
  rewrite !Z.div_div by lia. reflexivity.
Qed.

End Encoding.

(** ** os and bufio *)

Section IO.
Import Go os bufio.

Lemma len_app {A} (a b : list A) : len (a ++ b) = len a + len b.
Proof. unfold len. rewrite length_app. lia. Qed.

Lemma len_nonneg {A} (a : list A) : 0 <= len a.
Proof. unfold len. lia. Qed.

Lemma firstn_skipn_length {A} m (l : list A) :
  firstn m l ++ skipn (length (firstn m l)) l = l.
Proof.
  rewrite length_firstn.
  destruct (Nat.le_ge_cases m (length l)).
  - rewrite Nat.min_l by lia. apply firstn_skipn.
  - rewrite Nat.min_r by lia. rewrite firstn_all2, skipn_all by lia. apply app_nil_r.
Qed.

Lemma syscall_disk w : disk (snd (syscall w)) = disk w.
Proof. unfold syscall. destruct (faults w); reflexivity. Qed.

Lemma pwrite_end d b : pwrite d (len d) b = d ++ b.
Proof.
  unfold pwrite. destruct b as [|x b]; [now rewrite app_nil_r|].
  unfold len. rewrite Nat2Z.id, firstn_all, Z.sub_diag. simpl repeat. cbn [app].
  rewrite skipn_all2; [now rewrite app_nil_r|].
  pose proof (len_nonneg (x :: b)). unfold len in *. lia.
Qed.

Lemma write_pos_end w f : at_end w f -> write_pos w f = len (disk w).
Proof. unfold at_end, write_pos. intros [->| ->]; [reflexivity|]. now destruct (append f). Qed.

Lemma syscall_calm w : calm w -> syscall w = (None, snd (syscall w)) /\ calm (snd (syscall w)).
Proof.
  unfold calm, syscall. destruct w as [d [|x fs]]; simpl; intros H.
  - split; [reflexivity|constructor].
  - inversion H; subst. split; [reflexivity|assumption].
Qed.

Lemma len_firstn_le {A} m (l : list A) : len (firstn m l) <= len l.
Proof. unfold len. rewrite length_firstn. lia. Qed.

Lemma fitting_prefix pos b : exists m, fitting pos b = firstn m b.
Proof.
  unfold fitting. destruct (_ <=? _).
  - exists (length b). now rewrite firstn_all.
  - eauto.
Qed.

Lemma fitting_bound pos b : pos <= maxFileSize -> pos + len (fitting pos b) <= maxFileSize.
Proof.
  unfold fitting. intros H. destruct (Z.leb_spec (pos + len b) maxFileSize); [lia|].
  unfold len. rewrite length_firstn. lia.
Qed.

Lemma accepted_prefix flt pos b b' e :
  accepted flt pos b = (b', e) ->
  (exists m, b' = firstn m b) /\ (e = None -> b' = b) /\
  (pos <= maxFileSize -> pos + len b' <= maxFileSize).
Proof.
  unfold accepted. destruct (fitting_prefix pos b) as [m Hm].
  pose proof (fitting_bound pos b) as Hb.
  destruct flt as [[k e0]|]; intros [= <- <-].
  - split; [|split]; [|discriminate|].
    + rewrite Hm, firstn_firstn. eauto.
    + intros H. specialize (Hb H). pose proof (len_firstn_le k (fitting pos b)). lia.
  - split; [eauto|split; [|assumption]].
    destruct (Z.ltb_spec (len (fitting pos b)) (len b)) as [|Hge]; [discriminate|].
    intros _. rewrite Hm in *. unfold len in Hge. rewrite length_firstn in Hge.
    apply firstn_all2. lia.
Qed.

Lemma os_Write_at_end w f b w1 f1 n e :
  os.Write w f b = (w1, f1, (n, e)) -> at_end w f ->
  (exists m, disk w1 = disk w ++ firstn m b /\ n = len (firstn m b)) /\
  at_end w1 f1 /\ closed f1 = closed f /\ append f1 = append f /\
  (e = None -> n = len b /\ disk w1 = disk w ++ b) /\
  (len (disk w) <= maxFileSize -> len (disk w1) <= maxFileSize).
Proof.
  unfold os.Write. intros H Hend.
  destruct (closed f) eqn:Hc.
  - injection H as <- <- <- <-. split; [exists 0%nat; simpl; now rewrite app_nil_r|].
    repeat split; auto; discriminate.
  - destruct (syscall w) as [flt w0] eqn:Hs.
    assert (Hd : disk w0 = disk w) by (pose proof (syscall_disk w) as X; now rewrite Hs in X).
    assert (Hp : write_pos w0 f = len (disk w)).
    { rewrite write_pos_end; [now rewrite Hd|]. unfold at_end in *. now rewrite Hd. }
    rewrite Hp in H.
    destruct (accepted flt (len (disk w)) b) as [b' e'] eqn:Ha.
    injection H as <- <- <- <-. simpl.
    destruct (accepted_prefix _ _ _ _ _ Ha) as ([m ->] & Hnone & Hbound).
    rewrite Hd, pwrite_end.
    split; [eauto|]. split; [right; simpl; now rewrite len_app|].
    split; [reflexivity|]. split; [reflexivity|]. split.
    + intros He. rewrite (Hnone He). auto.
    + intros Hle. rewrite len_app. auto.
Qed.

Lemma os_Write_ok_len w f b w1 f1 n :
  os.Write w f b = (w1, f1, (n, None)) -> n = len b.
Proof.
  unfold os.Write. destruct (closed f); [discriminate|].
  destruct (syscall w) as [flt w0].
  destruct (accepted flt (write_pos w0 f) b) as [b' e'] eqn:Ha.
  intros [= <- <- <- ->]. apply accepted_prefix in Ha as (_ & Hn & _).
  now rewrite Hn.
Qed.

Lemma os_Write_calm w f b :
  calm w -> closed f = false -> at_end w f -> len (disk w) + len b <= maxFileSize ->
  exists w1 f1, os.Write w f b = (w1, f1, (len b, None)) /\ calm w1.
Proof.
  intros Hc Ho He Hle. unfold os.Write. rewrite Ho.
  destruct (syscall_calm w Hc) as [Hs Hc']. rewrite Hs.
  rewrite write_pos_end by (unfold at_end in *; now rewrite syscall_disk).
  rewrite syscall_disk. unfold accepted, fitting.
  destruct (Z.leb_spec (len (disk w) + len b) maxFileSize); [|lia].
  rewrite Z.ltb_irrefl. eexists _, _. split; [reflexivity|]. exact Hc'.
Qed.

Lemma len_zero_nil {A} (l : list A) : len l = 0 -> l = [].
Proof. destruct l; [reflexivity|unfold len; simpl; lia]. Qed.

Lemma skipn_len_firstn {A} m (l : list A) :
  skipn (Z.to_nat (len (firstn m l))) l = skipn (length (firstn m l)) l.
Proof. unfold len. now rewrite Nat2Z.id. Qed.

Lemma Flush_spec w f b w1 f1 b1 e :
  Flush w f b = (w1, f1, b1, e) -> at_end w f ->
  disk w1 ++ buf b1 = disk w ++ buf b /\
  at_end w1 f1 /\ closed f1 = closed f /\ append f1 = append f /\
  err b1 = e /\ (e = None -> buf b1 = []) /\
  len (buf b1) <= len (buf b) /\
  (len (disk w) <= maxFileSize -> len (disk w1) <= maxFileSize).
Proof.
  unfold Flush. intros H Hend.
  destruct (err b) as [e0|] eqn:He.
  { injection H as <- <- <- <-. repeat split; auto; try lia; discriminate. }
  unfold Buffered in H.
  destruct (Z.eqb_spec (len (buf b)) 0) as [Hz|Hnz].
  { injection H as <- <- <- <-. repeat split; auto; try lia.
    intros _. now apply len_zero_nil. }
  destruct (os.Write w f (buf b)) as [[w' f'] [n e']] eqn:Hw.
  destruct (os_Write_at_end _ _ _ _ _ _ _ Hw Hend)
    as ((m & Hd & Hn) & Hend' & Hcl & Hap & Hok & Hbd).
  destruct ((n <? len (buf b)) && is_nil e') eqn:Hshort.
  - injection H as <- <- <- <-. simpl. subst n.
    rewrite skipn_len_firstn, Hd, <- app_assoc, firstn_skipn_length.
    repeat split; auto; try (intros; discriminate).
    unfold len. rewrite length_skipn. lia.
    rewrite <- Hd. exact Hbd.
  - destruct e' as [e'|].
    + injection H as <- <- <- <-. simpl. subst n.
      rewrite skipn_len_firstn, Hd, <- app_assoc, firstn_skipn_length.
      repeat split; auto; try (intros; discriminate).
      unfold len. rewrite length_skipn. lia.
      rewrite <- Hd. exact Hbd.
    + injection H as <- <- <- <-. simpl. destruct (Hok eq_refl) as [_ Hd'].
      rewrite Hd' in *. rewrite app_nil_r. repeat split; auto. apply len_nonneg.
Qed.

Lemma Flush_calm w f b :
  calm w -> closed f = false -> at_end w f -> err b = None ->
  len (disk w) + len (buf b) <= maxFileSize ->
  exists w1 f1, Flush w f b = (w1, f1, mkWriter None [], None) /\ calm w1.
Proof.
  intros Hc Ho He Hb Hle. unfold Flush. rewrite Hb. unfold Buffered.
  destruct (Z.eqb_spec (len (buf b)) 0) as [Hz|Hnz].
  - apply len_zero_nil in Hz. destruct b as [eb bb]; simpl in *; subst. eauto.
  - destruct (os_Write_calm w f (buf b) Hc Ho He Hle) as (w1 & f1 & -> & Hc1).
    rewrite Z.ltb_irrefl. simpl. eauto.
Qed.

Lemma Write_more_err b p e : err b = Some e -> Write_more b p = false.
Proof. unfold Write_more. intros ->. apply andb_false_r. Qed.

Lemma Write_more_nil b : Buffered b = 0 -> Write_more b [] = false.
Proof. unfold Write_more, Available, Buffered. intros ->. reflexivity. Qed.

(** After a direct write the loop has nothing left to do. *)
Lemma direct_write_done w f b p w1 f1 n e :
  Buffered b = 0 -> os.Write w f p = (w1, f1, (n, e)) ->
  Write_more (mkWriter e (buf b)) (skipn (Z.to_nat n) p) = false.
Proof.
  intros Hb Hw. destruct e as [e|]; [now apply Write_more_err with e|].
  apply os_Write_ok_len in Hw. subst n. unfold len. rewrite Nat2Z.id, skipn_all.
  now apply Write_more_nil.
Qed.

Lemma Write_loop_exit fuel w f b p nn :
  Write_more b p = false -> Write_loop fuel w f b p nn = (w, f, b, p, nn).
Proof. intros H. destruct fuel; simpl; [reflexivity|now rewrite H]. Qed.

(** Two iterations end the loop of [Write], in every state. *)
Lemma Write_loop_done w f b p nn :
  let '(_, _, b1, p1, _) := Write_loop 2 w f b p nn in Write_more b1 p1 = false.
Proof.
  cbn [Write_loop].
  destruct (Write_more b p) eqn:Hm; [|exact Hm].
  destruct (Z.eqb_spec (Buffered b) 0) as [Hz|Hnz].
  - destruct (os.Write w f p) as [[w1 f1] [n e]] eqn:Hw.
    pose proof (direct_write_done w f b p w1 f1 n e Hz Hw) as Hd.
    now rewrite Hd.
  - destruct (fill b p) as [b1 n] eqn:Hf.
    destruct (Flush w f b1) as [[[w1 f1] b2] e] eqn:Hfl.
    destruct (Write_more b2 (skipn (Z.to_nat n) p)) eqn:Hm2; [|exact Hm2].
    assert (Hb2 : Buffered b2 = 0).
    { unfold Flush in Hfl. unfold Write_more in Hm2.
      destruct (err b1) eqn:He1.
      - injection Hfl as <- <- <- <-. rewrite He1 in Hm2. now rewrite andb_false_r in Hm2.
      - destruct (Buffered b1 =? 0) eqn:Hb1.
        + injection Hfl as <- <- <- <-. now apply Z.eqb_eq.
        + destruct (os.Write w f (buf b1)) as [[w' f'] [n' e']].
          destruct ((n' <? Buffered b1) && is_nil e').
          * injection Hfl as <- <- <- <-. now rewrite andb_false_r in Hm2.
          * destruct e'; injection Hfl as <- <- <- <-;
              [now rewrite andb_false_r in Hm2|reflexivity]. }
    rewrite Hb2. simpl.
    destruct (os.Write w1 f1 (skipn (Z.to_nat n) p)) as [[w2 f2] [n2 e2]] eqn:Hw.
    exact (direct_write_done _ _ _ _ _ _ _ _ Hb2 Hw).
Qed.

(** More fuel than the loop needs changes nothing. *)
Lemma Write_loop_stable n k : forall w f b p nn,
  (let '(_, _, b1, p1, _) := Write_loop n w f b p nn in Write_more b1 p1 = false) ->
  Write_loop (n + k) w f b p nn = Write_loop n w f b p nn.
Proof.
  induction n as [|n IH]; intros w f b p nn H.
  - simpl in *. now apply Write_loop_exit.
  - cbn [Write_loop Nat.add] in *. destruct (Write_more b p); [|reflexivity].
    destruct (Buffered b =? 0).
    + destruct (os.Write w f p) as [[w1 f1] [m e]]. now apply IH.
    + destruct (fill b p) as [b1 m]. destruct (Flush w f b1) as [[[w1 f1] b2] e].
      now apply IH.
Qed.

Lemma Write_loop_fuel k w f b p nn :
  Write_loop (2 + k) w f b p nn = Write_loop 2 w f b p nn.
Proof. apply Write_loop_stable, Write_loop_done. Qed.

Lemma grows_refl w f b : at_end w f -> grows w f b w f b [].
Proof. intros H. unfold grows. rewrite app_nil_r. repeat split; auto. Qed.

Lemma grows_trans w f b w1 f1 b1 c1 w2 f2 b2 c2 :
  grows w f b w1 f1 b1 c1 -> grows w1 f1 b1 w2 f2 b2 c2 ->
  grows w f b w2 f2 b2 (c1 ++ c2).
Proof.
  intros (H1 & H2 & H3 & H4 & H5 & H6) (G1 & G2 & G3 & G4 & G5 & G6).
  unfold grows. rewrite G1, app_assoc, H1, <- !app_assoc.
  repeat split; auto; congruence.
Qed.

Lemma Flush_grows w f b w1 f1 b1 e :
  Flush w f b = (w1, f1, b1, e) -> at_end w f -> grows w f b w1 f1 b1 [].
Proof.
  intros H He. destruct (Flush_spec _ _ _ _ _ _ _ H He) as (A & B & C & D & _ & _ & G & I).
  unfold grows. rewrite app_nil_r. repeat split; auto. lia.
Qed.

Lemma fill_spec b p b1 n :
  fill b p = (b1, n) ->
  exists c, b1 = mkWriter (err b) (buf b ++ c) /\ n = len c /\
            c ++ skipn (Z.to_nat n) p = p /\
            (len (buf b) <= defaultBufSize -> len (buf b ++ c) <= defaultBufSize) /\
            (len p <= Available b -> c = p).
Proof.
  unfold fill. intros [= <- <-]. eexists. split; [reflexivity|]. split; [reflexivity|].
  split; [|split].
  - rewrite skipn_len_firstn. apply firstn_skipn_length.
  - intros H. rewrite len_app. unfold len, Available, len in *.
    rewrite length_firstn. lia.
  - intros H. apply firstn_all2. unfold Available, len in *. lia.
Qed.

Lemma Write_loop_spec fuel : forall w f b p nn w1 f1 b1 p1 nn1,
  Write_loop fuel w f b p nn = (w1, f1, b1, p1, nn1) -> at_end w f ->
  exists c, p = c ++ p1 /\ nn1 = nn + len c /\ grows w f b w1 f1 b1 c.
Proof.
  induction fuel as [|fuel IH]; intros w f b p nn w1 f1 b1 p1 nn1 H Hend.
  - injection H as <- <- <- <- <-. exists []. split; [reflexivity|].
    split; [unfold len; simpl; lia|now apply grows_refl].
  - cbn [Write_loop] in H. destruct (Write_more b p).
    2:{ injection H as <- <- <- <- <-. exists []. split; [reflexivity|].
        split; [unfold len; simpl; lia|now apply grows_refl]. }
    destruct (Z.eqb_spec (Buffered b) 0) as [Hz|Hnz].
    + destruct (os.Write w f p) as [[w' f'] [n e]] eqn:Hw.
      destruct (os_Write_at_end _ _ _ _ _ _ _ Hw Hend)
        as ((m & Hd & Hn) & Hend' & Hcl & Hap & _ & Hbd).
      destruct (IH _ _ _ _ _ _ _ _ _ _ H Hend') as (c2 & Hp & Hnn & Hg).
      exists (firstn m p ++ c2). subst n. rewrite skipn_len_firstn in Hp.
      split; [|split].
      * rewrite <- app_assoc, <- Hp. symmetry. apply firstn_skipn_length.
      * rewrite len_app. lia.
      * apply grows_trans with w' f' (mkWriter e (buf b)); [|exact Hg].
        apply len_zero_nil in Hz. unfold grows. simpl. rewrite Hz, Hd. simpl.
        rewrite !app_nil_r. repeat split; auto. now rewrite <- Hd.
    + destruct (fill b p) as [b' n] eqn:Hf.
      destruct (fill_spec _ _ _ _ Hf) as (c1 & -> & -> & Hc1 & Hbuf & _).
      destruct (Flush w f _) as [[[w' f'] b2] e] eqn:Hfl.
      pose proof (Flush_grows _ _ _ _ _ _ _ Hfl Hend) as Hg1.
      assert (Hend' : at_end w' f') by apply Hg1.
      destruct (IH _ _ _ _ _ _ _ _ _ _ H Hend') as (c2 & Hp & Hnn & Hg).
      exists (c1 ++ c2). split; [|split].
      * rewrite <- app_assoc, <- Hp. now symmetry.
      * rewrite len_app. lia.
      * apply grows_trans with w' f' b2; [|exact Hg].
        destruct Hg1 as (G1 & G2 & G3 & G4 & G5 & G6). simpl in *.
        unfold grows. rewrite G1, app_nil_r.
        repeat split; auto.
Qed.

Lemma bufio_Write_spec w f b p w1 f1 b1 n e :
  bufio.Write w f b p = (w1, f1, b1, (n, e)) -> at_end w f ->
  exists c, grows w f b w1 f1 b1 c /\ err b1 = e /\
            (e = None -> c = p /\ n = len p /\ len (buf b1) <= defaultBufSize).
Proof.
  unfold bufio.Write. intros H Hend.
  pose proof (Write_loop_done w f b p 0) as Hdone.
  destruct (Write_loop 2 w f b p 0) as [[[[w' f'] b'] p1] nn] eqn:Hl.
  destruct (Write_loop_spec _ _ _ _ _ _ _ _ _ _ _ Hl Hend) as (c & Hp & Hnn & Hg).
  destruct (err b') as [e'|] eqn:He.
  - injection H as <- <- <- <- <-. exists c. split; [exact Hg|].
    split; [exact He|discriminate].
  - destruct (fill b' p1) as [b2 n2] eqn:Hf.
    injection H as <- <- <- <- <-.
    destruct (fill_spec _ _ _ _ Hf) as (c1 & -> & -> & _ & _ & Hall).
    unfold Write_more in Hdone. rewrite He, andb_true_r in Hdone.
    apply Z.ltb_ge in Hdone. specialize (Hall Hdone). subst c1.
    exists (c ++ p1). split; [|split; [exact He|]].
    + apply grows_trans with w' f' b'; [exact Hg|].
      unfold grows. simpl. destruct Hg as (_ & G2 & _).
      repeat split; auto. intros _. rewrite len_app. unfold Available in Hdone. lia.
    + intros _. split; [now symmetry|]. split.
      * rewrite Hp, len_app. lia.
      * simpl. rewrite len_app. unfold Available in Hdone. lia.
Qed.

Lemma Write_loop_calm fuel : forall w f b p nn,
  calm w -> closed f = false -> at_end w f -> err b = None ->
  len (disk w) + len (buf b) + len p <= maxFileSize ->
  let '(w1, _, b1, _, _) := Write_loop fuel w f b p nn in
  calm w1 /\ err b1 = None.
Proof.
  induction fuel as [|fuel IH]; intros w f b p nn Hc Ho Hend Hb Hle; [now split|].
  cbn [Write_loop]. destruct (Write_more b p); [|now split].
  pose proof (len_nonneg (buf b)) as Hb0. pose proof (len_nonneg p) as Hp0.
  destruct (Z.eqb_spec (Buffered b) 0) as [Hz|Hnz].
  - destruct (os_Write_calm w f p Hc Ho Hend ltac:(lia)) as (w1 & f1 & Hw & Hc1).
    rewrite Hw.
    destruct (os_Write_at_end _ _ _ _ _ _ _ Hw Hend) as (_ & Hend' & Hcl & _ & Hok & _).
    destruct (Hok eq_refl) as [_ Hd].
    assert (Hs : skipn (Z.to_nat (len p)) p = [])
      by (unfold len; rewrite Nat2Z.id; apply skipn_all).
    rewrite Hs. apply IH; auto; [congruence|]. simpl buf. rewrite Hd, len_app.
    change (len (@nil byte)) with 0. lia.
  - destruct (fill b p) as [b' n] eqn:Hf.
    destruct (fill_spec _ _ _ _ Hf) as (c1 & -> & -> & Hc1 & _ & _).
    assert (Hlen : len p = len c1 + len (skipn (Z.to_nat (len c1)) p)).
    { rewrite <- Hc1 at 1. apply len_app. }
    destruct (Flush_calm w f (mkWriter (err b) (buf b ++ c1)) Hc Ho Hend Hb)
      as (w1 & f1 & Hfl & Hcalm1).
    { simpl. rewrite len_app. pose proof (len_nonneg (skipn (Z.to_nat (len c1)) p)). lia. }
    rewrite Hfl.
    destruct (Flush_spec _ _ _ _ _ _ _ Hfl Hend) as (Hd & Hend' & Hcl & _).
    simpl in Hd. rewrite app_nil_r in Hd.
    apply IH; auto; [congruence|]. simpl. rewrite Hd, !len_app.
    change (len (@nil byte)) with 0. lia.
Qed.

Lemma bufio_Write_calm w f b p :
  calm w -> closed f = false -> at_end w f -> err b = None ->
  len (disk w) + len (buf b) + len p <= maxFileSize ->
  exists w1 f1 b1, bufio.Write w f b p = (w1, f1, b1, (len p, None)) /\ calm w1.
Proof.
  intros Hc Ho Hend Hb Hle.
  pose proof (Write_loop_calm 2 w f b p 0 Hc Ho Hend Hb Hle) as Hl.
  destruct (bufio.Write w f b p) as [[[w1 f1] b1] [n e]] eqn:Hw.
  destruct (bufio_Write_spec _ _ _ _ _ _ _ _ _ Hw Hend) as (c & _ & _ & Hok).
  unfold bufio.Write in Hw.
  destruct (Write_loop 2 w f b p 0) as [[[[w' f'] b'] p1] nn].
  destruct Hl as [Hc' He']. rewrite He' in Hw.
  destruct (fill b' p1) as [b2 n2]. injection Hw as <- <- <- <- <-.
  destruct (Hok eq_refl) as (_ & -> & _). eauto.
Qed.

End IO.

(** ** The store *)

Section Store.
Import Go os bufio log.

Lemma uint64_small x : 0 <= x < 2 ^ 64 -> uint64 x = x.
Proof. intros H. unfold uint64. now apply Z.mod_small. Qed.

Lemma int64_small x : - 2 ^ 63 <= x < 2 ^ 63 -> int64 x = x.
Proof. intros H. unfold int64. rewrite Z.mod_small; lia. Qed.

Lemma binary_Write_spec w f b v w1 f1 b1 e :
  binary.Write w f b v = (w1, f1, b1, e) -> at_end w f ->
  exists c, grows w f b w1 f1 b1 c /\ err b1 = e /\
            (e = None -> c = BigEndian.PutUint64 v /\ len (buf b1) <= defaultBufSize).
Proof.
  unfold binary.Write. intros H Hend.
  destruct (bufio.Write w f b (BigEndian.PutUint64 v)) as [[[w' f'] b'] [n e']] eqn:Hw.
  injection H as <- <- <- <-.
  destruct (bufio_Write_spec _ _ _ _ _ _ _ _ _ Hw Hend) as (c & Hg & He & Hok).
  exists c. split; [exact Hg|]. split; [exact He|].
  intros E. destruct (Hok E) as (? & _ & ?). auto.
Qed.

(** What [Append] does in every state where the mutex is free. *)
Lemma Append_spec w s d w1 s1 r :
  Append w s d = (w1, s1, r) -> mutex s = false -> at_end w (File s) ->
  mutex s1 = false /\
  exists c n p e, r = Return (n, p, e) /\
    grows w (File s) (buffer s) w1 (File s1) (buffer s1) c /\
    err (buffer s1) = e /\
    match e with
    | Some _ => n = 0 /\ p = 0 /\ fileSize s1 = fileSize s
    | None =>
        c = record d /\ len (buf (buffer s1)) <= defaultBufSize /\
        p = fileSize s /\
        n = uint64 (int64 (len d + dataLengthWeightInBytes)) /\
        fileSize s1 = uint64 (fileSize s + n)
    end.
Proof.
  unfold Append. intros H Hm Hend. rewrite Hm in H. cbn [Lock File buffer fileSize mutex] in H.
  destruct (binary.Write w (File s) (buffer s) (uint64 (len d)))
    as [[[w' f'] b'] e'] eqn:Hb.
  destruct (binary_Write_spec _ _ _ _ _ _ _ _ Hb Hend) as (c1 & Hg1 & He1 & Hok1).
  destruct e' as [e'|].
  { injection H as <- <- <-. split; [reflexivity|].
    exists c1, 0, 0, (Some e'). simpl. repeat split; auto; apply Hg1. }
  destruct (bufio.Write w' f' b' d) as [[[w2 f2] b2] [wn e2]] eqn:Hw.
  assert (Hend' : at_end w' f') by apply Hg1.
  destruct (bufio_Write_spec _ _ _ _ _ _ _ _ _ Hw Hend') as (c2 & Hg2 & He2 & Hok2).
  pose proof (grows_trans _ _ _ _ _ _ _ _ _ _ _ Hg1 Hg2) as Hg.
  destruct e2 as [e2|].
  { injection H as <- <- <-. split; [reflexivity|].
    exists (c1 ++ c2), 0, 0, (Some e2). simpl. repeat split; auto; apply Hg. }
  injection H as <- <- <-. split; [reflexivity|].
  destruct (Hok1 eq_refl) as [-> _]. destruct (Hok2 eq_refl) as (-> & -> & Hbuf).
  eexists _, _, _, None. split; [reflexivity|]. split; [exact Hg|].
  split; [exact He2|]. repeat split; auto.
Qed.

Lemma record_length d : len (record d) = len d + 8.
Proof. unfold record. rewrite len_app. apply Z.add_comm. Qed.

(** A successful [Append] on a consistent store. *)
Lemma Append_ok w s d w1 s1 n p :
  store_ok w s -> len d <= maxAlloc ->
  Append w s d = (w1, s1, Return (n, p, None)) ->
  n = len d + 8 /\ p = fileSize s /\ fileSize s1 = p + n /\
  logical w1 s1 = logical w s ++ record d /\ store_ok w1 s1.
Proof.
  intros [Hm Ho Hend He Hsz Hbuf Hdisk] Hd H.
  destruct (Append_spec _ _ _ _ _ _ H Hm Hend)
    as (Hm1 & c & n' & p' & e' & [= <- <- <-] & Hg & He1 & -> & Hb1 & -> & Hn & Hs1).
  destruct Hg as (Hl & Hend1 & Hcl & _ & _ & Hdk).
  pose proof (len_nonneg d) as Hd0. pose proof (len_nonneg (disk w)) as Hk0.
  pose proof (len_nonneg (buf (buffer s))) as Hb0.
  assert (Hmax : maxAlloc = 2 ^ 48) by reflexivity.
  assert (Hfs : maxFileSize = 2 ^ 63 - 1) by reflexivity.
  assert (Hbs : defaultBufSize = 4096) by reflexivity.
  unfold dataLengthWeightInBytes in Hn.
  rewrite int64_small, uint64_small in Hn by lia.
  assert (Hlog : logical w1 s1 = logical w s ++ record d).
  { unfold logical. rewrite Hl. now rewrite app_assoc. }
  assert (Hsz1 : fileSize s1 = fileSize s + n).
  { rewrite Hs1. apply uint64_small. lia. }
  split; [lia|]. split; [reflexivity|]. split; [exact Hsz1|]. split; [exact Hlog|].
  constructor; auto; try congruence.
  apply (f_equal len) in Hlog. unfold logical in Hlog.
  rewrite !len_app, record_length in Hlog. lia.
Qed.

Lemma Append_calm w s d :
  store_ok w s -> calm w -> len d <= maxAlloc ->
  fileSize s + 8 + len d <= maxFileSize ->
  exists w1 s1,
    Append w s d = (w1, s1, Return (len d + 8, fileSize s, None)) /\ calm w1.
Proof.
  intros Hok Hc Hd Hfit. pose proof Hok as [Hm Ho Hend He Hsz Hbuf Hdisk].
  pose proof (len_nonneg d) as Hd0.
  destruct (bufio_Write_calm w (File s) (buffer s)
              (BigEndian.PutUint64 (uint64 (len d))) Hc Ho Hend He)
    as (w1 & f1 & b1 & Hw1 & Hc1).
  { change (len (BigEndian.PutUint64 _)) with 8. lia. }
  destruct (bufio_Write_spec _ _ _ _ _ _ _ _ _ Hw1 Hend) as (c1 & Hg1 & He1 & Hk1).
  destruct (Hk1 eq_refl) as (-> & _ & _).
  destruct Hg1 as (Hl1 & Hend1 & Hcl1 & _).
  destruct (bufio_Write_calm w1 f1 b1 d Hc1) as (w2 & f2 & b2 & Hw2 & Hc2);
    auto; [congruence|..].
  { apply (f_equal len) in Hl1. rewrite !len_app in Hl1.
    change (len (BigEndian.PutUint64 _)) with 8 in Hl1. lia. }
  destruct (Append w s d) as [[w' s'] r] eqn:HA.
  assert (r = Return (len d + 8, fileSize s, None) /\ w' = w2) as [-> ->].
  { unfold Append in HA. rewrite Hm in HA. unfold binary.Write in HA.
    cbn [Lock File buffer fileSize mutex] in HA.
    rewrite Hw1, Hw2 in HA. injection HA as <- <- <-.
    unfold dataLengthWeightInBytes.
    assert (Hmax : maxAlloc = 2 ^ 48) by reflexivity.
    rewrite int64_small, uint64_small by lia.
    split; reflexivity. }
  eauto.
Qed.

Lemma make_ok n : 0 <= n <= maxAlloc -> make n = Some (repeat x00 (Z.to_nat n)).
Proof. intros H. unfold make. destruct (Z.leb_spec n maxAlloc); [reflexivity|lia]. Qed.

Lemma os_ReadAt_disk w f b off w1 r :
  os.ReadAt w f b off = (w1, r) -> disk w1 = disk w.
Proof.
  unfold os.ReadAt. destruct (off <? 0); [now intros [= <- _]|].
  destruct (len b =? 0); [now intros [= <- _]|].
  destruct (closed f); [now intros [= <- _]|].
  pose proof (syscall_disk w) as Hs. destruct (syscall w) as [flt w0]. simpl in Hs.
  destruct (maxFileSize <? off + len b); [now intros [= <- _]|].
  destruct flt as [[k e]|]; intros [= <- _]; exact Hs.
Qed.

(** A positional read that reports no error returns the bytes at [off]. *)
Lemma os_ReadAt_found w f b off pre x post w1 b' n :
  os.ReadAt w f b off = (w1, (b', n, None)) ->
  disk w = pre ++ x ++ post -> len pre = off -> length b = length x ->
  b' = x.
Proof.
  unfold os.ReadAt. intros H Hd Hp Hb.
  destruct (off <? 0); [discriminate|].
  destruct (Z.eqb_spec (len b) 0) as [Hz|Hnz].
  { injection H as <- <- <-. apply len_zero_nil in Hz. subst b.
    destruct x; [reflexivity|discriminate]. }
  destruct (closed f); [discriminate|].
  pose proof (syscall_disk w) as Hs. destruct (syscall w) as [flt w0]. simpl in Hs.
  destruct (maxFileSize <? off + len b); [discriminate|].
  destruct flt as [[k e]|]; [discriminate|].
  rewrite Hs, Hd in H.
  assert (Hlt : (off <? len (pre ++ x ++ post)) = true).
  { apply Z.ltb_lt. rewrite !len_app. pose proof (len_nonneg post).
    unfold len in *. lia. }
  rewrite Hlt in H.
  assert (Hx : firstn (length b) (skipn (Z.to_nat off) (pre ++ x ++ post)) = x).
  { rewrite <- Hp. unfold len. rewrite Nat2Z.id, skipn_app, skipn_all, Nat.sub_diag.
    simpl. rewrite Hb, firstn_app, firstn_all, Nat.sub_diag. simpl. apply app_nil_r. }
  rewrite Hx in H. injection H as <- <- <- _.
  rewrite <- Hb, skipn_all. apply app_nil_r.
Qed.

Lemma os_ReadAt_calm w f b off pre x post :
  calm w -> closed f = false -> len (disk w) <= maxFileSize ->
  disk w = pre ++ x ++ post -> len pre = off -> length b = length x ->
  exists w1, os.ReadAt w f b off = (w1, (x, len x, None)) /\ calm w1.
Proof.
  intros Hc Ho Hmax Hd Hp Hb. unfold os.ReadAt.
  assert (Hoff : (off <? 0) = false) by (apply Z.ltb_ge; subst off; apply len_nonneg).
  rewrite Hoff.
  destruct (Z.eqb_spec (len b) 0) as [Hz|Hnz].
  { apply len_zero_nil in Hz. subst b. destruct x; [|discriminate]. eauto. }
  rewrite Ho.
  destruct (syscall_calm w Hc) as [Hs Hc']. rewrite Hs.
  assert (Hfit : (maxFileSize <? off + len b) = false).
  { apply Z.ltb_ge. rewrite Hd, !len_app in Hmax. pose proof (len_nonneg post).
    unfold len in *. lia. }
  rewrite Hfit.
  rewrite syscall_disk, Hd.
  assert (Hlt : (off <? len (pre ++ x ++ post)) = true).
  { apply Z.ltb_lt. rewrite !len_app. pose proof (len_nonneg post).
    unfold len in *. lia. }
  rewrite Hlt.
  assert (Hx : firstn (length b) (skipn (Z.to_nat off) (pre ++ x ++ post)) = x).
  { rewrite <- Hp. unfold len. rewrite Nat2Z.id, skipn_app, skipn_all, Nat.sub_diag.
    simpl. rewrite Hb, firstn_app, firstn_all, Nat.sub_diag. simpl. apply app_nil_r. }
  rewrite Hx. assert (Hl : (len x <? len b) = false) by (apply Z.ltb_ge; unfold len; lia).
  rewrite Hl, <- Hb, skipn_all, app_nil_r. eauto.
Qed.

Lemma Read_unfold w s pos :
  mutex s = false ->
  Read w s pos =
  let '(w1, f1, b1, e) := Flush w (File s) (buffer s) in
  let s1 := mkStore f1 false b1 (fileSize s) in
  match e with
  | Some e => (w1, s1, Return ([], Some e))
  | None => let (w2, r) := Read_tail w1 f1 pos in (w2, s1, r)
  end.
Proof.
  intros Hm. unfold Read, Read_tail. rewrite Hm.
  cbn [Lock Unlock File buffer fileSize mutex].
  destruct (Flush w (File s) (buffer s)) as [[[w1 f1] b1] [e|]]; [reflexivity|].
  destruct (make dataLengthWeightInBytes) as [l|]; [|reflexivity].
  destruct (os.ReadAt w1 f1 l (int64 pos)) as [w2 [[l' n] [e|]]]; [reflexivity|].
  destruct (BigEndian.Uint64 l') as [k|]; [|reflexivity].
  destruct (make k) as [b|]; [|reflexivity].
  destruct (os.ReadAt w2 f1 b _) as [w3 [[b' n'] [e|]]]; reflexivity.
Qed.

Lemma Read_tail_disk w f pos w1 r :
  Read_tail w f pos = (w1, r) -> disk w1 = disk w.
Proof.
  unfold Read_tail.
  destruct (make dataLengthWeightInBytes) as [l|]; [|now intros [= <- _]].
  destruct (os.ReadAt w f l (int64 pos)) as [w2 [[l' n] e]] eqn:H1.
  apply os_ReadAt_disk in H1.
  destruct e as [e|]; [intros [= <- _]; exact H1|].
  destruct (BigEndian.Uint64 l') as [k|]; [|intros [= <- _]; exact H1].
  destruct (make k) as [b|]; [|intros [= <- _]; exact H1].
  destruct (os.ReadAt w2 f b _) as [w3 [[b' n'] e]] eqn:H2.
  apply os_ReadAt_disk in H2.
  destruct e; intros [= <- _]; congruence.
Qed.

Section RecordOnDisk.
Variables (w : World) (f : os.File) (pos : Z) (d pre post : list byte).
Hypothesis Hdisk : disk w = pre ++ record d ++ post.
Hypothesis Hpos : len pre = pos.
Hypothesis Hd : len d <= maxAlloc.
Hypothesis Hmax : len (disk w) <= maxFileSize.

Let header := BigEndian.PutUint64 (uint64 (len d)).

Lemma record_bounds :
  0 <= pos /\ pos + 8 + len d <= maxFileSize /\ 0 <= len d < 2 ^ 64.
Proof.
  pose proof (len_nonneg pre). pose proof (len_nonneg post). pose proof (len_nonneg d).
  rewrite Hdisk, !len_app, record_length in Hmax.
  assert (maxAlloc = 2 ^ 48) by reflexivity.
  assert (maxFileSize = 2 ^ 63 - 1) by reflexivity. lia.
Qed.

Lemma record_offsets :
  int64 pos = pos /\
  int64 (uint64 (pos + dataLengthWeightInBytes)) = pos + 8 /\
  uint64 (len d) = len d.
Proof.
  destruct record_bounds as (H0 & H1 & H2). pose proof (len_nonneg d).
  assert (maxFileSize = 2 ^ 63 - 1) by reflexivity.
  unfold dataLengthWeightInBytes.
  rewrite !uint64_small, !int64_small; rewrite ?uint64_small; lia.
Qed.

Lemma disk_header : disk w = pre ++ header ++ (d ++ post).
Proof. rewrite Hdisk. unfold record, header. now rewrite <- app_assoc. Qed.

Lemma disk_payload : disk w = (pre ++ header) ++ d ++ post.
Proof. rewrite disk_header. now rewrite <- app_assoc. Qed.

Lemma len_pre_header : len (pre ++ header) = pos + 8.
Proof. rewrite len_app, Hpos. reflexivity. Qed.

Lemma header_decodes : BigEndian.Uint64 header = Some (len d).
Proof.
  unfold header. destruct record_offsets as (_ & _ & ->).
  apply Uint64_PutUint64. apply record_bounds.
Qed.

Lemma make_payload : make (len d) = Some (repeat x00 (length d)).
Proof.
  rewrite make_ok by (pose proof (len_nonneg d); lia).
  unfold len. now rewrite Nat2Z.id.
Qed.

(** On a record, the two reads return the payload or an error of the
    system. *)
Lemma Read_tail_found w1 r :
  Read_tail w f pos = (w1, r) ->
  r = Return (d, None) \/ exists e, r = Return ([], Some e).
Proof.
  unfold Read_tail. destruct record_offsets as (Ho1 & Ho2 & _).
  rewrite Ho1, Ho2. change (make dataLengthWeightInBytes) with (Some (repeat x00 8)).
  cbv beta iota.
  destruct (os.ReadAt w f (repeat x00 8) pos) as [w2 [[l' n] e]] eqn:H1.
  destruct e as [e|]; [intros [= _ <-]; eauto|].
  pose proof (os_ReadAt_disk _ _ _ _ _ _ H1) as Hd2.
  apply os_ReadAt_found with (pre := pre) (x := header) (post := d ++ post) in H1;
    [|exact disk_header|exact Hpos|reflexivity].
  subst l'. rewrite header_decodes, make_payload.
  destruct (os.ReadAt w2 f (repeat x00 (length d)) (pos + 8)) as [w3 [[b' n'] e]] eqn:H2.
  destruct e as [e|]; [intros [= _ <-]; eauto|].
  apply os_ReadAt_found with (pre := pre ++ header) (x := d) (post := post) in H2;
    [|rewrite Hd2; exact disk_payload|exact len_pre_header|apply repeat_length].
  subst b'. intros [= _ <-]. now left.
Qed.

(** Without a failure of the system they return the payload. *)
Lemma Read_tail_calm :
  calm w -> closed f = false ->
  exists w1, Read_tail w f pos = (w1, Return (d, None)) /\ calm w1.
Proof.
  intros Hc Ho. unfold Read_tail. destruct record_offsets as (Ho1 & Ho2 & _).
  rewrite Ho1, Ho2. change (make dataLengthWeightInBytes) with (Some (repeat x00 8)).
  cbv beta iota.
  destruct (os_ReadAt_calm w f (repeat x00 8) pos pre header (d ++ post) Hc Ho Hmax
              disk_header Hpos eq_refl) as (w2 & H1 & Hc2).
  rewrite H1. pose proof (os_ReadAt_disk _ _ _ _ _ _ H1) as Hd2.
  rewrite header_decodes, make_payload.
  destruct (os_ReadAt_calm w2 f (repeat x00 (length d)) (pos + 8) (pre ++ header) d post
              Hc2 Ho) as (w3 & H2 & Hc3);
    [rewrite Hd2; exact Hmax|rewrite Hd2; exact disk_payload|exact len_pre_header
    |apply repeat_length|].
  rewrite H2. eauto.
Qed.

End RecordOnDisk.

Lemma at_end_disk w w1 f : disk w1 = disk w -> at_end w f -> at_end w1 f.
Proof. unfold at_end. intros ->. auto. Qed.

(** The flush that opens [Read], [ReadAt] and [Close], on a consistent
    store: if it succeeds the file holds all the bytes. *)
Lemma Flush_ok w s w1 f1 b1 :
  store_ok w s -> Flush w (File s) (buffer s) = (w1, f1, b1, None) ->
  disk w1 = logical w s /\ b1 = mkWriter None [] /\
  store_ok w1 (mkStore f1 false b1 (fileSize s)).
Proof.
  intros [Hm Ho Hend He Hsz Hbuf Hdisk] H.
  destruct (Flush_spec _ _ _ _ _ _ _ H Hend) as (Hl & Hend1 & Hcl & _ & He1 & Hnil & _ & Hdk).
  specialize (Hnil eq_refl). rewrite Hnil, app_nil_r in Hl.
  split; [exact Hl|]. split; [destruct b1; simpl in *; congruence|].
  constructor; simpl; auto; try congruence.
  - rewrite Hnil, Hl. unfold logical. rewrite len_app. change (len (@nil byte)) with 0. lia.
  - rewrite Hnil. change (len (@nil byte)) with 0. unfold defaultBufSize. lia.
Qed.

Lemma Read_frame w s p w1 s1 r :
  Read w s p = (w1, s1, r) -> at_end w (File s) ->
  fileSize s1 = fileSize s /\ logical w1 s1 = logical w s /\ at_end w1 (File s1).
Proof.
  intros H Hend. destruct (mutex s) eqn:Hm.
  { unfold Read in H. rewrite Hm in H. injection H as <- <- <-. auto. }
  rewrite Read_unfold in H by exact Hm.
  destruct (Flush w (File s) (buffer s)) as [[[w' f'] b'] e] eqn:Hf.
  destruct (Flush_spec _ _ _ _ _ _ _ Hf Hend) as (Hl & Hend1 & _).
  destruct e as [e|]; [injection H as <- <- <-; auto|].
  destruct (Read_tail w' f' p) as [w2 r'] eqn:Ht. injection H as <- <- <-.
  apply Read_tail_disk in Ht. unfold logical. simpl. rewrite Ht.
  repeat split; auto. now apply at_end_disk with w'.
Qed.

Lemma Read_found w s p d w1 s1 r :
  store_ok w s -> record_at (logical w s) p d -> len d <= maxAlloc ->
  Read w s p = (w1, s1, r) ->
  (r = Return (d, None) /\ store_ok w1 s1) \/ exists e, r = Return ([], Some e).
Proof.
  intros Hok (pre & post & Hl & Hp) Hd H.
  rewrite Read_unfold in H by apply Hok.
  destruct (Flush w (File s) (buffer s)) as [[[w' f'] b'] e] eqn:Hf.
  destruct e as [e|]; [injection H as <- <- <-; eauto|].
  destruct (Flush_ok _ _ _ _ _ Hok Hf) as (Hdisk & _ & Hok').
  destruct (Read_tail w' f' p) as [w2 r'] eqn:Ht. injection H as <- <- <-.
  pose proof (Read_tail_disk _ _ _ _ _ Ht) as Hd2.
  rewrite Hl in Hdisk.
  destruct (Read_tail_found w' f' p d pre post Hdisk Hp Hd (ok_disk _ _ Hok') _ _ Ht)
    as [->|[e ->]]; [left|eauto].
  split; [reflexivity|]. destruct Hok'. constructor; simpl in *; auto; try congruence.
  now apply at_end_disk with w'.
Qed.

Lemma Read_calm w s p d :
  store_ok w s -> record_at (logical w s) p d -> len d <= maxAlloc ->
  calm w -> fileSize s <= maxFileSize ->
  exists w1 s1, Read w s p = (w1, s1, Return (d, None)) /\ calm w1 /\ store_ok w1 s1.
Proof.
  intros Hok Hrec Hd Hc Hfit. pose proof Hok as [Hm Ho Hend He Hsz Hbuf Hdisk].
  destruct (Flush_calm w (File s) (buffer s) Hc Ho Hend He) as (w' & f' & Hf & Hc');
    [lia|].
  destruct (Flush_ok _ _ _ _ _ Hok Hf) as (Hdk & _ & Hok').
  destruct Hrec as (pre & post & Hl & Hp). rewrite Hl in Hdk.
  destruct (Read_tail_calm w' f' p d pre post Hdk Hp Hd (ok_disk _ _ Hok') Hc'
              (ok_open _ _ Hok')) as (w2 & Ht & Hc2).
  destruct (Read w s p) as [[w1 s1] r] eqn:HR.
  pose proof (Read_found _ _ _ d _ _ _ Hok
                (ex_intro _ pre (ex_intro _ post (conj Hl Hp))) Hd HR) as Hfound.
  rewrite Read_unfold in HR by exact Hm. rewrite Hf, Ht in HR.
  injection HR as <- <- <-. destruct Hfound as [[_ Hok1]|[e [=]]]. eauto.
Qed.

Lemma Flush_none w f b w1 f1 b1 :
  Flush w f b = (w1, f1, b1, None) -> b1 = mkWriter None [].
Proof.
  unfold Flush. destruct (err b) eqn:He; [discriminate|].
  destruct (Z.eqb_spec (Buffered b) 0) as [Hz|Hnz].
  - intros [= _ _ <-]. apply len_zero_nil in Hz. destruct b; simpl in *; congruence.
  - destruct (os.Write w f (buf b)) as [[w' f'] [n e]].
    destruct ((n <? Buffered b) && is_nil e); [discriminate|].
    destruct e; [discriminate|]. now intros [= _ _ <-].
Qed.

Lemma Flush_empty w f : Flush w f (mkWriter None []) = (w, f, mkWriter None [], None).
Proof. reflexivity. Qed.

Lemma ReadAt_unfold w s data off :
  mutex s = false ->
  ReadAt w s data off =
  let '(w1, f1, b1, e) := Flush w (File s) (buffer s) in
  let s1 := mkStore f1 false b1 (fileSize s) in
  match e with
  | Some e => (w1, s1, Return (data, 0, Some e))
  | None => let (w2, r) := os.ReadAt w1 f1 data off in (w2, s1, Return r)
  end.
Proof.
  intros Hm. unfold ReadAt. rewrite Hm. cbn [Lock Unlock File buffer fileSize mutex].
  destruct (Flush w (File s) (buffer s)) as [[[w1 f1] b1] [e|]]; reflexivity.
Qed.

Lemma ReadAt_frame w s data off w1 s1 r :
  ReadAt w s data off = (w1, s1, r) -> at_end w (File s) ->
  fileSize s1 = fileSize s /\ logical w1 s1 = logical w s /\ at_end w1 (File s1).
Proof.
  intros H Hend. destruct (mutex s) eqn:Hm.
  { unfold ReadAt in H. rewrite Hm in H. injection H as <- <- <-. auto. }
  rewrite ReadAt_unfold in H by exact Hm.
  destruct (Flush w (File s) (buffer s)) as [[[w' f'] b'] e] eqn:Hf.
  destruct (Flush_spec _ _ _ _ _ _ _ Hf Hend) as (Hl & Hend1 & _).
  destruct e as [e|]; [injection H as <- <- <-; auto|].
  destruct (os.ReadAt w' f' data off) as [w2 r'] eqn:Ht. injection H as <- <- <-.
  apply os_ReadAt_disk in Ht. unfold logical. simpl. rewrite Ht.
  repeat split; auto. now apply at_end_disk with w'.
Qed.

Lemma os_Close_disk w f w1 f1 e : os.Close w f = (w1, f1, e) -> disk w1 = disk w.
Proof.
  unfold os.Close. destruct (closed f); [now intros [= <- _ _]|].
  pose proof (syscall_disk w) as Hs. destruct (syscall w) as [flt w0].
  intros [= <- _ _]. exact Hs.
Qed.

Lemma Close_ok w s w1 s1 :
  store_ok w s -> Close w s = (w1, s1, Return None) ->
  disk w1 = logical w s /\ len (disk w1) = fileSize s /\
  len (disk w1) <= maxFileSize /\ closed (File s1) = true.
Proof.
  intros Hok H. unfold Close in H. rewrite (ok_mutex _ _ Hok) in H.
  cbn [Lock Unlock File buffer fileSize mutex] in H.
  destruct (Flush w (File s) (buffer s)) as [[[w' f'] b'] [e|]] eqn:Hf; [discriminate|].
  destruct (Flush_ok _ _ _ _ _ Hok Hf) as (Hd & _ & Hok').
  destruct (os.Close w' f') as [[w2 f2] e] eqn:Hc. injection H as <- <- ->.
  pose proof (os_Close_disk _ _ _ _ _ Hc) as Hd2. rewrite Hd2.
  destruct Hok' as [_ Ho _ _ Hsz _ Hdk]. simpl in *.
  change (len (@nil byte)) with 0 in Hsz.
  rewrite (proj1 (proj2 (Flush_ok _ _ _ _ _ Hok Hf))) in Hsz. simpl in Hsz.
  change (len (@nil byte)) with 0 in Hsz.
  repeat split; auto; [lia|].
  unfold os.Close in Hc. rewrite Ho in Hc. destruct (syscall w') as [flt w0].
  now injection Hc as _ <- _.
Qed.

Lemma Close_calm w s :
  store_ok w s -> calm w -> fileSize s <= maxFileSize ->
  exists w1 s1, Close w s = (w1, s1, Return None) /\ calm w1.
Proof.
  intros Hok Hc Hfit. pose proof Hok as [Hm Ho Hend He Hsz Hbuf Hdisk].
  destruct (Flush_calm w (File s) (buffer s) Hc Ho Hend He) as (w' & f' & Hf & Hc');
    [lia|].
  destruct (Flush_ok _ _ _ _ _ Hok Hf) as (_ & _ & Hok').
  unfold Close. rewrite Hm. cbn [Lock Unlock File buffer fileSize mutex]. rewrite Hf.
  pose proof (ok_open _ _ Hok') as Ho'. simpl in Ho'.
  unfold os.Close. rewrite Ho'. simpl.
  destruct (syscall_calm w' Hc') as [Hs Hc2]. rewrite Hs. eauto.
Qed.

Lemma newStore_ok w f w1 s :
  newStore w f = (w1, inl s) ->
  closed f = false -> at_end w f -> len (disk w) <= maxFileSize ->
  disk w1 = disk w /\ fileSize s = len (disk w) /\ logical w1 s = disk w /\
  store_ok w1 s.
Proof.
  unfold newStore, os.Stat. intros H Ho Hend Hmax.
  pose proof (syscall_disk w) as Hs. destruct (syscall w) as [flt w0]. simpl in Hs.
  destruct flt as [[k e]|]; [discriminate|]. injection H as <- <-.
  pose proof (len_nonneg (disk w)).
  assert (Hu : uint64 (len (disk w0)) = len (disk w)).
  { rewrite Hs. apply uint64_small. assert (maxFileSize = 2 ^ 63 - 1) by reflexivity. lia. }
  split; [exact Hs|]. split; [exact Hu|]. split; [unfold logical; simpl; now rewrite app_nil_r|].
  constructor; simpl; auto.
  - now apply at_end_disk with w.
  - rewrite Hu, Hs. change (len (@nil byte)) with 0. lia.
  - change (len (@nil byte)) with 0. unfold defaultBufSize. lia.
  - now rewrite Hs.
Qed.

Lemma newStore_calm w f :
  calm w -> exists w1 s, newStore w f = (w1, inl s) /\ calm w1.
Proof.
  intros Hc. unfold newStore, os.Stat. destruct (syscall_calm w Hc) as [Hs Hc'].
  rewrite Hs. eauto.
Qed.

End Store.

(** ** The tests of the package pass *)

Example TestStoreAppendRead_passes : log_test.TestStoreAppendRead [] = true.
Proof. vm_compute. reflexivity. Qed.

Example TestStoreClose_passes : log_test.TestStoreClose [] = true.
Proof. vm_compute. reflexivity. Qed.

(** ** The concrete runs are runs of the code *)

Example newStore_fresh :
  log.newStore fresh_world (snd (log.CreateTemp [])) = (fresh_world, inl fresh_store).
Proof. reflexivity. Qed.

Example full_store_reached :
  log.Append full_world fresh_store log.testData
  = (full_world, full_store, log.Return (23, 0, None)).
Proof. vm_compute. reflexivity. Qed.

(** ** Runs of appends *)

Section Runs.
Import Go os bufio log.

Lemma appends_ok : forall ds w s w1 s1 ps,
  store_ok w s -> Forall valid ds ->
  appends w s ds = (w1, s1, map appended ps) ->
  store_ok w1 s1 /\
  logical w1 s1 = logical w s ++ concat (map record ds) /\
  ps = layout (fileSize s) ds /\
  fileSize s1 = fileSize s + len (concat (map record ds)).
Proof.
  induction ds as [|d ds IH]; intros w s w1 s1 ps Hok Hv H.
  - simpl in H. injection H as <- <- Hps. destruct ps; [|discriminate].
    simpl. rewrite app_nil_r. change (len (@nil byte)) with 0.
    split; [exact Hok|]. split; [reflexivity|]. split; [reflexivity|lia].
  - inversion Hv as [|? ? Hd Hv']; subst. cbn [appends] in H.
    destruct (Append w s d) as [[w' s'] r] eqn:HA.
    destruct (appends w' s' ds) as [[w2 s2] rs] eqn:HR.
    injection H as <- <- Hrs. destruct ps as [|[n p] ps]; [discriminate|].
    injection Hrs as -> ->. unfold appended in HA. simpl in HA.
    destruct (Append_ok _ _ _ _ _ _ _ Hok Hd HA) as (-> & -> & Hsz & Hl & Hok').
    destruct (IH _ _ _ _ _ Hok' Hv' HR) as (Hok2 & Hl2 & -> & Hsz2).
    split; [exact Hok2|]. cbn [map concat layout]. split; [|split].
    + rewrite Hl2, Hl. now rewrite <- app_assoc.
    + now rewrite Hsz.
    + rewrite Hsz2, Hsz, len_app, record_length. lia.
Qed.

Lemma appends_calm : forall ds w s,
  store_ok w s -> calm w -> Forall valid ds ->
  fileSize s + len (concat (map record ds)) <= maxFileSize ->
  exists w1 s1,
    appends w s ds = (w1, s1, map appended (layout (fileSize s) ds)) /\ calm w1.
Proof.
  induction ds as [|d ds IH]; intros w s Hok Hc Hv Hfit; [simpl; eauto|].
  inversion Hv as [|? ? Hd Hv']; subst. cbn [map concat] in Hfit.
  rewrite len_app, record_length in Hfit.
  pose proof (len_nonneg (concat (map record ds))).
  destruct (Append_calm w s d Hok Hc Hd) as (w' & s' & HA & Hc'); [lia|].
  destruct (Append_ok _ _ _ _ _ _ _ Hok Hd HA) as (_ & _ & Hsz & _ & Hok').
  destruct (IH w' s' Hok' Hc' Hv') as (w1 & s1 & HR & Hc1); [lia|].
  exists w1, s1. cbn [appends layout map]. rewrite HA, HR, Hsz.
  split; [reflexivity|exact Hc1].
Qed.

Lemma record_at_app l p d c : record_at l p d -> record_at (l ++ c) p d.
Proof.
  intros (pre & post & -> & Hp). exists pre, (post ++ c).
  split; [now rewrite <- !app_assoc|exact Hp].
Qed.

Lemma record_at_shift l0 l p d :
  record_at l p d -> record_at (l0 ++ l) (len l0 + p) d.
Proof.
  intros (pre & post & -> & Hp). exists (l0 ++ pre), post.
  split; [now rewrite <- app_assoc|rewrite len_app; lia].
Qed.

(** Every record of a layout is where the layout says. *)
Lemma layout_record_at : forall ds l0 i d np,
  nth_error ds i = Some d -> nth_error (layout (len l0) ds) i = Some np ->
  fst np = len d + 8 /\ record_at (l0 ++ concat (map record ds)) (snd np) d.
Proof.
  induction ds as [|d0 ds IH]; intros l0 i d np Hd Hnp; [destruct i; discriminate|].
  destruct i as [|i]; cbn [nth_error layout] in Hd, Hnp.
  - injection Hd as ->. injection Hnp as <-. split; [reflexivity|].
    exists l0, (concat (map record ds)). split; reflexivity.
  - replace (len l0 + (len d0 + 8)) with (len (l0 ++ record d0)) in Hnp
      by (rewrite len_app, record_length; reflexivity).
    destruct (IH _ _ _ _ Hd Hnp) as [Hn Hr]. split; [exact Hn|].
    cbn [map concat]. now rewrite app_assoc.
Qed.

(** The positions of a layout: each is the previous one plus the previous
    count, and they grow strictly. *)
Lemma layout_next : forall ds c i n p n' p',
  nth_error (layout c ds) i = Some (n, p) ->
  nth_error (layout c ds) (S i) = Some (n', p') ->
  p' = p + n /\ p < p'.
Proof.
  induction ds as [|d ds IH]; intros c i n p n' p' H H'; [destruct i; discriminate|].
  destruct i as [|i].
  - destruct ds as [|d' ds]; [discriminate|]. cbn [nth_error layout] in H, H'.
    injection H as <- <-. injection H' as <- <-. pose proof (len_nonneg d). lia.
  - cbn [nth_error layout] in H, H'. exact (IH _ _ _ _ _ _ H H').
Qed.

Lemma layout_lower : forall ds c i n p,
  nth_error (layout c ds) i = Some (n, p) -> c <= p /\ 8 <= n.
Proof.
  induction ds as [|d ds IH]; intros c i n p H; [destruct i; discriminate|].
  pose proof (len_nonneg d). destruct i as [|i]; cbn [nth_error layout] in H.
  - injection H as <- <-. lia.
  - apply IH in H. lia.
Qed.

(** No two records of a layout overlap. *)
Lemma layout_disjoint : forall ds c i j n p n' p',
  (i < j)%nat ->
  nth_error (layout c ds) i = Some (n, p) ->
  nth_error (layout c ds) j = Some (n', p') ->
  p + n <= p'.
Proof.
  induction ds as [|d ds IH]; intros c i j n p n' p' Hij H H'; [destruct i; discriminate|].
  destruct j as [|j]; [lia|]. destruct i as [|i]; cbn [nth_error layout] in H, H'.
  - injection H as <- <-. apply layout_lower in H'. lia.
  - apply (IH (c + (len d + 8)) i j n p n' p'); [lia|assumption..].
Qed.

(** Payloads of one length [L]: the record of index [i] (from 0) is at
    [i * (8 + L)] past the start. *)
Lemma layout_uniform L : forall ds c i n p,
  Forall (fun d => len d = L) ds ->
  nth_error (layout c ds) i = Some (n, p) ->
  n = 8 + L /\ p = c + Z.of_nat i * (8 + L).
Proof.
  induction ds as [|d ds IH]; intros c i n p HL H; [destruct i; discriminate|].
  inversion HL as [|? ? Hd HL']; subst. destruct i as [|i]; cbn [nth_error layout] in H.
  - injection H as <- <-. lia.
  - destruct (IH _ _ _ _ HL' H) as [-> ->]. lia.
Qed.

End Runs.

(** ** Frames and reading back *)

Section Frames.
Import Go os bufio log.

Lemma Append_record_at w s d w1 s1 n p :
  store_ok w s -> len d <= maxAlloc ->
  Append w s d = (w1, s1, Return (n, p, None)) ->
  record_at (logical w1 s1) p d.
Proof.
  intros Hok Hd H. destruct (Append_ok _ _ _ _ _ _ _ Hok Hd H) as (_ & -> & _ & Hl & _).
  exists (logical w s), []. rewrite app_nil_r. split; [exact Hl|].
  unfold logical. rewrite len_app. symmetry. apply Hok.
Qed.

Lemma reads_back_intro w s p d :
  store_ok w s -> record_at (logical w s) p d -> valid d -> reads_back w s p d.
Proof.
  intros Hok Hrec Hd. split.
  - intros Hc Hfit. destruct (Read_calm w s p d Hok Hrec Hd Hc Hfit) as (w1 & s1 & H & _).
    eauto.
  - intros w1 s1 r H. destruct (Read_found _ _ _ _ _ _ _ Hok Hrec Hd H) as [[-> _]|He]; auto.
Qed.

Lemma record_valid d : valid d -> record d = BigEndian.PutUint64 (len d) ++ d.
Proof.
  intros Hd. unfold record. rewrite uint64_small; [reflexivity|].
  pose proof (len_nonneg d). unfold valid in Hd.
  assert (maxAlloc = 2 ^ 48) by reflexivity. lia.
Qed.

Lemma Close_frame w s w1 s1 r :
  Close w s = (w1, s1, r) -> at_end w (File s) ->
  fileSize s1 = fileSize s /\ logical w1 s1 = logical w s /\ at_end w1 (File s1).
Proof.
  intros H Hend. unfold Close in H. destruct (mutex s).
  { injection H as <- <- <-. auto. }
  cbn [Lock Unlock File buffer fileSize mutex] in H.
  destruct (Flush w (File s) (buffer s)) as [[[w' f'] b'] e] eqn:Hf.
  destruct (Flush_spec _ _ _ _ _ _ _ Hf Hend) as (Hl & Hend1 & _).
  destruct e as [e|]; [injection H as <- <- <-; auto|].
  destruct (os.Close w' f') as [[w2 f2] e] eqn:Hc. injection H as <- <- <-.
  pose proof (os_Close_disk _ _ _ _ _ Hc) as Hd.
  unfold logical. simpl. rewrite Hd. split; [reflexivity|]. split; [exact Hl|].
  unfold os.Close in Hc. destruct (closed f').
  - injection Hc as <- <- _. exact Hend1.
  - destruct (syscall w') as [flt w0]. injection Hc as _ <- _.
    unfold at_end in *. simpl. now rewrite Hd.
Qed.

Lemma Append_frame w s d w1 s1 r :
  Append w s d = (w1, s1, r) -> at_end w (File s) ->
  (exists c, logical w1 s1 = logical w s ++ c) /\ at_end w1 (File s1).
Proof.
  intros H Hend. destruct (mutex s) eqn:Hm.
  { unfold Append in H. rewrite Hm in H. injection H as <- <- <-.
    split; [exists []; now rewrite app_nil_r|exact Hend]. }
  destruct (Append_spec _ _ _ _ _ _ H Hm Hend) as (_ & c & n & p & e & _ & Hg & _).
  destruct Hg as (Hl & Hend1 & _). split; [|exact Hend1].
  exists c. unfold logical. now rewrite Hl, app_assoc.
Qed.

Lemma call_frame st st1 :
  call st st1 -> at_end (fst st) (File (snd st)) ->
  (exists c, logical (fst st1) (snd st1) = logical (fst st) (snd st) ++ c) /\
  at_end (fst st1) (File (snd st1)).
Proof.
  intros [w s d w1 s1 r _ H|w s p w1 s1 r H|w s data off w1 s1 r H|w s w1 s1 r H] Hend;
    simpl in *.
  - exact (Append_frame _ _ _ _ _ _ H Hend).
  - destruct (Read_frame _ _ _ _ _ _ H Hend) as (_ & -> & ?).
    split; [exists []; now rewrite app_nil_r|assumption].
  - destruct (ReadAt_frame _ _ _ _ _ _ _ H Hend) as (_ & -> & ?).
    split; [exists []; now rewrite app_nil_r|assumption].
  - destruct (Close_frame _ _ _ _ _ H Hend) as (_ & -> & ?).
    split; [exists []; now rewrite app_nil_r|assumption].
Qed.

Lemma calls_frame st st1 :
  calls st st1 -> at_end (fst st) (File (snd st)) ->
  exists c, logical (fst st1) (snd st1) = logical (fst st) (snd st) ++ c.
Proof.
  induction 1 as [st|st st1 st2 Hc _ IH]; intros Hend.
  - exists []. now rewrite app_nil_r.
  - destruct (call_frame _ _ Hc Hend) as [[c1 H1] Hend1].
    destruct (IH Hend1) as [c2 H2]. exists (c1 ++ c2). now rewrite H2, H1, app_assoc.
Qed.

End Frames.

(** ** Goroutines *)

Section GoroutineLemmas.
Import Go os bufio log Goroutines.

Lemma set_nth_length {A} i (x : A) l : length (set_nth i x l) = length l.
Proof. revert i. induction l as [|h t IH]; intros [|i]; simpl; auto. Qed.

Lemma set_nth_same {A} i (x : A) l :
  nth_error l i = Some x -> set_nth i x l = l.
Proof.
  revert i. induction l as [|h t IH]; intros [|i] H; simpl in *; try discriminate.
  - now injection H as ->.
  - f_equal. auto.
Qed.

Lemma nth_error_set_nth_eq {A} i (x y : A) l :
  nth_error l i = Some y -> nth_error (set_nth i x l) i = Some x.
Proof.
  revert i. induction l as [|h t IH]; intros [|i] H; simpl in *; try discriminate; auto.
Qed.

Lemma nth_error_set_nth_neq {A} i j (x : A) l :
  i <> j -> nth_error (set_nth i x l) j = nth_error l j.
Proof.
  revert i j. induction l as [|h t IH]; intros [|i] [|j] H; simpl; auto; try lia.
Qed.

Lemma map_set_nth {A B} (f : A -> B) i (x y : A) l :
  nth_error l i = Some y -> f x = f y -> map f (set_nth i x l) = map f l.
Proof.
  revert i. induction l as [|h t IH]; intros [|i] H E; simpl in *; try discriminate.
  - injection H as ->. now rewrite E.
  - f_equal. eauto.
Qed.

Lemma statement_data w s g : data (snd (statement w s g)) = data g.
Proof.
  unfold statement. destruct (now g) as [| |pos|pos|pos wn|r|r]; simpl; auto.
  - now destruct (mutex s).
  - destruct (binary.Write _ _ _ _) as [[[w1 f1] b1] [e|]]; reflexivity.
  - destruct (bufio.Write _ _ _ _) as [[[w1 f1] b1] [wn [e|]]]; reflexivity.
Qed.

(** The statements between [Lock] and the return are the body of
    [Append]. *)
Lemma finish_Append w s d :
  mutex s = false ->
  exists w1 s1 r,
    Append w s d = (w1, s1, Return r) /\
    finish 5 w (Lock s) (mkGoroutine d AtPos) = (w1, s1, mkGoroutine d (Done r)).
Proof.
  intros Hm. unfold Append. rewrite Hm.
  cbn [finish statement now data Lock File buffer fileSize mutex].
  destruct (binary.Write w (File s) (buffer s) (uint64 (len d)))
    as [[[w1 f1] b1] [e|]]; cbn [statement now data File buffer fileSize mutex];
    [eauto|].
  destruct (bufio.Write w1 f1 b1 d) as [[[w2 f2] b2] [wn [e|]]];
    cbn [statement now data File buffer fileSize mutex Unlock]; eauto.
Qed.

Lemma finish_returned k w s g :
  returned g <> None -> finish k w s g = (w, s, g).
Proof.
  intros H. induction k as [|k IH]; [reflexivity|]. cbn [finish].
  unfold statement. unfold returned in H. destruct (now g); congruence.
Qed.

(** A goroutine inside the call reaches the return within four more
    statements, so one statement does not change where it ends. *)
Lemma finish_statement w s g :
  inside g = true ->
  let '(w1, s1, g1) := statement w s g in
  finish 5 w1 s1 g1 = finish 5 w s g /\ data g1 = data g /\
  mutex s1 = (match now g with AtUnlock _ => false | _ => mutex s end) /\
  (match now g with AtUnlock _ => returned g1 <> None | _ => inside g1 = true end).
Proof.
  unfold inside. intros Hin.
  assert (Hfix : forall w s g k, returned g <> None ->
            finish (S k) w s g = finish k w s g).
  { intros. now rewrite !finish_returned. }
  destruct g as [d [| |pos|pos|pos wn|r|r]]; try discriminate;
    cbn [finish statement now data File buffer fileSize mutex].
  - repeat split; auto.
    destruct (binary.Write w (File s) (buffer s) (uint64 (len d)))
      as [[[w1 f1] b1] [e|]]; cbn [finish statement now data File buffer fileSize mutex];
      [reflexivity|].
    destruct (bufio.Write w1 f1 b1 d) as [[[w2 f2] b2] [wn [e|]]]; reflexivity.
  - destruct (binary.Write w (File s) (buffer s) (uint64 (len d)))
      as [[[w1 f1] b1] [e|]]; cbn [finish statement now data File buffer fileSize mutex];
      [repeat split; auto|].
    repeat split; auto.
    destruct (bufio.Write w1 f1 b1 d) as [[[w2 f2] b2] [wn [e|]]]; reflexivity.
  - destruct (bufio.Write w (File s) (buffer s) d) as [[[w2 f2] b2] [wn [e|]]];
      cbn [finish statement now data File buffer fileSize mutex]; repeat split; auto.
  - repeat split; auto.
  - repeat split; auto. discriminate.
Qed.

Lemma appends_app : forall l1 l2 w s,
  appends w s (l1 ++ l2) =
  let '(w1, s1, rs1) := appends w s l1 in
  let '(w2, s2, rs2) := appends w1 s1 l2 in
  (w2, s2, rs1 ++ rs2).
Proof.
  induction l1 as [|d l1 IH]; intros l2 w s.
  - simpl. now destruct (appends w s l2) as [[w2 s2] rs2].
  - cbn [appends app]. destruct (Append w s d) as [[w' s'] r].
    rewrite IH. destruct (appends w' s' l1) as [[w1 s1] rs1].
    now destruct (appends w1 s1 l2) as [[w2 s2] rs2].
Qed.

Lemma appends_length : forall ds w s w1 s1 rs,
  appends w s ds = (w1, s1, rs) -> length rs = length ds.
Proof.
  induction ds as [|d ds IH]; intros w s w1 s1 rs H.
  - now injection H as _ _ <-.
  - cbn [appends] in H. destruct (Append w s d) as [[w' s'] r].
    destruct (appends w' s' ds) as [[w2 s2] rs2] eqn:HR.
    injection H as _ _ <-. simpl. f_equal. eauto.
Qed.

End GoroutineLemmas.

Section Linearization.
Import Go os bufio log Goroutines.

Variables (w0 : World) (s0 : store) (ds : list (list byte)).

Lemma linearized_spawn :
  mutex s0 = false -> linearized w0 s0 ds (spawn w0 s0 ds) [].
Proof.
  intros Hm.
  assert (Hat : forall i g, nth_error (threads (spawn w0 s0 ds)) i = Some g ->
                            now g = AtLock).
  { intros i g H. apply nth_error_In in H. simpl in H.
    apply in_map_iff in H as (d & <- & _). reflexivity. }
  constructor.
  - simpl. rewrite map_map. simpl. apply map_id.
  - constructor.
  - intros i. split; [intros []|]. intros (g & Hg & Hr).
    apply Hat in Hg. unfold returned in Hr. now rewrite Hg in Hr.
  - exists w0, s0, []. split; [reflexivity|]. split; [exact Hm|]. split.
    + intros [|k] i H; discriminate.
    + left. split; [reflexivity|]. split; [reflexivity|].
      apply Forall_forall. intros g Hg. apply In_nth_error in Hg as [i Hi].
      apply Hat in Hi. unfold inside. now rewrite Hi.
Qed.

(** A goroutine that has not returned moves without returning: the other
    goroutines, and those that returned, are as before. *)
Lemma update_waiting ths i (g g' : goroutine) :
  nth_error ths i = Some g -> returned g = None -> returned g' = None ->
  data g' = data g ->
  map data (set_nth i g' ths) = map data ths /\
  (forall k, (exists g0, nth_error (set_nth i g' ths) k = Some g0 /\ returned g0 <> None)
         <-> (exists g0, nth_error ths k = Some g0 /\ returned g0 <> None)) /\
  (forall k g0 r, nth_error ths k = Some g0 -> now g0 = Done r ->
                  nth_error (set_nth i g' ths) k = Some g0).
Proof.
  intros Hg Hr Hr' Hd. split; [now apply map_set_nth with g|]. split.
  - intros k. destruct (Nat.eq_dec i k) as [<-|Hne].
    + rewrite (nth_error_set_nth_eq _ _ _ _ Hg), Hg.
      split; intros (g0 & [= <-] & H); congruence.
    + now rewrite nth_error_set_nth_neq.
  - intros k g0 r Hk Hdone. destruct (Nat.eq_dec i k) as [<-|Hne].
    + rewrite Hg in Hk. injection Hk as <-. unfold returned in Hr.
      now rewrite Hdone in Hr.
    + now rewrite nth_error_set_nth_neq.
Qed.

Lemma inside_not_returned g : inside g = true -> returned g = None.
Proof. unfold inside, returned. now destruct (now g). Qed.

Lemma step_idle i sys g :
  nth_error (threads sys) i = Some g ->
  statement (world sys) (shared sys) g = (world sys, shared sys, g) ->
  step i sys = sys.
Proof.
  intros Hg Hs. unfold step. rewrite Hg, Hs, (set_nth_same _ _ _ Hg).
  now destruct sys.
Qed.

Lemma released_spec i sys g :
  nth_error (threads sys) i = Some g ->
  released i sys = match now g with AtUnlock _ => [i] | _ => [] end.
Proof. unfold released. intros ->. now destruct g. Qed.

Lemma payload_nth sys i g :
  map data (threads sys) = ds -> nth_error (threads sys) i = Some g ->
  nth i ds [] = data g.
Proof.
  intros <- Hg. apply nth_error_nth. now apply map_nth_error.
Qed.

(** The goroutine [i] takes the free mutex. *)
Lemma linearized_acquire sys order i g :
  linearized w0 s0 ds sys order ->
  nth_error (threads sys) i = Some g -> now g = AtLock ->
  mutex (shared sys) = false ->
  linearized w0 s0 ds
    (mkSystem (world sys) (Lock (shared sys))
       (set_nth i (mkGoroutine (data g) AtPos) (threads sys))) order.
Proof.
  intros [Hdata Hnd Hdone (wl & sl & rs & Happ & Hml & Hres & Hst)] Hg Hnow Hmx.
  destruct Hst as [(Hw & Hs & Hall)|(j & gj & _ & _ & Hmj & _)]; [|congruence].
  assert (Hr : returned g = None) by (unfold returned; now rewrite Hnow).
  destruct (update_waiting (threads sys) i g (mkGoroutine (data g) AtPos) Hg Hr
              eq_refl eq_refl) as (U1 & U2 & U3).
  constructor; cbn [threads world shared].
  - now rewrite U1.
  - exact Hnd.
  - intros k. now rewrite U2.
  - exists wl, sl, rs. split; [exact Happ|]. split; [exact Hml|]. split.
    + intros k i' Hk. destruct (Hres k i' Hk) as (g0 & r & H1 & H2 & H3).
      exists g0, r. eauto.
    + right. exists i, (mkGoroutine (data g) AtPos).
      split; [now apply nth_error_set_nth_eq with g|]. split; [reflexivity|].
      split; [reflexivity|]. split.
      * intros i' g' Hne Hi'. rewrite nth_error_set_nth_neq in Hi' by congruence.
        rewrite Forall_forall in Hall. apply Hall. now apply nth_error_In with i'.
      * rewrite Hw, Hs. cbn [data]. exact (finish_Append wl sl (data g) Hml).
Qed.

(** The goroutine that holds the mutex runs a statement of the body. *)
Lemma linearized_progress sys order i g w' s' g' :
  linearized w0 s0 ds sys order ->
  nth_error (threads sys) i = Some g -> inside g = true ->
  statement (world sys) (shared sys) g = (w', s', g') ->
  (forall r, now g <> AtUnlock r) ->
  linearized w0 s0 ds (mkSystem w' s' (set_nth i g' (threads sys))) order.
Proof.
  intros [Hdata Hnd Hdone (wl & sl & rs & Happ & Hml & Hres & Hst)] Hg Hin Hstm Hnot.
  destruct Hst as [(_ & _ & Hall)|(j & gj & Hj & Hinj & Hmx & Hothers & w1 & s1 & r & HA & Hfin)].
  { rewrite Forall_forall in Hall. apply nth_error_In in Hg. apply Hall in Hg. congruence. }
  assert (i = j) as <-.
  { destruct (Nat.eq_dec i j) as [|Hne]; [assumption|].
    specialize (Hothers i g Hne Hg). congruence. }
  rewrite Hg in Hj. injection Hj as <-.
  pose proof (finish_statement (world sys) (shared sys) g Hin) as X.
  rewrite Hstm in X. destruct X as (Hf & Hd & Hm' & Hnext).
  assert (Hin' : inside g' = true /\ mutex s' = mutex (shared sys)).
  { destruct (now g); try (split; assumption). now destruct (Hnot r0). }
  destruct Hin' as [Hin' Hms].
  destruct (update_waiting (threads sys) i g g' Hg (inside_not_returned _ Hin)
              (inside_not_returned _ Hin') Hd) as (U1 & U2 & U3).
  constructor; cbn [threads world shared].
  - now rewrite U1.
  - exact Hnd.
  - intros k. now rewrite U2.
  - exists wl, sl, rs. split; [exact Happ|]. split; [exact Hml|]. split.
    + intros k i' Hk. destruct (Hres k i' Hk) as (g0 & r0 & H1 & H2 & H3).
      exists g0, r0. eauto.
    + right. exists i, g'.
      split; [now apply nth_error_set_nth_eq with g|]. split; [exact Hin'|].
      split; [congruence|]. split.
      * intros i' g0 Hne Hi'. rewrite nth_error_set_nth_neq in Hi' by congruence.
        eauto.
      * exists w1, s1, r. rewrite Hd, Hf. auto.
Qed.

(** The goroutine that holds the mutex releases it: its call takes its
    place after the calls of [order]. *)
Lemma linearized_release sys order i g r0 :
  linearized w0 s0 ds sys order ->
  nth_error (threads sys) i = Some g -> now g = AtUnlock r0 ->
  linearized w0 s0 ds
    (mkSystem (world sys) (Unlock (shared sys))
       (set_nth i (mkGoroutine (data g) (Done r0)) (threads sys)))
    (order ++ [i]).
Proof.
  intros [Hdata Hnd Hdone (wl & sl & rs & Happ & Hml & Hres & Hst)] Hg Hnow.
  assert (Hin : inside g = true) by (unfold inside; now rewrite Hnow).
  destruct Hst as [(_ & _ & Hall)|(j & gj & Hj & Hinj & Hmx & Hothers & w1 & s1 & r & HA & Hfin)].
  { rewrite Forall_forall in Hall. apply nth_error_In in Hg. apply Hall in Hg. congruence. }
  assert (i = j) as <-.
  { destruct (Nat.eq_dec i j) as [|Hne]; [assumption|].
    specialize (Hothers i g Hne Hg). congruence. }
  rewrite Hg in Hj. injection Hj as <-.
  assert (Hfin' : (world sys, Unlock (shared sys), mkGoroutine (data g) (Done r0))
                  = (w1, s1, mkGoroutine (data g) (Done r))).
  { rewrite <- Hfin. destruct g as [d pcg]. simpl in Hnow. subst pcg.
    cbn [finish statement now data]. reflexivity. }
  injection Hfin' as Hw1 Hs1 Hr. subst r0.
  assert (Hnotin : ~ In i order).
  { intros Hi. apply Hdone in Hi as (g0 & Hg0 & Hret). rewrite Hg in Hg0.
    injection Hg0 as <-. now rewrite (inside_not_returned _ Hin) in Hret. }
  set (g' := mkGoroutine (data g) (Done r)).
  assert (Hlen : length rs = length order).
  { apply appends_length in Happ. now rewrite length_map in Happ. }
  constructor; cbn [threads world shared].
  - rewrite (map_set_nth data i g' g _ Hg eq_refl). exact Hdata.
  - apply NoDup_app; [exact Hnd|repeat constructor; intros []|].
    intros a Ha [<-|[]]. contradiction.
  - intros k. rewrite in_app_iff. destruct (Nat.eq_dec i k) as [<-|Hne].
    + rewrite (nth_error_set_nth_eq _ _ _ _ Hg). split; [|simpl; auto].
      intros _. exists g'. split; [reflexivity|discriminate].
    + rewrite nth_error_set_nth_neq by exact Hne. rewrite <- Hdone.
      split; [intros [H|[H|[]]]; [exact H|contradiction]|auto].
  - exists w1, s1, (rs ++ [Return r]). split; [|split; [|split]].
    + rewrite map_app, appends_app, Happ. cbn [map appends].
      rewrite (payload_nth sys i g Hdata Hg), HA. reflexivity.
    + now rewrite <- Hs1.
    + intros k i' Hk. destruct (Nat.lt_ge_cases k (length order)) as [Hlt|Hge].
      * rewrite nth_error_app1 in Hk by exact Hlt.
        destruct (Hres k i' Hk) as (g0 & r1 & H1 & H2 & H3).
        exists g0, r1. split; [|split; [exact H2|]].
        -- rewrite nth_error_set_nth_neq; [exact H1|].
           intros <-. rewrite Hg in H1. injection H1 as <-. congruence.
        -- rewrite nth_error_app1 by lia. exact H3.
      * rewrite nth_error_app2 in Hk by exact Hge.
        destruct (k - length order)%nat as [|m] eqn:Hk0; [|destruct m; discriminate].
        injection Hk as <-. exists g', r.
        split; [now apply nth_error_set_nth_eq with g|]. split; [reflexivity|].
        rewrite nth_error_app2 by lia. replace (k - length rs)%nat with 0%nat by lia.
        reflexivity.
    + left. split; [exact Hw1|]. split; [exact Hs1|].
      apply Forall_forall. intros g0 Hg0. apply In_nth_error in Hg0 as [k Hk].
      destruct (Nat.eq_dec i k) as [<-|Hne].
      * rewrite (nth_error_set_nth_eq _ _ _ _ Hg) in Hk. now injection Hk as <-.
      * rewrite nth_error_set_nth_neq in Hk by exact Hne. eauto.
Qed.

(** Every step keeps the system linearized. *)
Lemma linearized_step sys order i :
  linearized w0 s0 ds sys order ->
  linearized w0 s0 ds (step i sys) (order ++ released i sys).
Proof.
  intros Hlin.
  destruct (nth_error (threads sys) i) as [g|] eqn:Hg.
  2:{ unfold step, released. rewrite Hg, app_nil_r. exact Hlin. }
  rewrite (released_spec _ _ _ Hg).
  assert (Hidle : statement (world sys) (shared sys) g = (world sys, shared sys, g) ->
                  (forall r, now g <> AtUnlock r) ->
                  linearized w0 s0 ds (step i sys)
                    (order ++ match now g with AtUnlock _ => [i] | _ => [] end)).
  { intros Hs Hn. rewrite (step_idle _ _ _ Hg Hs).
    destruct (now g); rewrite ?app_nil_r; try exact Hlin. now destruct (Hn r). }
  destruct (now g) as [| |pos|pos|pos wn|r|r] eqn:Hnow.
  - (* Lock *)
    destruct (mutex (shared sys)) eqn:Hmx.
    + apply Hidle; [|discriminate]. unfold statement. now rewrite Hnow, Hmx.
    + rewrite app_nil_r. unfold step. rewrite Hg. unfold statement.
      rewrite Hnow, Hmx. now apply linearized_acquire.
  - rewrite app_nil_r. unfold step. rewrite Hg.
    destruct (statement (world sys) (shared sys) g) as [[w' s'] g'] eqn:Hs.
    apply linearized_progress with g; auto; [unfold inside; now rewrite Hnow|congruence].
  - rewrite app_nil_r. unfold step. rewrite Hg.
    destruct (statement (world sys) (shared sys) g) as [[w' s'] g'] eqn:Hs.
    apply linearized_progress with g; auto; [unfold inside; now rewrite Hnow|congruence].
  - rewrite app_nil_r. unfold step. rewrite Hg.
    destruct (statement (world sys) (shared sys) g) as [[w' s'] g'] eqn:Hs.
    apply linearized_progress with g; auto; [unfold inside; now rewrite Hnow|congruence].
  - rewrite app_nil_r. unfold step. rewrite Hg.
    destruct (statement (world sys) (shared sys) g) as [[w' s'] g'] eqn:Hs.
    apply linearized_progress with g; auto; [unfold inside; now rewrite Hnow|congruence].
  - unfold step. rewrite Hg. unfold statement. rewrite Hnow.
    now apply linearized_release.
  - apply Hidle; [|discriminate]. unfold statement. now rewrite Hnow.
Qed.

Lemma releases_cons i rest sys :
  releases (i :: rest) sys = released i sys ++ releases rest (step i sys).
Proof.
  cbn [releases]. unfold released.
  destruct (nth_error (threads sys) i) as [[d [| | | | | |]]|]; reflexivity.
Qed.

Lemma linearized_run sched : forall sys order,
  linearized w0 s0 ds sys order ->
  linearized w0 s0 ds (run sched sys) (order ++ releases sched sys).
Proof.
  induction sched as [|i rest IH]; intros sys order Hlin.
  - simpl. now rewrite app_nil_r.
  - rewrite releases_cons, app_assoc. cbn [run]. apply IH. now apply linearized_step.
Qed.

End Linearization.

Section ConcurrentAppends.
Import Go os bufio log Goroutines.

(** Once the writer has failed, [Append] fails and changes nothing. *)
Lemma Append_stuck w s d e :
  mutex s = false -> err (buffer s) = Some e ->
  Append w s d = (w, s, Return (0, 0, Some e)).
Proof.
  intros Hm He. unfold Append, binary.Write, bufio.Write. rewrite Hm.
  cbn [Lock File buffer fileSize mutex].
  rewrite Write_loop_exit by (now apply Write_more_err with e).
  rewrite He. destruct s as [f m b sz]. simpl in *. now subst m.
Qed.





Lemma nth_error_Some_lt {A} (l : list A) i x :
  nth_error l i = Some x -> (i < length l)%nat.
Proof. intros H. apply nth_error_Some. congruence. Qed.

End ConcurrentAppends.

Section Linearized.
Import Go os bufio log Goroutines.



End Linearized.

(** ** The states the methods lead to *)

Section Reachable.
Import Go os bufio log.

Lemma store_ok_inv w s : store_ok w s -> store_inv w s.
Proof. intros []. constructor; auto. Qed.

Lemma store_inv_ok w s :
  store_inv w s -> err (buffer s) = None -> closed (File s) = false ->
  store_ok w s.
Proof. intros [] He Ho. constructor; auto. Qed.

Lemma Flush_err w f b w1 f1 b1 e :
  Flush w f b = (w1, f1, b1, e) -> err b1 = None -> err b = None.
Proof.
  unfold Flush. destruct (err b) eqn:He; [|reflexivity].
  intros [= _ _ <- _]. congruence.
Qed.

Lemma Flush_inv w s w1 f1 b1 e :
  store_inv w s -> Flush w (File s) (buffer s) = (w1, f1, b1, e) ->
  store_inv w1 (mkStore f1 false b1 (fileSize s)) /\ closed f1 = closed (File s).
Proof.
  intros [Hm Hend Hbuf Hdisk Hsz] H.
  destruct (Flush_spec _ _ _ _ _ _ _ H Hend) as (Hl & Hend1 & Hcl & _ & _ & _ & Hle & Hdk).
  split; [|exact Hcl]. constructor; simpl; auto; [lia|].
  intros He. rewrite (Hsz (Flush_err _ _ _ _ _ _ _ H He)).
  apply (f_equal len) in Hl. rewrite !len_app in Hl. lia.
Qed.

Lemma store_inv_disk w w1 s : disk w1 = disk w -> store_inv w s -> store_inv w1 s.
Proof.
  intros Hd [Hm Hend Hbuf Hdisk Hsz]. constructor; auto.
  - now apply at_end_disk with w.
  - now rewrite Hd.
  - now rewrite Hd.
Qed.

Lemma Append_inv w s d w1 s1 r :
  store_inv w s -> valid d -> Append w s d = (w1, s1, r) ->
  store_inv w1 s1 /\ closed (File s1) = closed (File s).
Proof.
  intros Hinv Hd H. pose proof Hinv as [Hm Hend Hbuf Hdisk Hsz].
  destruct (err (buffer s)) as [e0|] eqn:He0.
  { rewrite (Append_stuck w s d e0 Hm He0) in H. injection H as <- <- _. auto. }
  destruct (Append_spec _ _ _ _ _ _ H Hm Hend)
    as (Hm1 & c & n & p & e & -> & Hg & He & Hcase).
  destruct Hg as (Hl & Hend1 & Hcl & _ & Hb1 & Hdk).
  split; [|exact Hcl]. constructor; auto.
  intros He1. rewrite He1 in He. subst e.
  destruct Hcase as (-> & _ & _ & -> & ->).
  specialize (Hsz eq_refl).
  pose proof (len_nonneg d) as Hd0. pose proof (len_nonneg (disk w)) as Hk0.
  pose proof (len_nonneg (buf (buffer s))) as Hb0. unfold valid in Hd.
  assert (Hmax : maxAlloc = 2 ^ 48) by reflexivity.
  assert (Hfs : maxFileSize = 2 ^ 63 - 1) by reflexivity.
  assert (Hbs : defaultBufSize = 4096) by reflexivity.
  unfold dataLengthWeightInBytes.
  rewrite int64_small, !uint64_small; rewrite ?uint64_small; try lia.
  apply (f_equal len) in Hl. rewrite !len_app, record_length in Hl. lia.
Qed.

Lemma call_inv st st1 :
  call st st1 -> store_inv (fst st) (snd st) ->
  store_inv (fst st1) (snd st1) /\
  (closed (File (snd st)) = true -> closed (File (snd st1)) = true).
Proof.
  intros [w s d w1 s1 r Hd H|w s p w1 s1 r H|w s data off w1 s1 r H|w s w1 s1 r H] Hinv;
    simpl in *.
  - destruct (Append_inv _ _ _ _ _ _ Hinv Hd H) as [? ->]. auto.
  - rewrite Read_unfold in H by apply Hinv.
    destruct (Flush w (File s) (buffer s)) as [[[w' f'] b'] e] eqn:Hf.
    destruct (Flush_inv _ _ _ _ _ _ Hinv Hf) as [Hi Hc].
    destruct e as [e|]; [injection H as <- <- _; simpl; split; [auto|congruence]|].
    destruct (Read_tail w' f' p) as [w2 r'] eqn:Ht. injection H as <- <- _.
    apply Read_tail_disk in Ht. split; [now apply store_inv_disk with w'|simpl; congruence].
  - rewrite ReadAt_unfold in H by apply Hinv.
    destruct (Flush w (File s) (buffer s)) as [[[w' f'] b'] e] eqn:Hf.
    destruct (Flush_inv _ _ _ _ _ _ Hinv Hf) as [Hi Hc].
    destruct e as [e|]; [injection H as <- <- _; simpl; split; [auto|congruence]|].
    destruct (os.ReadAt w' f' data off) as [w2 r'] eqn:Ht. injection H as <- <- _.
    apply os_ReadAt_disk in Ht. split; [now apply store_inv_disk with w'|simpl; congruence].
  - unfold Close in H. rewrite (inv_mutex _ _ Hinv) in H.
    cbn [Lock Unlock File buffer fileSize mutex] in H.
    destruct (Flush w (File s) (buffer s)) as [[[w' f'] b'] e] eqn:Hf.
    destruct (Flush_inv _ _ _ _ _ _ Hinv Hf) as [Hi Hc].
    destruct e as [e|]; [injection H as <- <- _; simpl; split; [auto|congruence]|].
    destruct (os.Close w' f') as [[w2 f2] e] eqn:Hcl. injection H as <- <- _.
    pose proof (os_Close_disk _ _ _ _ _ Hcl) as Hd.
    destruct Hi as [Hm Hend Hbuf Hdisk Hsz]. simpl in *.
    unfold os.Close in Hcl. destruct (closed f') eqn:Hcf.
    + injection Hcl as <- <- _. split; [constructor; auto|auto].
    + destruct (syscall w') as [flt w0]. injection Hcl as _ <- _.
      split; [|reflexivity]. constructor; simpl; auto.
      * unfold at_end in *. simpl. now rewrite Hd.
      * now rewrite Hd.
      * now rewrite Hd.
Qed.

(** The states the methods lead to from a consistent store are consistent,
    unless the writer has failed or the file was closed. *)
Lemma calls_store_ok st st1 :
  calls st st1 -> store_ok (fst st) (snd st) ->
  err (buffer (snd st1)) = None -> closed (File (snd st1)) = false ->
  store_ok (fst st1) (snd st1).
Proof.
  intros Hc Hok He Ho. apply store_inv_ok; auto.
  apply store_ok_inv in Hok. revert Hok.
  induction Hc as [st|st st1 st2 H1 _ IH]; intros Hinv; [exact Hinv|].
  apply IH; auto. exact (proj1 (call_inv _ _ H1 Hinv)).
Qed.

End Reachable.

(** * The claims of the specification *)

(** [store_ok] of a concrete state, by computation. *)
Ltac compute_store_ok :=
  constructor;
  [reflexivity | reflexivity | right; reflexivity | reflexivity | reflexivity
  | vm_compute; discriminate | vm_compute; discriminate].

Section Claims.
Import Go os bufio log Goroutines.

(** C1. Round trip: after a successful [Append(d)] that returned position
    [p], [Read(p)] on the same store returns exactly [d], with no flush
    in between: it returns [d] whenever the system reports no failure
    during the read, and in every case it returns either [d] or the error
    of the system, never other bytes. The same holds for a [Read(p)] after
    any further calls, as long as the writer has not failed and the file
    was not closed. *)
Theorem C1_round_trip w s d w1 s1 n p :
  store_ok w s -> valid d ->
  Append w s d = (w1, s1, Return (n, p, None)) ->
  (calm w1 -> p + n <= maxFileSize ->
   exists w2 s2, Read w1 s1 p = (w2, s2, Return (d, None))) /\
  (forall w2 s2 r, Read w1 s1 p = (w2, s2, r) ->
   r = Return (d, None) \/ exists e, r = Return ([], Some e)) /\
  (forall w2 s2, calls (w1, s1) (w2, s2) ->
   err (buffer s2) = None -> closed (File s2) = false ->
   reads_back w2 s2 p d).
Proof.
  intros Hok Hd H.
  pose proof (Append_record_at _ _ _ _ _ _ _ Hok Hd H) as Hrec.
  destruct (Append_ok _ _ _ _ _ _ _ Hok Hd H) as (_ & _ & Hsz & _ & Hok1).
  split; [|split].
  - intros Hc Hfit.
    destruct (Read_calm w1 s1 p d Hok1 Hrec Hd Hc) as (w2 & s2 & HR & _); [lia|eauto].
  - intros w2 s2 r HR.
    destruct (Read_found _ _ _ _ _ _ _ Hok1 Hrec Hd HR) as [[-> _]|He]; auto.
  - intros w2 s2 Hcalls He Ho.
    pose proof (calls_store_ok _ _ Hcalls Hok1 He Ho) as Hok2.
    destruct (calls_frame _ _ Hcalls (ok_end _ _ Hok1)) as [c Hc]. simpl in *.
    apply reads_back_intro; [exact Hok2| |exact Hd].
    rewrite Hc. now apply record_at_app.
Qed.

Lemma C1_round_trip_witness :
  exists w2 s2,
    Read (fst (fst (Append fresh_world fresh_store testData)))
         (snd (fst (Append fresh_world fresh_store testData))) 0
    = (w2, s2, Return (testData, None)).
Proof.
  refine (proj1 (C1_round_trip fresh_world fresh_store testData _ _ 23 0 _ _ _) _ _).
  - compute_store_ok.
  - vm_compute; discriminate.
  - vm_compute; reflexivity.
  - vm_compute. constructor.
  - vm_compute; discriminate.
Defined.

(** C2 (as amended). A successful [Append(data)] returns 8 + len(data)
    bytes written and the size cursor of before the call as the position,
    and advances the cursor by the bytes written; so over successive calls
    each position is the previous one plus the previous count, positions
    grow strictly and no two records overlap. For records appended in
    order with payloads of one length [L], the i-th position (counted from
    1) is [c + (i-1) * (8 + L)], where [c] is the size cursor before the
    first of them; [newStore] sets the cursor to the length of the file,
    0 over an empty file. The payload ["hello world log"] is 15 bytes
    long: appended three times to a new store over an empty file it gets
    the positions 0, 23, 46 and leaves the cursor at 69. *)
Theorem C2_append_positions w s :
  store_ok w s ->
  (forall d w1 s1 n p, valid d ->
     Append w s d = (w1, s1, Return (n, p, None)) ->
     n = 8 + len d /\ p = fileSize s /\ fileSize s1 = fileSize s + n) /\
  (forall ds w1 s1 ps, Forall valid ds ->
     appends w s ds = (w1, s1, map appended ps) ->
     (forall i n p n' p',
        nth_error ps i = Some (n, p) -> nth_error ps (S i) = Some (n', p') ->
        p' = p + n /\ p < p') /\
     (forall i j n p n' p', (i < j)%nat ->
        nth_error ps i = Some (n, p) -> nth_error ps j = Some (n', p') ->
        p + n <= p') /\
     (forall L, Forall (fun d => len d = L) ds ->
        forall i n p, (1 <= i)%nat -> nth_error ps (i - 1) = Some (n, p) ->
        p = fileSize s + (Z.of_nat i - 1) * (8 + L))) /\
  (forall w' f w0 s0, len (disk w') <= maxFileSize ->
     newStore w' f = (w0, inl s0) -> fileSize s0 = len (disk w')) /\
  len testData = 15 /\ testDataLength = 23 /\
  exists w0 s0 w3 s3,
    len (disk (fst (CreateTemp []))) = 0 /\
    newStore (fst (CreateTemp [])) (snd (CreateTemp [])) = (w0, inl s0) /\
    fileSize s0 = 0 /\
    appends w0 s0 [testData; testData; testData]
    = (w3, s3, map appended [(23, 0); (23, 23); (23, 46)]) /\
    fileSize s3 = 69.
Proof.
  intros Hok.
  split; [|split; [|split; [|split; [reflexivity|split; [reflexivity|]]]]].
  - intros d w1 s1 n p Hd H.
    destruct (Append_ok _ _ _ _ _ _ _ Hok Hd H) as (-> & -> & -> & _). lia.
  - intros ds w1 s1 ps Hv H.
    destruct (appends_ok _ _ _ _ _ _ Hok Hv H) as (_ & _ & -> & _).
    split; [|split].
    + intros i n p n' p'. apply layout_next.
    + intros i j n p n' p'. apply layout_disjoint.
    + intros L HL i n p Hi Hnth.
      destruct (layout_uniform L _ _ _ _ _ HL Hnth) as [_ ->].
      replace (Z.of_nat (i - 1)) with (Z.of_nat i - 1) by lia. reflexivity.
  - intros w' f w0 s0 Hmax. unfold newStore, os.Stat.
    pose proof (syscall_disk w') as Hs. destruct (syscall w') as [flt w1].
    simpl in Hs. destruct flt as [[k e]|]; [discriminate|]. intros [= _ <-].
    cbn [fileSize]. rewrite Hs. apply uint64_small.
    pose proof (len_nonneg (disk w')).
    assert (maxFileSize = 2 ^ 63 - 1) by reflexivity. lia.
  - exists fresh_world, fresh_store. eexists _, _.
    repeat split; vm_compute; reflexivity.
Qed.

(** The claim as the specification states it does not hold, at two
    places. Its example miscounts: the payload is 15 bytes long, not 16;
    the three appends on the new store over an empty file return the
    positions 0, 23, 46 and leave the cursor at 69, and whatever the
    system does, no run of the three appends on such a store returns the
    positions 0, 24, 48, and none that succeeds leaves the cursor at 72.
    And the positions [(i-1) * (8 + L)] are those of a store whose cursor
    starts at 0 only: the store [newStore] builds over the file that
    holds two records already, opened as [openFile] does, has its cursor
    at 46, and the three appends on it return the positions 46, 69, 92
    and leave the cursor at 115. *)
Lemma C2_example_counterexample :
  len testData <> 16 /\
  (let '(_, s3, rs) :=
     appends fresh_world fresh_store [testData; testData; testData] in
   rs = map appended [(23, 0); (23, 23); (23, 46)] /\ fileSize s3 = 69) /\
  ~ (exists faults w0 s0 w3 s3 n1 n2 n3,
       newStore (fst (CreateTemp faults)) (snd (CreateTemp faults)) = (w0, inl s0) /\
       appends w0 s0 [testData; testData; testData]
       = (w3, s3, map appended [(n1, 0); (n2, 24); (n3, 48)])) /\
  ~ (exists faults w0 s0 w3 s3 ps,
       newStore (fst (CreateTemp faults)) (snd (CreateTemp faults)) = (w0, inl s0) /\
       appends w0 s0 [testData; testData; testData] = (w3, s3, map appended ps) /\
       fileSize s3 = 72) /\
  (exists f w0 s0 w3 s3,
     openFile two_records = (two_records, inl (f, 46)) /\
     newStore two_records f = (w0, inl s0) /\
     store_ok w0 s0 /\ fileSize s0 = 46 /\
     appends w0 s0 [testData; testData; testData]
     = (w3, s3, map appended [(23, 46); (23, 69); (23, 92)]) /\
     fileSize s3 = 115) /\
  ~ (forall w s ds w1 s1 ps L i n p,
       store_ok w s -> Forall valid ds ->
       appends w s ds = (w1, s1, map appended ps) ->
       Forall (fun d => len d = L) ds ->
       (1 <= i)%nat -> nth_error ps (i - 1) = Some (n, p) ->
       p = (Z.of_nat i - 1) * (8 + L)).
Proof.
  assert (Hnew : forall faults w0 s0,
            newStore (fst (CreateTemp faults)) (snd (CreateTemp faults)) = (w0, inl s0) ->
            store_ok w0 s0 /\ fileSize s0 = 0).
  { intros faults w0 s0 HN.
    destruct (newStore_ok _ _ _ _ HN) as (_ & Hsz & _ & Hok);
      [reflexivity|right; reflexivity|vm_compute; discriminate|].
    split; [exact Hok|exact Hsz]. }
  assert (Hv : Forall valid [testData; testData; testData])
    by (repeat constructor; vm_compute; discriminate).
  assert (Hok46 : store_ok two_records
                    (mkStore (mkFile 0 true false) false NewWriter 46)).
  { destruct (newStore_ok two_records (mkFile 0 true false) two_records
                (mkStore (mkFile 0 true false) false NewWriter 46) eq_refl)
      as (_ & _ & _ & Hok);
      [reflexivity|left; reflexivity|vm_compute; discriminate|exact Hok]. }
  split; [vm_compute; discriminate|]. split; [vm_compute; split; reflexivity|].
  split; [|split; [|split]].
  - intros (faults & w0 & s0 & w3 & s3 & n1 & n2 & n3 & HN & HA).
    destruct (Hnew _ _ _ HN) as [Hok _].
    destruct (appends_ok _ _ _ _ _ _ Hok Hv HA) as (_ & _ & Hps & _).
    cbn [layout] in Hps. injection Hps as _ _ _ H24 _.
    change (len testData) with 15 in H24. lia.
  - intros (faults & w0 & s0 & w3 & s3 & ps & HN & HA & H72).
    destruct (Hnew _ _ _ HN) as [Hok H0].
    destruct (appends_ok _ _ _ _ _ _ Hok Hv HA) as (_ & _ & _ & Hsz).
    rewrite H0, H72 in Hsz. vm_compute in Hsz. discriminate.
  - exists (mkFile 0 true false), two_records,
      (mkStore (mkFile 0 true false) false NewWriter 46).
    eexists _, _. split; [reflexivity|]. split; [reflexivity|].
    split; [exact Hok46|]. split; [reflexivity|].
    split; vm_compute; reflexivity.
  - intros H.
    assert (H46 : 46 = (Z.of_nat 1 - 1) * (8 + 15)).
    { refine (H two_records (mkStore (mkFile 0 true false) false NewWriter 46)
                [testData; testData; testData] _ _
                [(23, 46); (23, 69); (23, 92)] 15 1%nat 23 46
                Hok46 Hv _ _ (Nat.le_refl 1) eq_refl).
      - vm_compute. reflexivity.
      - repeat constructor. }
    vm_compute in H46. discriminate.
Qed.

Lemma C2_append_positions_witness :
  (forall w' f w0 s0, len (disk w') <= maxFileSize ->
     newStore w' f = (w0, inl s0) -> fileSize s0 = len (disk w')) /\
  len testData = 15 /\ testDataLength = 23 /\
  exists w0 s0 w3 s3,
    len (disk (fst (CreateTemp []))) = 0 /\
    newStore (fst (CreateTemp [])) (snd (CreateTemp [])) = (w0, inl s0) /\
    fileSize s0 = 0 /\
    appends w0 s0 [testData; testData; testData]
    = (w3, s3, map appended [(23, 0); (23, 23); (23, 46)]) /\
    fileSize s3 = 69.
Proof.
  refine (proj2 (proj2 (C2_append_positions fresh_world fresh_store _))).
  compute_store_ok.
Defined.

(** C3. A failed [Append] leaves the size cursor as it was, on the header
    path and on the payload path alike. *)
Theorem C3_Append_error_keeps_cursor w s data w1 s1 n pos e :
  Append w s data = (w1, s1, Return (n, pos, Some e)) ->
  fileSize s1 = fileSize s.
Proof.
  unfold Append. destruct (mutex s); [discriminate|].
  destruct (binary.Write _ _ _ _) as [[[w' f'] b'] [e1|]].
  - now intros [= _ <- _ _ _].
  - destruct (bufio.Write w' f' b' data) as [[[w2 f2] b2] [wn [e2|]]].
    + now intros [= _ <- _ _ _].
    + discriminate.
Qed.

Lemma C3_Append_error_keeps_cursor_witness :
  fileSize (snd (fst (Append full_world full_store big_payload))) = 23.
Proof.
  refine (C3_Append_error_keeps_cursor full_world full_store big_payload
            (fst (fst (Append full_world full_store big_payload))) _ 0 0 ENOSPC _).
  vm_compute; reflexivity.
Defined.

(** C4. Every successful [Append] adds to the bytes of the store exactly
    the eight bytes of the big-endian length of the payload and then the
    payload; and after any successful appends to a new store over an empty
    file, the bytes of the store, which a successful flush or [Close]
    leaves in the file, are these encodings one after the other from byte
    0 and nothing else. The eight bytes are the base-256 digits of the
    length, the most significant first. *)
Theorem C4_wire_encoding :
  (forall w s d w1 s1 n p, store_ok w s -> valid d ->
     Append w s d = (w1, s1, Return (n, p, None)) ->
     logical w1 s1 = logical w s ++ BigEndian.PutUint64 (len d) ++ d /\
     map Z_of_byte (BigEndian.PutUint64 (len d)) = big_endian 8 (len d)) /\
  (forall w f w0 s0 ds w1 s1 ps,
     disk w = [] -> closed f = false -> at_end w f ->
     newStore w f = (w0, inl s0) -> Forall valid ds ->
     appends w0 s0 ds = (w1, s1, map appended ps) ->
     let encoding := concat (map (fun d => BigEndian.PutUint64 (len d) ++ d) ds) in
     logical w1 s1 = encoding /\
     (forall w2 f2 b2, Flush w1 (File s1) (buffer s1) = (w2, f2, b2, None) ->
        disk w2 = encoding) /\
     (forall w2 s2, Close w1 s1 = (w2, s2, Return None) -> disk w2 = encoding)).
Proof.
  split.
  - intros w s d w1 s1 n p Hok Hd H.
    destruct (Append_ok _ _ _ _ _ _ _ Hok Hd H) as (_ & _ & _ & -> & _).
    split; [now rewrite record_valid|apply PutUint64_big_endian].
  - intros w f w0 s0 ds w1 s1 ps Hempty Ho Hend HN Hv HA encoding.
    destruct (newStore_ok _ _ _ _ HN Ho Hend) as (_ & _ & Hl0 & Hok0).
    { rewrite Hempty. vm_compute; discriminate. }
    destruct (appends_ok _ _ _ _ _ _ Hok0 Hv HA) as (Hok1 & Hl1 & _).
    rewrite Hl0, Hempty in Hl1. simpl in Hl1.
    assert (He : concat (map record ds) = encoding).
    { unfold encoding. f_equal. apply map_ext_in. intros d Hd.
      apply record_valid. rewrite Forall_forall in Hv. auto. }
    rewrite He in Hl1. split; [exact Hl1|]. split.
    + intros w2 f2 b2 Hf. destruct (Flush_ok _ _ _ _ _ Hok1 Hf) as (-> & _). exact Hl1.
    + intros w2 s2 Hc. destruct (Close_ok _ _ _ _ Hok1 Hc) as (-> & _). exact Hl1.
Qed.

Lemma C4_wire_encoding_witness :
  disk (fst (fst three_closed))
  = record testData ++ record testData ++ record testData.
Proof.
  refine (proj2 (proj2 (proj2 C4_wire_encoding fresh_world (snd (CreateTemp []))
            fresh_world fresh_store [testData; testData; testData]
            (fst (fst three_appends)) (snd (fst three_appends))
            [(23, 0); (23, 23); (23, 46)] _ _ _ _ _ _))
            (fst (fst three_closed)) (snd (fst three_closed)) _).
  - reflexivity.
  - reflexivity.
  - right; reflexivity.
  - reflexivity.
  - repeat constructor; vm_compute; discriminate.
  - vm_compute; reflexivity.
  - vm_compute; reflexivity.
Defined.

(** C5. A [Close] that returns no error leaves a file at least as long as
    the size cursor was; a store then built over the same file starts with
    that cursor, and every record appended before reads back at the
    position its [Append] returned. *)
Theorem C5_close_reopen w0 s0 ds w s ps w1 s1 :
  store_ok w0 s0 -> Forall valid ds ->
  appends w0 s0 ds = (w, s, map appended ps) ->
  Close w s = (w1, s1, Return None) ->
  fileSize s <= len (disk w1) /\
  forall f w2 s2,
    closed f = false -> at_end w1 f -> newStore w1 f = (w2, inl s2) ->
    fileSize s2 = fileSize s /\
    forall i d n p,
      nth_error ds i = Some d -> nth_error ps i = Some (n, p) ->
      reads_back w2 s2 p d.
Proof.
  intros Hok0 Hv HA HC.
  destruct (appends_ok _ _ _ _ _ _ Hok0 Hv HA) as (Hok & Hl & -> & _).
  destruct (Close_ok _ _ _ _ Hok HC) as (Hd1 & Hlen & Hmax & _).
  split; [lia|]. intros f w2 s2 Ho Hend HN.
  destruct (newStore_ok _ _ _ _ HN Ho Hend Hmax) as (_ & Hsz & Hl2 & Hok2).
  split; [lia|]. intros i d n p Hd Hp.
  apply reads_back_intro; [exact Hok2| |rewrite Forall_forall in Hv; eauto using nth_error_In].
  rewrite Hl2, Hd1, Hl.
  replace (fileSize s0) with (len (logical w0 s0)) in Hp
    by (unfold logical; rewrite len_app; symmetry; apply Hok0).
  exact (proj2 (layout_record_at _ _ _ _ _ Hd Hp)).
Qed.

Lemma C5_close_reopen_witness :
  fileSize (snd (fst three_appends)) <= len (disk (fst (fst three_closed))) /\
  exists w2 f w3 s3,
    openFile (fst (fst three_closed)) = (w2, inl (f, 69)) /\
    newStore w2 f = (w3, inl s3) /\
    fileSize s3 = 69 /\
    exists w4 s4, Read w3 s3 23 = (w4, s4, Return (testData, None)).
Proof.
  destruct (C5_close_reopen fresh_world fresh_store [testData; testData; testData]
              (fst (fst three_appends)) (snd (fst three_appends))
              [(23, 0); (23, 23); (23, 46)]
              (fst (fst three_closed)) (snd (fst three_closed))) as [Hlen Hre].
  - compute_store_ok.
  - repeat constructor; vm_compute; discriminate.
  - vm_compute; reflexivity.
  - vm_compute; reflexivity.
  - split; [exact Hlen|].
    eexists _, _, _, _. split; [vm_compute; reflexivity|].
    split; [vm_compute; reflexivity|].
    match goal with |- fileSize ?s2 = _ /\ (exists w4 s4, Read ?w2 _ _ = _) =>
      destruct (Hre (mkFile 0 true false) w2 s2) as [Hsz Hrb] end.
    + reflexivity.
    + left; reflexivity.
    + vm_compute; reflexivity.
    + split; [exact Hsz|].
      apply (proj1 (Hrb 1%nat testData 23 23 eq_refl eq_refl)).
      * vm_compute. constructor.
      * vm_compute; discriminate.
Defined.

(** C6. [Read(p)] is the two calls of [ReadAt]: eight bytes at [p] decoded
    as the length, then that many bytes at [p + 8]. The results, the store
    and the file are the same in every state and at every position. *)
Theorem C6_Read_by_ReadAt w s p : Read w s p = Read_by_ReadAt w s p.
Proof.
  unfold Read_by_ReadAt.
  destruct (mutex s) eqn:Hm.
  { unfold Read, ReadAt. rewrite Hm. reflexivity. }
  rewrite Read_unfold by exact Hm.
  change (make dataLengthWeightInBytes) with (Some (repeat x00 8)). cbv beta iota.
  rewrite ReadAt_unfold by exact Hm.
  destruct (Flush w (File s) (buffer s)) as [[[w1 f1] b1] [e|]] eqn:Hf; [reflexivity|].
  apply Flush_none in Hf. subst b1.
  unfold Read_tail.
  change (make dataLengthWeightInBytes) with (Some (repeat x00 8)). cbv beta iota.
  destruct (os.ReadAt w1 f1 (repeat x00 8) (int64 p)) as [w2 [[l n] [e|]]]; [reflexivity|].
  destruct (BigEndian.Uint64 l) as [k|]; [|reflexivity].
  destruct (make k) as [b|]; [|reflexivity].
  rewrite ReadAt_unfold by reflexivity. cbn [File buffer fileSize]. rewrite Flush_empty.
  assert (Hoff : int64 (int64 p + dataLengthWeightInBytes)
                 = int64 (uint64 (p + dataLengthWeightInBytes))).
  { unfold int64, uint64, dataLengthWeightInBytes. f_equal.
    replace ((p + 2 ^ 63) mod 2 ^ 64 - 2 ^ 63 + 8 + 2 ^ 63)
      with ((p + 2 ^ 63) mod 2 ^ 64 + 8) by lia.
    rewrite Zplus_mod_idemp_l. rewrite (Zplus_mod_idemp_l (p + 8)).
    f_equal. lia. }
  rewrite Hoff.
  destruct (os.ReadAt w2 f1 b _) as [w3 [[b' n'] [e|]]]; reflexivity.
Qed.

(** C7. Reads change neither the size cursor nor the bytes of the store
    (the file followed by the buffer), and [Append], like any sequence of
    calls, only adds bytes at the end: the bytes below the size cursor of
    before the call are as they were, and a record stays at its
    position. *)
Theorem C7_frame w s :
  at_end w (File s) ->
  (forall p w1 s1 r, Read w s p = (w1, s1, r) ->
     fileSize s1 = fileSize s /\ logical w1 s1 = logical w s) /\
  (forall data off w1 s1 r, ReadAt w s data off = (w1, s1, r) ->
     fileSize s1 = fileSize s /\ logical w1 s1 = logical w s) /\
  (forall d w1 s1 r, Append w s d = (w1, s1, r) ->
     (exists c, logical w1 s1 = logical w s ++ c) /\
     (store_ok w s ->
      firstn (Z.to_nat (fileSize s)) (logical w1 s1) = logical w s)) /\
  (forall w1 s1, calls (w, s) (w1, s1) ->
     (exists c, logical w1 s1 = logical w s ++ c) /\
     forall p d, record_at (logical w s) p d -> record_at (logical w1 s1) p d).
Proof.
  intros Hend. split; [|split; [|split]].
  - intros p w1 s1 r H. destruct (Read_frame _ _ _ _ _ _ H Hend) as (? & ? & _). auto.
  - intros data off w1 s1 r H.
    destruct (ReadAt_frame _ _ _ _ _ _ _ H Hend) as (? & ? & _). auto.
  - intros d w1 s1 r H. destruct (Append_frame _ _ _ _ _ _ H Hend) as [[c Hc] _].
    split; [eauto|]. intros Hok. rewrite Hc, (ok_size _ _ Hok).
    replace (len (disk w) + len (buf (buffer s))) with (len (logical w s))
      by (unfold logical; apply len_app).
    unfold len. rewrite Nat2Z.id, firstn_app, Nat.sub_diag, firstn_all. simpl.
    apply app_nil_r.
  - intros w1 s1 H. destruct (calls_frame _ _ H Hend) as [c Hc]. simpl in Hc.
    split; [eauto|]. intros p d Hr. rewrite Hc. now apply record_at_app.
Qed.

Lemma C7_frame_witness :
  fileSize (snd (fst (Read full_world full_store 0))) = 23 /\
  logical (fst (fst (Read full_world full_store 0)))
          (snd (fst (Read full_world full_store 0))) = record testData.
Proof.
  refine (proj1 (C7_frame full_world full_store _) 0 _ _
            (snd (Read full_world full_store 0)) _).
  - right; reflexivity.
  - vm_compute; reflexivity.
Defined.



(** C9. A failed [Append] returns 0 for the byte count and 0 for the
    position, whatever the cursor was. *)
Theorem C9_Append_error_returns_zeros w s data w1 s1 n pos e :
  Append w s data = (w1, s1, Return (n, pos, Some e)) ->
  n = 0 /\ pos = 0.
Proof.
  unfold Append. destruct (mutex s); [discriminate|].
  destruct (binary.Write _ _ _ _) as [[[w' f'] b'] [e1|]].
  - intros [= _ _ <- <- _]. now split.
  - destruct (bufio.Write w' f' b' data) as [[[w2 f2] b2] [wn [e2|]]].
    + intros [= _ _ <- <- _]. now split.
    + discriminate.
Qed.

Lemma C9_Append_error_returns_zeros_witness :
  fileSize full_store = 23 /\
  exists n pos,
    snd (Append full_world full_store big_payload) = Return (n, pos, Some ENOSPC) /\
    n = 0 /\ pos = 0.
Proof.
  split; [reflexivity|]. exists 0, 0. split; [vm_compute; reflexivity|].
  refine (C9_Append_error_returns_zeros full_world full_store big_payload
            (fst (fst (Append full_world full_store big_payload)))
            (snd (fst (Append full_world full_store big_payload))) 0 0 ENOSPC _).
  vm_compute; reflexivity.
Defined.

(** C10. The empty record: [Append] of the empty byte sequence returns
    8 and the current position, adds eight zero bytes and nothing else, and
    [Read] at that position returns the empty sequence, not an error (the
    system reporting no failure). *)
Theorem C10_empty_record w s :
  store_ok w s -> calm w -> fileSize s + 8 <= maxFileSize ->
  exists w1 s1,
    Append w s [] = (w1, s1, Return (8, fileSize s, None)) /\
    logical w1 s1 = logical w s ++ repeat x00 8 /\
    exists w2 s2, Read w1 s1 (fileSize s) = (w2, s2, Return ([], None)).
Proof.
  intros Hok Hc Hfit.
  assert (Hd : len (@nil byte) <= maxAlloc) by (vm_compute; discriminate).
  destruct (Append_calm w s [] Hok Hc Hd) as (w1 & s1 & HA & Hc1);
    [change (len (@nil byte)) with 0; lia|].
  change (len (@nil byte) + 8) with 8 in HA.
  destruct (Append_ok _ _ _ _ _ _ _ Hok Hd HA) as (_ & _ & Hsz & Hl & Hok1).
  pose proof (Append_record_at _ _ _ _ _ _ _ Hok Hd HA) as Hrec.
  destruct (Read_calm w1 s1 (fileSize s) [] Hok1 Hrec Hd Hc1) as (w2 & s2 & HR & _);
    [lia|].
  exists w1, s1. split; [exact HA|]. split; [exact Hl|]. eauto.
Qed.

Lemma C10_empty_record_witness :
  exists w1 s1,
    Append fresh_world fresh_store [] = (w1, s1, Return (8, 0, None)) /\
    logical w1 s1 = repeat x00 8 /\
    exists w2 s2, Read w1 s1 0 = (w2, s2, Return ([], None)).
Proof.
  refine (C10_empty_record fresh_world fresh_store _ _ _).
  - compute_store_ok.
  - vm_compute. constructor.
  - vm_compute; discriminate.
Defined.

End Claims.

(** * Further properties of the store *)

(** ** Writes that fit the buffer, and the writer once it has failed *)

Section BufferedWrites.
Import Go os bufio log.

Lemma bufio_Write_fits w f b p :
  err b = None -> len p <= Available b ->
  bufio.Write w f b p = (w, f, mkWriter None (buf b ++ p), (len p, None)).
Proof.
  intros He Hfit. unfold bufio.Write.
  assert (Hm : Write_more b p = false).
  { unfold Write_more. apply andb_false_intro1. now apply Z.ltb_ge. }
  rewrite (Write_loop_exit 2 w f b p 0 Hm), He. unfold fill. rewrite He.
  rewrite firstn_all2; [reflexivity|].
  pose proof (len_nonneg p). unfold len in *. lia.
Qed.

Lemma bufio_Write_err w f b p w1 f1 b1 n e :
  bufio.Write w f b p = (w1, f1, b1, (n, Some e)) -> err b1 = Some e.
Proof.
  unfold bufio.Write.
  destruct (Write_loop 2 w f b p 0) as [[[[w' f'] b'] p1] nn].
  destruct (err b') as [e'|] eqn:He.
  - intros [= _ _ <- _ <-]. exact He.
  - destruct (fill b' p1). discriminate.
Qed.

(** The bytes a write has taken are a prefix of what it was given. *)
Lemma bufio_Write_prefix w f b p w1 f1 b1 n e :
  bufio.Write w f b p = (w1, f1, b1, (n, e)) -> at_end w f ->
  exists c rest, p = c ++ rest /\ grows w f b w1 f1 b1 c /\ n = len c.
Proof.
  intros H Hend.
  destruct (bufio_Write_spec _ _ _ _ _ _ _ _ _ H Hend) as (c0 & Hg0 & _ & Hok0).
  unfold bufio.Write in H.
  destruct (Write_loop 2 w f b p 0) as [[[[w' f'] b'] p1] nn] eqn:Hl.
  destruct (Write_loop_spec _ _ _ _ _ _ _ _ _ _ _ Hl Hend) as (c & Hp & Hnn & Hg).
  destruct (err b') as [e'|] eqn:He.
  - injection H as <- <- <- <- <-. exists c, p1.
    split; [exact Hp|]. split; [exact Hg|]. lia.
  - destruct (fill b' p1) as [b2 n2]. injection H as <- <- <- <- <-.
    destruct (Hok0 eq_refl) as (-> & -> & _).
    exists p, []. rewrite app_nil_r. auto.
Qed.

(** A failed [Append] leaves the writer failed. *)
Lemma Append_failed w s d w1 s1 n p e :
  Append w s d = (w1, s1, Return (n, p, Some e)) ->
  mutex s1 = false /\ err (buffer s1) = Some e.
Proof.
  unfold Append. destruct (mutex s); [discriminate|].
  cbn [Lock File buffer fileSize mutex]. unfold binary.Write.
  destruct (bufio.Write w (File s) (buffer s) _) as [[[w' f'] b'] [n1 [e1|]]] eqn:H1.
  - intros [= _ <- _ _ <-]. split; [reflexivity|]. simpl.
    exact (bufio_Write_err _ _ _ _ _ _ _ _ _ H1).
  - destruct (bufio.Write w' f' b' d) as [[[w2 f2] b2] [wn [e2|]]] eqn:H2.
    + intros [= _ <- _ _ <-]. split; [reflexivity|]. simpl.
      exact (bufio_Write_err _ _ _ _ _ _ _ _ _ H2).
    + discriminate.
Qed.

Lemma store_eta (s : store) :
  mutex s = false -> mkStore (File s) false (buffer s) (fileSize s) = s.
Proof. destruct s. simpl. now intros ->. Qed.

Lemma Read_stuck w s pos e :
  mutex s = false -> err (buffer s) = Some e ->
  Read w s pos = (w, s, Return ([], Some e)).
Proof.
  intros Hm He. rewrite Read_unfold by exact Hm. unfold Flush. rewrite He. cbv beta iota zeta.
  now rewrite (store_eta s Hm).
Qed.

Lemma ReadAt_stuck w s data off e :
  mutex s = false -> err (buffer s) = Some e ->
  ReadAt w s data off = (w, s, Return (data, 0, Some e)).
Proof.
  intros Hm He. rewrite ReadAt_unfold by exact Hm. unfold Flush. rewrite He. cbv beta iota zeta.
  now rewrite (store_eta s Hm).
Qed.

Lemma Close_stuck w s e :
  mutex s = false -> err (buffer s) = Some e ->
  Close w s = (w, s, Return (Some e)).
Proof.
  intros Hm He. destruct s as [f m b sz]. simpl in Hm, He. subst m.
  unfold Close, Flush. cbn [Lock Unlock File buffer fileSize mutex].
  now rewrite He.
Qed.

(** [Append] of a record that fits the buffer only fills the buffer. *)
Lemma Append_fits w s d :
  mutex s = false -> err (buffer s) = None ->
  len (buf (buffer s)) + 8 + len d <= defaultBufSize ->
  Append w s d =
  (w,
   mkStore (File s) false (mkWriter None (buf (buffer s) ++ record d))
     (uint64 (fileSize s + uint64 (int64 (len d + dataLengthWeightInBytes)))),
   Return (uint64 (int64 (len d + dataLengthWeightInBytes)), fileSize s, None)).
Proof.
  intros Hm He Hfit. unfold Append, binary.Write. rewrite Hm.
  cbn [Lock Unlock File buffer fileSize mutex].
  pose proof (len_nonneg d) as Hd0. pose proof (len_nonneg (buf (buffer s))) as Hb0.
  rewrite bufio_Write_fits;
    [|exact He|unfold Available; change (len (BigEndian.PutUint64 _)) with 8; lia].
  rewrite bufio_Write_fits;
    [|reflexivity|unfold Available; cbn [buf]; rewrite len_app;
      change (len (BigEndian.PutUint64 _)) with 8; lia].
  cbn [buf]. unfold record. now rewrite <- app_assoc.
Qed.

End BufferedWrites.

Section FailedWriter.
Import Go os bufio log.

Lemma call_stuck st st1 e :
  call st st1 -> mutex (snd st) = false -> err (buffer (snd st)) = Some e ->
  st1 = st.
Proof.
  intros [w s d w1 s1 r _ H|w s p w1 s1 r H|w s data off w1 s1 r H|w s w1 s1 r H] Hm He;
    simpl in Hm, He.
  - rewrite (Append_stuck w s d e Hm He) in H. now injection H as <- <- _.
  - rewrite (Read_stuck w s p e Hm He) in H. now injection H as <- <- _.
  - rewrite (ReadAt_stuck w s data off e Hm He) in H. now injection H as <- <- _.
  - rewrite (Close_stuck w s e Hm He) in H. now injection H as <- <- _.
Qed.

Lemma calls_stuck st st1 e :
  calls st st1 -> mutex (snd st) = false -> err (buffer (snd st)) = Some e ->
  st1 = st.
Proof.
  induction 1 as [st|st st1 st2 H1 _ IH]; intros Hm He; [reflexivity|].
  pose proof (call_stuck _ _ _ H1 Hm He) as ->. auto.
Qed.

(** The bytes a failed [Append] has taken are a prefix of the record. *)
Lemma Append_torn w s d w1 s1 n p e :
  at_end w (File s) ->
  Append w s d = (w1, s1, Return (n, p, Some e)) ->
  exists c rest, record d = c ++ rest /\ logical w1 s1 = logical w s ++ c.
Proof.
  intros Hend. unfold Append. destruct (mutex s); [discriminate|].
  cbn [Lock File buffer fileSize mutex]. unfold binary.Write.
  destruct (bufio.Write w (File s) (buffer s) _) as [[[w' f'] b'] [n1 e1]] eqn:H1.
  destruct (bufio_Write_prefix _ _ _ _ _ _ _ _ _ H1 Hend) as (c1 & r1 & Hp1 & Hg1 & _).
  destruct e1 as [e1|].
  - intros [= <- <- _ _ _]. exists c1, (r1 ++ d). unfold record, logical.
    cbn [Unlock File buffer fileSize mutex].
    rewrite Hp1, <- app_assoc. split; [reflexivity|].
    destruct Hg1 as (-> & _). now rewrite app_assoc.
  - destruct (bufio_Write_spec _ _ _ _ _ _ _ _ _ H1 Hend) as (c0 & Hg0 & _ & Hok0).
    destruct (Hok0 eq_refl) as (-> & _).
    destruct (bufio.Write w' f' b' d) as [[[w2 f2] b2] [wn [e2|]]] eqn:H2; [|discriminate].
    assert (Hend' : at_end w' f') by apply Hg0.
    destruct (bufio_Write_prefix _ _ _ _ _ _ _ _ _ H2 Hend') as (c2 & r2 & Hp2 & Hg2 & _).
    intros [= <- <- _ _ _]. exists (BigEndian.PutUint64 (uint64 (len d)) ++ c2), r2.
    unfold record, logical. cbn [Unlock File buffer fileSize mutex].
    split; [now rewrite <- app_assoc, <- Hp2|].
    destruct Hg2 as (-> & _). rewrite app_assoc. destruct Hg0 as (-> & _).
    now rewrite <- !app_assoc.
Qed.

End FailedWriter.

(** ** Reads at and past the end of the records *)

Section Reads.
Import Go os bufio log.

Lemma os_ReadAt_calm_gen w f b off :
  calm w -> closed f = false -> 0 <= off -> off + len b <= maxFileSize ->
  exists w1,
    os.ReadAt w f b off = (w1, read_result b (bytes_at (disk w) off (length b))) /\
    calm w1 /\ disk w1 = disk w.
Proof.
  intros Hc Ho Hoff Hfit. unfold os.ReadAt, read_result, bytes_at.
  destruct (Z.ltb_spec off 0) as [|_]; [lia|].
  destruct (Z.eqb_spec (len b) 0) as [Hz|Hnz].
  { apply len_zero_nil in Hz. subst b. simpl. eauto. }
  rewrite Ho. destruct (syscall_calm w Hc) as [Hs Hc']. rewrite Hs.
  destruct (Z.ltb_spec maxFileSize (off + len b)) as [|_]; [lia|].
  rewrite syscall_disk.
  destruct (Z.ltb_spec off (len (disk w))) as [Hlt|Hge].
  - exists (snd (syscall w)). split; [reflexivity|]. split; [exact Hc'|apply syscall_disk].
  - rewrite (skipn_all2 (disk w)) by (unfold len in Hge; lia).
    rewrite firstn_nil. exists (snd (syscall w)).
    split; [reflexivity|]. split; [exact Hc'|apply syscall_disk].
Qed.

(** A read that would end past the largest offset of a file is refused. *)
Lemma os_ReadAt_refused w f b off :
  calm w -> closed f = false -> 0 <= off -> b <> [] ->
  maxFileSize < off + len b ->
  exists w1,
    os.ReadAt w f b off = (w1, (b, 0, Some EINVAL)) /\ calm w1 /\ disk w1 = disk w.
Proof.
  intros Hc Ho Hoff Hne Hbig. unfold os.ReadAt.
  destruct (Z.ltb_spec off 0) as [|_]; [lia|].
  destruct (Z.eqb_spec (len b) 0) as [Hz|_];
    [apply len_zero_nil in Hz; contradiction|].
  rewrite Ho. destruct (syscall_calm w Hc) as [Hs Hc']. rewrite Hs.
  destruct (Z.ltb_spec maxFileSize (off + len b)) as [_|]; [|lia].
  exists (snd (syscall w)). split; [reflexivity|]. split; [exact Hc'|apply syscall_disk].
Qed.

(** The flush reports the error the writer is left with. *)
Lemma Flush_reports w f b w1 f1 b1 e :
  Flush w f b = (w1, f1, b1, e) -> err b1 = e.
Proof.
  unfold Flush. destruct (err b) as [e0|] eqn:He; [now intros [= _ _ <- <-]|].
  destruct (Buffered b =? 0); [now intros [= _ _ <- <-]|].
  destruct (os.Write w f (buf b)) as [[w' f'] [n e']].
  destruct (if (n <? Buffered b) && is_nil e' then Some ErrShortWrite else e');
    now intros [= _ _ <- <-].
Qed.

Lemma store_ok_disk w w1 s : disk w1 = disk w -> store_ok w s -> store_ok w1 s.
Proof.
  intros Hd Hok. apply store_inv_ok; [|apply Hok|apply Hok].
  apply store_inv_disk with w; [exact Hd|now apply store_ok_inv].
Qed.

(** The flush that opens a read, when the system reports no failure. *)
Lemma Flush_store_calm w s :
  store_ok w s -> calm w -> fileSize s <= maxFileSize ->
  exists w1 f1,
    Flush w (File s) (buffer s) = (w1, f1, mkWriter None [], None) /\
    calm w1 /\ disk w1 = logical w s /\ closed f1 = false /\
    store_ok w1 (mkStore f1 false (mkWriter None []) (fileSize s)).
Proof.
  intros Hok Hc Hfit.
  destruct (Flush_calm w (File s) (buffer s) Hc (ok_open _ _ Hok) (ok_end _ _ Hok)
              (ok_err _ _ Hok)) as (w1 & f1 & Hf & Hc1).
  { rewrite <- (ok_size _ _ Hok). exact Hfit. }
  destruct (Flush_ok _ _ _ _ _ Hok Hf) as (Hd & _ & Hok1).
  exists w1, f1. split; [exact Hf|]. split; [exact Hc1|]. split; [exact Hd|].
  split; [exact (ok_open _ _ Hok1)|exact Hok1].
Qed.

(** [Read] without a failure of the system is the two reads of the file
    that holds all the bytes. *)
Lemma Read_calm_tail w s p :
  store_ok w s -> calm w -> fileSize s <= maxFileSize ->
  exists w1 f1,
    calm w1 /\ disk w1 = logical w s /\ closed f1 = false /\
    store_ok w1 (mkStore f1 false (mkWriter None []) (fileSize s)) /\
    Read w s p =
    (fst (Read_tail w1 f1 p), mkStore f1 false (mkWriter None []) (fileSize s),
     snd (Read_tail w1 f1 p)).
Proof.
  intros Hok Hc Hfit.
  destruct (Flush_store_calm w s Hok Hc Hfit) as (w1 & f1 & Hf & Hc1 & Hd & Ho & Hok1).
  exists w1, f1. split; [exact Hc1|]. split; [exact Hd|]. split; [exact Ho|].
  split; [exact Hok1|].
  rewrite Read_unfold by apply Hok. rewrite Hf. cbv beta iota zeta.
  now destruct (Read_tail w1 f1 p).
Qed.

(** The file ends before the eight bytes of the header. *)
Lemma Read_tail_short_header w f p :
  calm w -> closed f = false -> 0 <= p < 2 ^ 63 -> len (disk w) < p + 8 ->
  exists w1,
    Read_tail w f p
    = (w1, Return ([], Some (if p + 8 <=? maxFileSize then EOF else EINVAL))).
Proof.
  intros Hc Ho Hp Hshort. unfold Read_tail.
  change (make dataLengthWeightInBytes) with (Some (repeat x00 8)). cbv beta iota.
  rewrite int64_small by lia.
  destruct (Z.leb_spec (p + 8) maxFileSize) as [Hfit|Hbig].
  - destruct (os_ReadAt_calm_gen w f (repeat x00 8) p Hc Ho) as (w1 & H1 & _);
      [lia|exact Hfit|].
    rewrite H1. unfold read_result.
    assert (Hlt : (len (bytes_at (disk w) p (length (repeat x00 8))) <? len (repeat x00 8))
                  = true).
    { apply Z.ltb_lt. unfold bytes_at, len. rewrite length_firstn, length_skipn.
      change (length (repeat x00 8)) with 8%nat. unfold len in Hshort. lia. }
    rewrite Hlt. eauto.
  - destruct (os_ReadAt_refused w f (repeat x00 8) p Hc Ho) as (w1 & H1 & _);
      [lia|discriminate|exact Hbig|].
    rewrite H1. eauto.
Qed.

Section HeaderOnDisk.
Variables (w : World) (f : os.File) (pre rest : list byte) (n : Z).
Hypothesis Hdisk : disk w = pre ++ BigEndian.PutUint64 n ++ rest.
Hypothesis Hn : 0 <= n < 2 ^ 64.
Hypothesis Hmax : len (disk w) <= maxFileSize.

Lemma header_offsets :
  int64 (len pre) = len pre /\
  int64 (uint64 (len pre + dataLengthWeightInBytes)) = len pre + 8.
Proof.
  pose proof (len_nonneg pre). pose proof (len_nonneg rest).
  rewrite Hdisk, !len_app in Hmax.
  change (len (BigEndian.PutUint64 n)) with 8 in Hmax.
  assert (maxFileSize = 2 ^ 63 - 1) by reflexivity.
  unfold dataLengthWeightInBytes.
  rewrite !uint64_small, !int64_small; rewrite ?uint64_small; lia.
Qed.

(** The header is read and decoded; what follows depends on the length
    it gives. *)
Lemma Read_tail_header_calm :
  calm w -> closed f = false ->
  exists w1,
    calm w1 /\ disk w1 = disk w /\
    Read_tail w f (len pre) =
    match make n with
    | None => (w1, Panic)
    | Some b =>
        let '(w3, (b, _, e)) := os.ReadAt w1 f b (len pre + 8) in
        match e with
        | Some e => (w3, Return ([], Some e))
        | None => (w3, Return (b, None))
        end
    end.
Proof.
  intros Hc Ho. unfold Read_tail. destruct header_offsets as [Ho1 Ho2].
  rewrite Ho1, Ho2. change (make dataLengthWeightInBytes) with (Some (repeat x00 8)).
  cbv beta iota.
  destruct (os_ReadAt_calm w f (repeat x00 8) (len pre) pre (BigEndian.PutUint64 n) rest
              Hc Ho Hmax Hdisk eq_refl eq_refl) as (w1 & H1 & Hc1).
  exists w1. split; [exact Hc1|]. split; [exact (os_ReadAt_disk _ _ _ _ _ _ H1)|].
  rewrite H1, (Uint64_PutUint64 n Hn). reflexivity.
Qed.

(** Whatever the system does, a header whose length is larger than any
    slice lets the read return no bytes. *)
Lemma Read_tail_oversized w1 r :
  maxAlloc < n -> Read_tail w f (len pre) = (w1, r) ->
  r = Panic \/ exists e, r = Return ([], Some e).
Proof.
  intros Hbig. unfold Read_tail. destruct header_offsets as [Ho1 Ho2].
  rewrite Ho1, Ho2. change (make dataLengthWeightInBytes) with (Some (repeat x00 8)).
  cbv beta iota.
  destruct (os.ReadAt w f (repeat x00 8) (len pre)) as [w2 [[l' k] e]] eqn:H1.
  destruct e as [e|]; [intros [= _ <-]; eauto|].
  apply os_ReadAt_found with (pre := pre) (x := BigEndian.PutUint64 n) (post := rest) in H1;
    [|exact Hdisk|reflexivity|reflexivity].
  subst l'. rewrite (Uint64_PutUint64 n Hn). unfold make.
  destruct (Z.leb_spec n maxAlloc); [lia|]. intros [= _ <-]. now left.
Qed.

End HeaderOnDisk.

End Reads.

(** ** The closed file *)

Section ClosedFile.
Import Go os bufio log.

Lemma os_Write_closed w f b :
  closed f = true -> os.Write w f b = (w, f, (0, Some ErrClosed)).
Proof. intros H. unfold os.Write. now rewrite H. Qed.

Lemma Flush_closed w f b w1 f1 b1 e :
  closed f = true -> Flush w f b = (w1, f1, b1, e) -> w1 = w /\ f1 = f.
Proof.
  intros Hc. unfold Flush. destruct (err b); [now intros [= <- <- _ _]|].
  destruct (Buffered b =? 0); [now intros [= <- <- _ _]|].
  rewrite (os_Write_closed w f (buf b) Hc).
  destruct (if (0 <? Buffered b) && is_nil (Some ErrClosed)
            then Some ErrShortWrite else Some ErrClosed);
    now intros [= <- <- _ _].
Qed.

Lemma Write_loop_closed fuel : forall w f b p nn w1 f1 b1 p1 nn1,
  closed f = true -> Write_loop fuel w f b p nn = (w1, f1, b1, p1, nn1) ->
  w1 = w /\ f1 = f.
Proof.
  induction fuel as [|fuel IH]; intros w f b p nn w1 f1 b1 p1 nn1 Hc;
    [now intros [= <- <- _ _ _]|].
  cbn [Write_loop]. destruct (Write_more b p); [|now intros [= <- <- _ _ _]].
  destruct (Buffered b =? 0).
  - rewrite (os_Write_closed w f p Hc). intros H. exact (IH _ _ _ _ _ _ _ _ _ _ Hc H).
  - destruct (fill b p) as [b' n].
    destruct (Flush w f b') as [[[w' f'] b2] e] eqn:Hf.
    destruct (Flush_closed _ _ _ _ _ _ _ Hc Hf) as [-> ->].
    intros H. exact (IH _ _ _ _ _ _ _ _ _ _ Hc H).
Qed.

Lemma bufio_Write_closed w f b p w1 f1 b1 r :
  closed f = true -> bufio.Write w f b p = (w1, f1, b1, r) -> w1 = w /\ f1 = f.
Proof.
  intros Hc. unfold bufio.Write.
  destruct (Write_loop 2 w f b p 0) as [[[[w' f'] b'] p'] nn] eqn:Hl.
  destruct (Write_loop_closed _ _ _ _ _ _ _ _ _ _ _ Hc Hl) as [-> ->].
  destruct (err b'); [now intros [= <- <- _ _]|].
  destruct (fill b' p'). now intros [= <- <- _ _].
Qed.

Lemma Append_closed w s d w1 s1 r :
  closed (File s) = true -> Append w s d = (w1, s1, r) ->
  w1 = w /\ File s1 = File s.
Proof.
  intros Hc. unfold Append. destruct (mutex s); [now intros [= <- <- _]|].
  cbn [Lock File buffer fileSize mutex]. unfold binary.Write.
  destruct (bufio.Write w (File s) (buffer s) _) as [[[w' f'] b'] [n1 e1]] eqn:H1.
  destruct (bufio_Write_closed _ _ _ _ _ _ _ _ Hc H1) as [-> ->].
  destruct e1; [now intros [= <- <- _]|].
  destruct (bufio.Write w (File s) b' d) as [[[w2 f2] b2] [wn e2]] eqn:H2.
  destruct (bufio_Write_closed _ _ _ _ _ _ _ _ Hc H2) as [-> ->].
  destruct e2; now intros [= <- <- _].
Qed.

Lemma os_ReadAt_closed w f b off w1 r :
  closed f = true -> os.ReadAt w f b off = (w1, r) -> w1 = w.
Proof.
  intros Hc. unfold os.ReadAt. destruct (off <? 0); [now intros [= <- _]|].
  destruct (len b =? 0); [now intros [= <- _]|]. rewrite Hc. now intros [= <- _].
Qed.

Lemma Read_tail_closed w f p w1 r :
  closed f = true -> Read_tail w f p = (w1, r) -> w1 = w.
Proof.
  intros Hc. unfold Read_tail.
  change (make dataLengthWeightInBytes) with (Some (repeat x00 8)). cbv beta iota.
  destruct (os.ReadAt w f (repeat x00 8) (int64 p)) as [w2 [[l n] e]] eqn:H1.
  apply (os_ReadAt_closed _ _ _ _ _ _ Hc) in H1. subst w2.
  destruct e; [now intros [= <- _]|].
  destruct (BigEndian.Uint64 l) as [k|]; [|now intros [= <- _]].
  destruct (make k) as [b|]; [|now intros [= <- _]].
  destruct (os.ReadAt w f b _) as [w3 [[b' n'] e]] eqn:H2.
  apply (os_ReadAt_closed _ _ _ _ _ _ Hc) in H2. subst w3.
  destruct e; now intros [= <- _].
Qed.

Lemma call_closed st st1 :
  call st st1 -> closed (File (snd st)) = true ->
  fst st1 = fst st /\ File (snd st1) = File (snd st).
Proof.
  intros [w s d w1 s1 r _ H|w s p w1 s1 r H|w s data off w1 s1 r H|w s w1 s1 r H] Hc;
    simpl in *.
  - exact (Append_closed _ _ _ _ _ _ Hc H).
  - destruct (mutex s) eqn:Hm; [unfold Read in H; rewrite Hm in H; now injection H as <- <- _|].
    rewrite Read_unfold in H by exact Hm.
    destruct (Flush w (File s) (buffer s)) as [[[w' f'] b'] e] eqn:Hf.
    destruct (Flush_closed _ _ _ _ _ _ _ Hc Hf) as [-> ->].
    destruct e; [now injection H as <- <- _|].
    destruct (Read_tail w (File s) p) as [w2 r'] eqn:Ht.
    apply (Read_tail_closed _ _ _ _ _ Hc) in Ht. subst w2. now injection H as <- <- _.
  - destruct (mutex s) eqn:Hm;
      [unfold ReadAt in H; rewrite Hm in H; now injection H as <- <- _|].
    rewrite ReadAt_unfold in H by exact Hm.
    destruct (Flush w (File s) (buffer s)) as [[[w' f'] b'] e] eqn:Hf.
    destruct (Flush_closed _ _ _ _ _ _ _ Hc Hf) as [-> ->].
    destruct e; [now injection H as <- <- _|].
    destruct (os.ReadAt w (File s) data off) as [w2 r'] eqn:Ht.
    apply (os_ReadAt_closed _ _ _ _ _ _ Hc) in Ht. subst w2. now injection H as <- <- _.
  - unfold Close in H. destruct (mutex s); [now injection H as <- <- _|].
    cbn [Lock Unlock File buffer fileSize mutex] in H.
    destruct (Flush w (File s) (buffer s)) as [[[w' f'] b'] e] eqn:Hf.
    destruct (Flush_closed _ _ _ _ _ _ _ Hc Hf) as [-> ->].
    destruct e; [now injection H as <- <- _|].
    unfold os.Close in H. rewrite Hc in H. now injection H as <- <- _.
Qed.

Lemma calls_closed st st1 :
  calls st st1 -> closed (File (snd st)) = true ->
  fst st1 = fst st /\ File (snd st1) = File (snd st).
Proof.
  induction 1 as [st|st st1 st2 H1 _ IH]; intros Hc; [auto|].
  destruct (call_closed _ _ H1 Hc) as [Hw Hf].
  destruct IH as [Hw2 Hf2]; [congruence|]. split; congruence.
Qed.

(** What the methods return on a store whose file was closed and whose
    buffer is empty. *)
Lemma closed_store_returns w s :
  mutex s = false -> closed (File s) = true -> buffer s = mkWriter None [] ->
  Close w s = (w, s, Return (Some ErrClosed)) /\
  (forall p, 0 <= p < 2 ^ 63 -> Read w s p = (w, s, Return ([], Some ErrClosed))) /\
  (forall data off, 0 <= off -> data <> [] ->
     ReadAt w s data off = (w, s, Return (data, 0, Some ErrClosed))).
Proof.
  destruct s as [f m b sz]. simpl. intros -> Hc ->. split; [|split].
  - unfold Close. cbn [Lock Unlock File buffer fileSize mutex].
    rewrite Flush_empty. unfold os.Close. now rewrite Hc.
  - intros p Hp. rewrite Read_unfold by reflexivity.
    cbn [File buffer fileSize]. rewrite Flush_empty. cbv beta iota zeta.
    unfold Read_tail.
    change (make dataLengthWeightInBytes) with (Some (repeat x00 8)). cbv beta iota.
    rewrite int64_small by lia. unfold os.ReadAt.
    destruct (Z.ltb_spec p 0) as [|_]; [lia|].
    change (len (repeat x00 8) =? 0) with false. cbv beta iota. now rewrite Hc.
  - intros data off Hoff Hne. rewrite ReadAt_unfold by reflexivity.
    cbn [File buffer fileSize]. rewrite Flush_empty. cbv beta iota zeta.
    unfold os.ReadAt. destruct (Z.ltb_spec off 0) as [|_]; [lia|].
    destruct (Z.eqb_spec (len data) 0) as [Hz|_];
      [apply len_zero_nil in Hz; contradiction|].
    now rewrite Hc.
Qed.

End ClosedFile.

(** ** The file and the cursor over any calls *)

Section AppendOnly.
Import Go os bufio log.

Lemma Flush_appends w f b w1 f1 b1 e :
  Flush w f b = (w1, f1, b1, e) -> at_end w f ->
  exists x, disk w1 = disk w ++ x.
Proof.
  unfold Flush. intros H Hend.
  destruct (err b); [injection H as <- _ _ _; exists []; now rewrite app_nil_r|].
  destruct (Buffered b =? 0); [injection H as <- _ _ _; exists []; now rewrite app_nil_r|].
  destruct (os.Write w f (buf b)) as [[w' f'] [n e']] eqn:Hw.
  destruct (os_Write_at_end _ _ _ _ _ _ _ Hw Hend) as ((m & Hd & _) & _).
  destruct (if (n <? Buffered b) && is_nil e' then Some ErrShortWrite else e');
    injection H as <- _ _ _; eauto.
Qed.

Lemma Write_loop_appends fuel : forall w f b p nn w1 f1 b1 p1 nn1,
  Write_loop fuel w f b p nn = (w1, f1, b1, p1, nn1) -> at_end w f ->
  exists x, disk w1 = disk w ++ x.
Proof.
  induction fuel as [|fuel IH]; intros w f b p nn w1 f1 b1 p1 nn1 H Hend.
  { injection H as <- _ _ _ _. exists []. now rewrite app_nil_r. }
  cbn [Write_loop] in H.
  destruct (Write_more b p);
    [|injection H as <- _ _ _ _; exists []; now rewrite app_nil_r].
  destruct (Buffered b =? 0).
  - destruct (os.Write w f p) as [[w' f'] [n e]] eqn:Hw.
    destruct (os_Write_at_end _ _ _ _ _ _ _ Hw Hend) as ((m & Hd & _) & Hend' & _).
    destruct (IH _ _ _ _ _ _ _ _ _ _ H Hend') as [x Hx].
    exists (firstn m p ++ x). now rewrite Hx, Hd, app_assoc.
  - destruct (fill b p) as [b' n].
    destruct (Flush w f b') as [[[w' f'] b2] e] eqn:Hf.
    destruct (Flush_appends _ _ _ _ _ _ _ Hf Hend) as [x1 Hx1].
    destruct (Flush_spec _ _ _ _ _ _ _ Hf Hend) as (_ & Hend' & _).
    destruct (IH _ _ _ _ _ _ _ _ _ _ H Hend') as [x Hx].
    exists (x1 ++ x). now rewrite Hx, Hx1, app_assoc.
Qed.

Lemma bufio_Write_appends w f b p w1 f1 b1 r :
  bufio.Write w f b p = (w1, f1, b1, r) -> at_end w f ->
  exists x, disk w1 = disk w ++ x.
Proof.
  unfold bufio.Write. intros H Hend.
  destruct (Write_loop 2 w f b p 0) as [[[[w' f'] b'] p'] nn] eqn:Hl.
  destruct (Write_loop_appends _ _ _ _ _ _ _ _ _ _ _ Hl Hend) as [x Hx].
  destruct (err b'); [injection H as <- _ _ _; eauto|].
  destruct (fill b' p'). injection H as <- _ _ _. eauto.
Qed.

Lemma Append_appends w s d w1 s1 r :
  Append w s d = (w1, s1, r) -> at_end w (File s) ->
  exists x, disk w1 = disk w ++ x.
Proof.
  unfold Append. intros H Hend.
  destruct (mutex s); [injection H as <- _ _; exists []; now rewrite app_nil_r|].
  cbn [Lock File buffer fileSize mutex] in H. unfold binary.Write in H.
  destruct (bufio.Write w (File s) (buffer s) _) as [[[w' f'] b'] [n1 e1]] eqn:H1.
  destruct (bufio_Write_appends _ _ _ _ _ _ _ _ H1 Hend) as [x1 Hx1].
  destruct e1; [injection H as <- _ _; eauto|].
  destruct (bufio_Write_spec _ _ _ _ _ _ _ _ _ H1 Hend) as (c0 & Hg0 & _).
  assert (Hend' : at_end w' f') by apply Hg0.
  destruct (bufio.Write w' f' b' d) as [[[w2 f2] b2] [wn e2]] eqn:H2.
  destruct (bufio_Write_appends _ _ _ _ _ _ _ _ H2 Hend') as [x2 Hx2].
  exists (x1 ++ x2).
  destruct e2; injection H as <- _ _; now rewrite Hx2, Hx1, app_assoc.
Qed.

Lemma call_appends st st1 :
  call st st1 -> at_end (fst st) (File (snd st)) ->
  exists x, disk (fst st1) = disk (fst st) ++ x.
Proof.
  intros [w s d w1 s1 r _ H|w s p w1 s1 r H|w s data off w1 s1 r H|w s w1 s1 r H] Hend;
    simpl in *.
  - exact (Append_appends _ _ _ _ _ _ H Hend).
  - destruct (mutex s) eqn:Hm.
    { unfold Read in H. rewrite Hm in H. injection H as <- _ _.
      exists []. now rewrite app_nil_r. }
    rewrite Read_unfold in H by exact Hm.
    destruct (Flush w (File s) (buffer s)) as [[[w' f'] b'] e] eqn:Hf.
    destruct (Flush_appends _ _ _ _ _ _ _ Hf Hend) as [x Hx].
    destruct e; [injection H as <- _ _; eauto|].
    destruct (Read_tail w' f' p) as [w2 r'] eqn:Ht. injection H as <- _ _.
    exists x. now rewrite (Read_tail_disk _ _ _ _ _ Ht).
  - destruct (mutex s) eqn:Hm.
    { unfold ReadAt in H. rewrite Hm in H. injection H as <- _ _.
      exists []. now rewrite app_nil_r. }
    rewrite ReadAt_unfold in H by exact Hm.
    destruct (Flush w (File s) (buffer s)) as [[[w' f'] b'] e] eqn:Hf.
    destruct (Flush_appends _ _ _ _ _ _ _ Hf Hend) as [x Hx].
    destruct e; [injection H as <- _ _; eauto|].
    destruct (os.ReadAt w' f' data off) as [w2 r'] eqn:Ht. injection H as <- _ _.
    exists x. now rewrite (os_ReadAt_disk _ _ _ _ _ _ Ht).
  - unfold Close in H.
    destruct (mutex s); [injection H as <- _ _; exists []; now rewrite app_nil_r|].
    cbn [Lock Unlock File buffer fileSize mutex] in H.
    destruct (Flush w (File s) (buffer s)) as [[[w' f'] b'] e] eqn:Hf.
    destruct (Flush_appends _ _ _ _ _ _ _ Hf Hend) as [x Hx].
    destruct e; [injection H as <- _ _; eauto|].
    destruct (os.Close w' f') as [[w2 f2] e] eqn:Hcl. injection H as <- _ _.
    exists x. now rewrite (os_Close_disk _ _ _ _ _ Hcl).
Qed.

Lemma calls_appends st st1 :
  calls st st1 -> at_end (fst st) (File (snd st)) ->
  exists x, disk (fst st1) = disk (fst st) ++ x.
Proof.
  induction 1 as [st|st st1 st2 H1 _ IH]; intros Hend.
  { exists []. now rewrite app_nil_r. }
  destruct (call_appends _ _ H1 Hend) as [x1 Hx1].
  destruct IH as [x Hx]; [exact (proj2 (call_frame _ _ H1 Hend))|].
  exists (x1 ++ x). now rewrite Hx, Hx1, app_assoc.
Qed.

(** The cursor never goes back. *)
Lemma call_cursor st st1 :
  call st st1 -> store_inv (fst st) (snd st) ->
  fileSize (snd st) <= fileSize (snd st1).
Proof.
  intros Hcall Hinv. pose proof (call_inv _ _ Hcall Hinv) as [Hinv1 _].
  destruct Hcall as [w s d w1 s1 r Hd H|w s p w1 s1 r H|w s data off w1 s1 r H|w s w1 s1 r H];
    simpl in *.
  - destruct (err (buffer s)) as [e0|] eqn:He0.
    { rewrite (Append_stuck w s d e0 (inv_mutex _ _ Hinv) He0) in H.
      injection H as _ <- _. lia. }
    destruct (Append_spec _ _ _ _ _ _ H (inv_mutex _ _ Hinv) (inv_end _ _ Hinv))
      as (_ & c & n & p & e & _ & Hg & He & Hcase).
    destruct e as [e|]; [destruct Hcase as (_ & _ & ->); lia|].
    destruct Hcase as (-> & _). destruct Hg as (Hl & _).
    rewrite (inv_size _ _ Hinv He0), (inv_size _ _ Hinv1 He).
    apply (f_equal len) in Hl. rewrite !len_app in Hl.
    pose proof (len_nonneg (record d)). lia.
  - destruct (Read_frame _ _ _ _ _ _ H (inv_end _ _ Hinv)) as (-> & _). lia.
  - destruct (ReadAt_frame _ _ _ _ _ _ _ H (inv_end _ _ Hinv)) as (-> & _). lia.
  - destruct (Close_frame _ _ _ _ _ H (inv_end _ _ Hinv)) as (-> & _). lia.
Qed.

Lemma calls_inv st st1 :
  calls st st1 -> store_inv (fst st) (snd st) ->
  store_inv (fst st1) (snd st1) /\
  fileSize (snd st) <= fileSize (snd st1) /\
  (closed (File (snd st)) = true -> closed (File (snd st1)) = true).
Proof.
  induction 1 as [st|st st1 st2 H1 _ IH]; intros Hinv.
  { split; [exact Hinv|]. split; [lia|auto]. }
  destruct (call_inv _ _ H1 Hinv) as [Hinv1 Hc1].
  pose proof (call_cursor _ _ H1 Hinv) as Hle.
  destruct (IH Hinv1) as (Hinv2 & Hle2 & Hc2).
  split; [exact Hinv2|]. split; [lia|auto].
Qed.

End AppendOnly.

(** ** A handle inside its file *)

Section Overwrite.
Import Go os bufio log.

Lemma pwrite_inside d pos b :
  0 <= pos -> pos + len b <= len d ->
  pwrite d pos b
  = firstn (Z.to_nat pos) d ++ b ++ skipn (Z.to_nat (pos + len b)) d /\
  len (pwrite d pos b) = len d.
Proof.
  intros Hp Hin. pose proof (len_nonneg b) as Hb.
  assert (Hr : repeat x00 (Z.to_nat (pos - len d)) = []).
  { replace (Z.to_nat (pos - len d)) with 0%nat by lia. reflexivity. }
  assert (He : pwrite d pos b
               = firstn (Z.to_nat pos) d ++ b ++ skipn (Z.to_nat (pos + len b)) d).
  { unfold pwrite. destruct b as [|x b].
    - change (len (@nil byte)) with 0. rewrite Z.add_0_r. cbn [app].
      symmetry. apply firstn_skipn.
    - rewrite Hr. reflexivity. }
  split; [exact He|]. rewrite He.
  unfold len in *. rewrite !length_app, length_firstn, length_skipn. lia.
Qed.

Lemma calm_faults d w : calm w -> calm (mkWorld d (faults w)).
Proof. exact (fun H => H). Qed.

(** A flush through a handle inside its file writes over the bytes that
    are there. *)
Lemma Flush_inside w f p :
  calm w -> closed f = false -> append f = false ->
  0 <= offset f -> offset f + len p <= len (disk w) ->
  len (disk w) <= maxFileSize -> p <> [] ->
  exists w1 f1,
    Flush w f (mkWriter None p) = (w1, f1, mkWriter None [], None) /\
    calm w1 /\ closed f1 = false /\
    disk w1 = pwrite (disk w) (offset f) p.
Proof.
  intros Hc Ho Ha Hoff Hin Hmax Hne. unfold Flush, Buffered. cbn [err buf].
  destruct (Z.eqb_spec (len p) 0) as [Hz|_]; [apply len_zero_nil in Hz; contradiction|].
  unfold os.Write. rewrite Ho.
  destruct (syscall_calm w Hc) as [Hs Hc']. rewrite Hs.
  unfold write_pos. rewrite Ha. unfold accepted, fitting.
  destruct (Z.leb_spec (offset f + len p) maxFileSize) as [_|]; [|lia].
  rewrite Z.ltb_irrefl. cbn [andb is_nil].
  eexists _, _. split; [reflexivity|]. split; [exact Hc'|]. split; [reflexivity|].
  cbn [disk]. now rewrite syscall_disk.
Qed.

End Overwrite.

(** ** Progress of the goroutines *)

Section Progress.
Import Go os bufio log Goroutines.

Lemma run_app a : forall b sys, run (a ++ b) sys = run b (run a sys).
Proof. induction a as [|i a IH]; intros b sys; [reflexivity|]. simpl. apply IH. Qed.

Lemma set_nth_set_nth {A} i (x y : A) l : set_nth i x (set_nth i y l) = set_nth i x l.
Proof. revert i. induction l as [|h t IH]; intros [|i]; simpl; auto. now rewrite IH. Qed.

(** The goroutine [j] scheduled [k] times in a row. *)
Lemma run_repeat k : forall j sys g,
  nth_error (threads sys) j = Some g ->
  run (repeat j k) sys =
  let '(w', s', g') := finish k (world sys) (shared sys) g in
  mkSystem w' s' (set_nth j g' (threads sys)).
Proof.
  induction k as [|k IH]; intros j sys g Hg.
  { cbn [repeat run finish]. rewrite (set_nth_same _ _ _ Hg). now destruct sys. }
  cbn [repeat run finish]. unfold step at 1. rewrite Hg.
  destruct (statement (world sys) (shared sys) g) as [[w1 s1] g1].
  rewrite (IH j (mkSystem w1 s1 (set_nth j g1 (threads sys))) g1)
    by (cbn [threads]; exact (nth_error_set_nth_eq _ _ _ _ Hg)).
  cbn [world shared threads].
  destruct (finish k w1 s1 g1) as [[w' s'] g']. now rewrite set_nth_set_nth.
Qed.

Lemma finish_S k w s g :
  finish (S k) w s g = let '(w1, s1, g1) := statement w s g in finish k w1 s1 g1.
Proof. reflexivity. Qed.

Lemma Append_unlocks w s d w1 s1 r :
  Append w s d = (w1, s1, Return r) -> mutex s1 = false.
Proof.
  unfold Append. destruct (mutex s); [discriminate|].
  destruct (binary.Write _ _ _ _) as [[[w' f'] b'] [e1|]]; [now intros [= _ <- _]|].
  destruct (bufio.Write w' f' b' d) as [[[w2 f2] b2] [wn [e2|]]]; now intros [= _ <- _].
Qed.

Lemma Forall_set_nth {A} (P : A -> Prop) i x l :
  Forall P l -> P x -> Forall P (set_nth i x l).
Proof.
  intros Hl Hx. revert i. induction Hl as [|h t Hh Ht IH]; intros [|i]; simpl; auto.
Qed.

(** From an idle state, a goroutine scheduled six times in a row has
    returned, and the state is idle again. *)
Lemma idle_turn sys i g :
  idle sys -> nth_error (threads sys) i = Some g ->
  idle (run (repeat i 6) sys) /\
  (exists g', nth_error (threads (run (repeat i 6) sys)) i = Some g' /\
              returned g' <> None) /\
  (forall k, k <> i ->
     nth_error (threads (run (repeat i 6) sys)) k = nth_error (threads sys) k).
Proof.
  intros [Hm Hall] Hg. rewrite (run_repeat 6 i sys g Hg).
  assert (Hin : inside g = false).
  { rewrite Forall_forall in Hall. apply Hall. eapply nth_error_In, Hg. }
  destruct g as [d [| |pos|pos|pos wn|r|r]]; try discriminate.
  - destruct (finish_Append (world sys) (shared sys) d Hm) as (w1 & s1 & r & HA & Hfin).
    assert (H6 : finish 6 (world sys) (shared sys) (mkGoroutine d AtLock)
                 = (w1, s1, mkGoroutine d (Done r))).
    { rewrite (finish_S 5). unfold statement. cbn [now data]. rewrite Hm.
      exact Hfin. }
    rewrite H6. cbn [threads shared]. split; [|split].
    + split; [exact (Append_unlocks _ _ _ _ _ _ HA)|].
      apply Forall_set_nth; [exact Hall|reflexivity].
    + exists (mkGoroutine d (Done r)).
      split; [exact (nth_error_set_nth_eq _ _ _ _ Hg)|discriminate].
    + intros k Hk. now apply nth_error_set_nth_neq.
  - rewrite finish_returned by discriminate. cbn [threads shared].
    rewrite (set_nth_same _ _ _ Hg). split; [|split].
    + now split.
    + exists (mkGoroutine d (Done r)). split; [exact Hg|discriminate].
    + reflexivity.
Qed.

(** From an idle state, the goroutines of [l] each scheduled for a whole
    call have returned, and those that had returned still have. *)
Lemma idle_turns l : forall sys,
  idle sys -> (forall i, In i l -> (i < length (threads sys))%nat) ->
  let sys' := run (flat_map (fun i => repeat i 6) l) sys in
  idle sys' /\ length (threads sys') = length (threads sys) /\
  (forall k g, nth_error (threads sys) k = Some g -> returned g <> None ->
     exists g', nth_error (threads sys') k = Some g' /\ returned g' <> None) /\
  (forall i, In i l ->
     exists g', nth_error (threads sys') i = Some g' /\ returned g' <> None).
Proof.
  induction l as [|i l IH]; intros sys Hidle Hl.
  { cbn [flat_map run]. split; [exact Hidle|]. split; [reflexivity|].
    split; [eauto|intros i []]. }
  cbn [flat_map]. rewrite run_app.
  destruct (nth_error (threads sys) i) as [g|] eqn:Hg;
    [|apply nth_error_None in Hg; specialize (Hl i (or_introl eq_refl)); lia].
  destruct (idle_turn sys i g Hidle Hg) as (Hidle1 & (gi & Hgi & Hri) & Hother).
  set (sys1 := run (repeat i 6) sys) in *.
  assert (Hlen1 : length (threads sys1) = length (threads sys)).
  { unfold sys1. rewrite (run_repeat 6 i sys g Hg).
    destruct (finish 6 (world sys) (shared sys) g) as [[w' s'] g'].
    apply set_nth_length. }
  assert (Hkeep : forall k g0, nth_error (threads sys) k = Some g0 -> returned g0 <> None ->
            exists g', nth_error (threads sys1) k = Some g' /\ returned g' <> None).
  { intros k g0 Hk Hr. destruct (Nat.eq_dec k i) as [->|Hne]; [eauto|].
    rewrite (Hother k Hne). eauto. }
  destruct (IH sys1 Hidle1) as (Hidle2 & Hlen2 & Hkeep2 & Hdone2).
  { intros k Hk. rewrite Hlen1. apply Hl. now right. }
  split; [exact Hidle2|]. split; [congruence|]. split.
  - intros k g0 Hk Hr. destruct (Hkeep k g0 Hk Hr) as (g1 & Hk1 & Hr1). eauto.
  - intros k [<-|Hk]; [eauto|auto].
Qed.

(** From an idle state every goroutine returns when each is given its
    turn. *)
Lemma idle_all_done sys :
  idle sys -> all_done (run (in_turn (length (threads sys))) sys).
Proof.
  intros Hidle. unfold in_turn.
  destruct (idle_turns (seq 0 (length (threads sys))) sys Hidle)
    as (_ & Hlen & _ & Hdone).
  { intros i Hi. apply in_seq in Hi. lia. }
  unfold all_done. apply Forall_forall. intros g Hg.
  apply In_nth_error in Hg as [k Hk].
  assert (Hlt : (k < length (threads sys))%nat).
  { rewrite <- Hlen. apply nth_error_Some. congruence. }
  destruct (Hdone k) as (g' & Hk' & Hr); [apply in_seq; lia|].
  congruence.
Qed.

(** Every state the goroutines reach can be completed. *)
Lemma linearized_completes w0 s0 ds sys order :
  linearized w0 s0 ds sys order ->
  exists rest, all_done (run rest sys).
Proof.
  intros Hlin.
  destruct (lin_state _ _ _ _ _ Hlin) as (wl & sl & rs & _ & Hml & _ & [Hq|Hb]).
  - destruct Hq as (Hw & Hs & Hall).
    exists (in_turn (length (threads sys))). apply idle_all_done.
    split; [now rewrite Hs|exact Hall].
  - destruct Hb as (j & g & Hg & Hin & _ & Hothers & w1 & s1 & r & HA & Hfin).
    exists (repeat j 5 ++ in_turn (length (threads (run (repeat j 5) sys)))).
    rewrite run_app. apply idle_all_done.
    rewrite (run_repeat 5 j sys g Hg), Hfin. unfold idle. cbn [threads shared]. split.
    + exact (Append_unlocks _ _ _ _ _ _ HA).
    + apply Forall_forall. intros x Hx. apply In_nth_error in Hx as [k Hk].
      destruct (Nat.eq_dec j k) as [<-|Hne].
      * rewrite (nth_error_set_nth_eq _ _ _ _ Hg) in Hk. now injection Hk as <-.
      * rewrite nth_error_set_nth_neq in Hk by exact Hne. eapply Hothers; eauto.
Qed.

End Progress.

(** ** The calls under a system that reports no failure

    As long as the system reports no failure, a call returns what it
    returns when no failure is scheduled at all. *)

Section Quiet.
Import Go os bufio log log_test.

Ltac unchanged := repeat eexists; eauto.

Lemma syscall_quiet w :
  calm w ->
  syscall w = (None, snd (syscall w)) /\ calm (snd (syscall w)) /\
  disk (snd (syscall w)) = disk w.
Proof.
  intros Hc. destruct (syscall_calm w Hc) as [Hs Hc']. split; [exact Hs|].
  split; [exact Hc'|apply syscall_disk].
Qed.

Lemma os_Write_quiet w f b :
  calm w ->
  exists w1 f1 r,
    os.Write w f b = (w1, f1, r) /\ calm w1 /\
    os.Write (quiet w) f b = (quiet w1, f1, r).
Proof.
  intros Hc. unfold os.Write. destruct (closed f); [unchanged|].
  destruct (syscall_quiet w Hc) as (Hs & Hc' & Hd). rewrite Hs.
  change (syscall (quiet w)) with (@None fault, quiet w). cbv beta iota.
  unfold write_pos. cbn [disk quiet]. rewrite Hd.
  destruct (accepted None (if append f then len (disk w) else offset f) b) as [b' e].
  do 3 eexists. split; [reflexivity|]. split; [exact Hc'|reflexivity].
Qed.

Lemma os_ReadAt_quiet w f b off :
  calm w ->
  exists w1 r,
    os.ReadAt w f b off = (w1, r) /\ calm w1 /\
    os.ReadAt (quiet w) f b off = (quiet w1, r).
Proof.
  intros Hc. unfold os.ReadAt. destruct (off <? 0); [unchanged|].
  destruct (len b =? 0); [unchanged|].
  destruct (closed f); [unchanged|].
  destruct (syscall_quiet w Hc) as (Hs & Hc' & Hd). rewrite Hs.
  change (syscall (quiet w)) with (@None fault, quiet w). cbv beta iota.
  cbn [disk quiet]. rewrite Hd.
  destruct (maxFileSize <? off + len b).
  - do 2 eexists. split; [reflexivity|]. split; [exact Hc'|].
    unfold quiet. now rewrite Hd.
  - do 2 eexists. split; [reflexivity|]. split; [exact Hc'|].
    unfold quiet. now rewrite Hd.
Qed.

Lemma os_Stat_quiet w :
  calm w ->
  exists w1 r,
    os.Stat w = (w1, r) /\ calm w1 /\ os.Stat (quiet w) = (quiet w1, r).
Proof.
  intros Hc. unfold os.Stat.
  destruct (syscall_quiet w Hc) as (Hs & Hc' & Hd). rewrite Hs.
  change (syscall (quiet w)) with (@None fault, quiet w). cbv beta iota.
  cbn [disk quiet]. rewrite Hd.
  do 2 eexists. split; [reflexivity|]. split; [exact Hc'|].
  unfold quiet. now rewrite Hd.
Qed.

Lemma os_Close_quiet w f :
  calm w ->
  exists w1 f1 e,
    os.Close w f = (w1, f1, e) /\ calm w1 /\
    os.Close (quiet w) f = (quiet w1, f1, e).
Proof.
  intros Hc. unfold os.Close. destruct (closed f); [unchanged|].
  destruct (syscall_quiet w Hc) as (Hs & Hc' & Hd). rewrite Hs.
  change (syscall (quiet w)) with (@None fault, quiet w). cbv beta iota.
  do 3 eexists. split; [reflexivity|]. split; [exact Hc'|].
  unfold quiet. now rewrite Hd.
Qed.

Lemma Flush_quiet w f b :
  calm w ->
  exists w1 f1 b1 e,
    Flush w f b = (w1, f1, b1, e) /\ calm w1 /\
    Flush (quiet w) f b = (quiet w1, f1, b1, e).
Proof.
  intros Hc. unfold Flush. destruct (err b); [unchanged|].
  destruct (Buffered b =? 0); [unchanged|].
  destruct (os_Write_quiet w f (buf b) Hc) as (w1 & f1 & [n e] & H & Hc1 & Hq).
  rewrite H, Hq.
  destruct (if (n <? Buffered b) && is_nil e then Some ErrShortWrite else e);
    unchanged.
Qed.

Lemma Write_loop_quiet fuel : forall w f b p nn,
  calm w ->
  exists w1 f1 b1 p1 nn1,
    Write_loop fuel w f b p nn = (w1, f1, b1, p1, nn1) /\ calm w1 /\
    Write_loop fuel (quiet w) f b p nn = (quiet w1, f1, b1, p1, nn1).
Proof.
  induction fuel as [|fuel IH]; intros w f b p nn Hc; [unchanged|].
  cbn [Write_loop]. destruct (Write_more b p); [|unchanged].
  destruct (Buffered b =? 0).
  - destruct (os_Write_quiet w f p Hc) as (w1 & f1 & [n e] & H & Hc1 & Hq).
    rewrite H, Hq. apply IH, Hc1.
  - destruct (fill b p) as [b' n].
    destruct (Flush_quiet w f b' Hc) as (w1 & f1 & b1 & e & H & Hc1 & Hq).
    rewrite H, Hq. apply IH, Hc1.
Qed.

Lemma bufio_Write_quiet w f b p :
  calm w ->
  exists w1 f1 b1 r,
    bufio.Write w f b p = (w1, f1, b1, r) /\ calm w1 /\
    bufio.Write (quiet w) f b p = (quiet w1, f1, b1, r).
Proof.
  intros Hc. unfold bufio.Write.
  destruct (Write_loop_quiet 2 w f b p 0 Hc) as (w1 & f1 & b1 & p1 & nn & H & Hc1 & Hq).
  rewrite H, Hq. destruct (err b1); [unchanged|].
  destruct (fill b1 p1). unchanged.
Qed.

Lemma Append_quiet w s d :
  calm w ->
  exists w1 s1 r,
    Append w s d = (w1, s1, r) /\ calm w1 /\
    Append (quiet w) s d = (quiet w1, s1, r).
Proof.
  intros Hc. unfold Append, binary.Write. destruct (mutex s); [unchanged|].
  cbv zeta.
  destruct (bufio_Write_quiet w (File (Lock s)) (buffer (Lock s))
              (BigEndian.PutUint64 (uint64 (len d))) Hc)
    as (w1 & f1 & b1 & [n1 e1] & H1 & Hc1 & Hq1).
  rewrite H1, Hq1. destruct e1; [unchanged|].
  destruct (bufio_Write_quiet w1 f1 b1 d Hc1) as (w2 & f2 & b2 & [n2 e2] & H2 & Hc2 & Hq2).
  rewrite H2, Hq2. destruct e2; unchanged.
Qed.

Lemma Read_tail_quiet w f p :
  calm w ->
  exists w1 r,
    Read_tail w f p = (w1, r) /\ calm w1 /\ Read_tail (quiet w) f p = (quiet w1, r).
Proof.
  intros Hc. unfold Read_tail.
  change (make dataLengthWeightInBytes) with (Some (repeat x00 8)). cbv beta iota.
  destruct (os_ReadAt_quiet w f (repeat x00 8) (int64 p) Hc)
    as (w1 & [[l n] e] & H1 & Hc1 & Hq1).
  rewrite H1, Hq1. destruct e; [unchanged|].
  destruct (BigEndian.Uint64 l) as [k|]; [|unchanged].
  destruct (make k) as [b|]; [|unchanged].
  destruct (os_ReadAt_quiet w1 f b (int64 (uint64 (p + dataLengthWeightInBytes))) Hc1)
    as (w2 & [[b' n'] e] & H2 & Hc2 & Hq2).
  rewrite H2, Hq2. destruct e; unchanged.
Qed.

Lemma Read_quiet w s p :
  calm w ->
  exists w1 s1 r,
    Read w s p = (w1, s1, r) /\ calm w1 /\ Read (quiet w) s p = (quiet w1, s1, r).
Proof.
  intros Hc. destruct (mutex s) eqn:Hm.
  { unfold Read. rewrite Hm. unchanged. }
  rewrite !Read_unfold by exact Hm.
  destruct (Flush_quiet w (File s) (buffer s) Hc) as (w1 & f1 & b1 & e & H & Hc1 & Hq).
  rewrite H, Hq. destruct e; [unchanged|].
  destruct (Read_tail_quiet w1 f1 p Hc1) as (w2 & r & H2 & Hc2 & Hq2).
  rewrite H2, Hq2. unchanged.
Qed.

Lemma ReadAt_quiet w s data off :
  calm w ->
  exists w1 s1 r,
    ReadAt w s data off = (w1, s1, r) /\ calm w1 /\
    ReadAt (quiet w) s data off = (quiet w1, s1, r).
Proof.
  intros Hc. destruct (mutex s) eqn:Hm.
  { unfold ReadAt. rewrite Hm. unchanged. }
  rewrite !ReadAt_unfold by exact Hm.
  destruct (Flush_quiet w (File s) (buffer s) Hc) as (w1 & f1 & b1 & e & H & Hc1 & Hq).
  rewrite H, Hq. destruct e; [unchanged|].
  destruct (os_ReadAt_quiet w1 f1 data off Hc1) as (w2 & r & H2 & Hc2 & Hq2).
  rewrite H2, Hq2. unchanged.
Qed.

Lemma Close_quiet w s :
  calm w ->
  exists w1 s1 r,
    Close w s = (w1, s1, r) /\ calm w1 /\ Close (quiet w) s = (quiet w1, s1, r).
Proof.
  intros Hc. unfold Close. destruct (mutex s); [unchanged|]. cbv zeta.
  destruct (Flush_quiet w (File (Lock s)) (buffer (Lock s)) Hc)
    as (w1 & f1 & b1 & e & H & Hc1 & Hq).
  rewrite H, Hq. destruct e; [unchanged|].
  destruct (os_Close_quiet w1 f1 Hc1) as (w2 & f2 & e & H2 & Hc2 & Hq2).
  rewrite H2, Hq2. unchanged.
Qed.

Lemma newStore_quiet w f :
  calm w ->
  exists w1 r,
    newStore w f = (w1, r) /\ calm w1 /\ newStore (quiet w) f = (quiet w1, r).
Proof.
  intros Hc. unfold newStore.
  destruct (os_Stat_quiet w Hc) as (w1 & r & H & Hc1 & Hq). rewrite H, Hq.
  destruct r; unchanged.
Qed.

Lemma openFile_quiet w :
  calm w ->
  exists w1 r,
    openFile w = (w1, r) /\ calm w1 /\ openFile (quiet w) = (quiet w1, r).
Proof.
  intros Hc. unfold openFile.
  destruct (syscall_quiet w Hc) as (Hs & Hc' & Hd). rewrite Hs.
  change (syscall (quiet w)) with (@None fault, quiet w). cbv beta iota.
  destruct (os_Stat_quiet (snd (syscall w)) Hc') as (w1 & r & H & Hc1 & Hq).
  assert (Hqq : quiet (snd (syscall w)) = quiet w) by (unfold quiet; now rewrite Hd).
  rewrite Hqq in Hq. rewrite H, Hq.
  destruct r; unchanged.
Qed.

Lemma testAppend_from_quiet k : forall i w s,
  calm w ->
  exists w1 s1 ok,
    testAppend_from k i w s = (w1, s1, ok) /\ calm w1 /\
    testAppend_from k i (quiet w) s = (quiet w1, s1, ok).
Proof.
  induction k as [|k IH]; intros i w s Hc; [unchanged|].
  cbn [testAppend_from].
  destruct (Append_quiet w s testData Hc) as (w1 & s1 & r & H & Hc1 & Hq).
  rewrite H, Hq.
  destruct r as [[[n pos] [e|]]| |]; try (unchanged; fail).
  destruct (uint64 (pos + n) =? uint64 (testDataLength * i)); [|unchanged].
  apply IH, Hc1.
Qed.

Lemma testRead_from_quiet k : forall pos w s,
  calm w ->
  exists w1 s1 ok,
    testRead_from k pos w s = (w1, s1, ok) /\ calm w1 /\
    testRead_from k pos (quiet w) s = (quiet w1, s1, ok).
Proof.
  induction k as [|k IH]; intros pos w s Hc; [unchanged|].
  cbn [testRead_from].
  destruct (Read_quiet w s pos Hc) as (w1 & s1 & r & H & Hc1 & Hq).
  rewrite H, Hq.
  destruct r as [[read [e|]]| |]; try (unchanged; fail).
  destruct (bytes_equal testData read); [|unchanged].
  apply IH, Hc1.
Qed.

Lemma testReadAt_from_quiet k : forall offset w s,
  calm w ->
  exists w1 s1 ok,
    testReadAt_from k offset w s = (w1, s1, ok) /\ calm w1 /\
    testReadAt_from k offset (quiet w) s = (quiet w1, s1, ok).
Proof.
  induction k as [|k IH]; intros offset w s Hc; [unchanged|].
  cbn [testReadAt_from].
  change (make dataLengthWeightInBytes) with (Some (repeat x00 8)). cbv beta iota.
  destruct (ReadAt_quiet w s (repeat x00 8) offset Hc) as (w1 & s1 & r & H & Hc1 & Hq).
  rewrite H, Hq.
  destruct r as [[[b n] [e|]]| |]; try (unchanged; fail).
  destruct (n =? dataLengthWeightInBytes); [|unchanged].
  destruct (BigEndian.Uint64 b) as [size|]; [|unchanged].
  destruct (make size) as [b2|]; [|unchanged].
  destruct (ReadAt_quiet w1 s1 b2 (int64 (offset + n)) Hc1)
    as (w2 & s2 & r2 & H2 & Hc2 & Hq2).
  rewrite H2, Hq2.
  destruct r2 as [[[b3 n3] [e|]]| |]; try (unchanged; fail).
  destruct (bytes_equal testData b3 && (int64 size =? n3)); [|unchanged].
  apply IH, Hc2.
Qed.

Lemma TestStoreAppendRead_quiet faults :
  Forall (fun x => x = None) faults ->
  TestStoreAppendRead faults = TestStoreAppendRead [].
Proof.
  intros Hc. unfold TestStoreAppendRead, CreateTemp.
  change (mkWorld [] []) with (quiet (mkWorld [] faults)).
  assert (Hc0 : calm (mkWorld [] faults)) by exact Hc.
  destruct (newStore_quiet (mkWorld [] faults) (mkFile 0 false false) Hc0)
    as (w1 & r & H & Hc1 & Hq).
  rewrite H, Hq. destruct r as [s|e]; [|reflexivity].
  unfold testAppend, testRead, testReadAt.
  destruct (testAppend_from_quiet 3 1 w1 s Hc1) as (w2 & s2 & ok1 & H2 & Hc2 & Hq2).
  rewrite H2, Hq2.
  destruct (testRead_from_quiet 3 0 w2 s2 Hc2) as (w3 & s3 & ok2 & H3 & Hc3 & Hq3).
  rewrite H3, Hq3.
  destruct (testReadAt_from_quiet 3 0 w3 s3 Hc3) as (w4 & s4 & ok3 & H4 & Hc4 & Hq4).
  rewrite H4, Hq4.
  destruct (newStore_quiet w4 (File s4) Hc4) as (w5 & r5 & H5 & Hc5 & Hq5).
  rewrite H5, Hq5. destruct r5 as [s5|e]; [|reflexivity].
  destruct (testRead_from_quiet 3 0 w5 s5 Hc5) as (w6 & s6 & ok4 & H6 & Hc6 & Hq6).
  rewrite H6, Hq6. reflexivity.
Qed.

Lemma TestStoreClose_quiet faults :
  Forall (fun x => x = None) faults ->
  TestStoreClose faults = TestStoreClose [].
Proof.
  intros Hc. unfold TestStoreClose, CreateTemp.
  change (mkWorld [] []) with (quiet (mkWorld [] faults)).
  assert (Hc0 : calm (mkWorld [] faults)) by exact Hc.
  destruct (newStore_quiet (mkWorld [] faults) (mkFile 0 false false) Hc0)
    as (w1 & r & H & Hc1 & Hq).
  rewrite H, Hq. destruct r as [s|e]; [|reflexivity].
  destruct (Append_quiet w1 s testData Hc1) as (w2 & s2 & r2 & H2 & Hc2 & Hq2).
  rewrite H2, Hq2. destruct r2 as [[[n pos] [e|]]| |]; try reflexivity.
  destruct (openFile_quiet w2 Hc2) as (w3 & r3 & H3 & Hc3 & Hq3).
  rewrite H3, Hq3. destruct r3 as [[f3 before]|e]; [|reflexivity].
  destruct (Close_quiet w3 s2 Hc3) as (w4 & s4 & r4 & H4 & Hc4 & Hq4).
  rewrite H4, Hq4. destruct r4 as [[e|]| |]; try reflexivity.
  destruct (openFile_quiet w4 Hc4) as (w5 & r5 & H5 & Hc5 & Hq5).
  rewrite H5, Hq5. reflexivity.
Qed.

End Quiet.

(** ** What the reads return is in the store *)

Section ReadsSound.
Import Go os bufio log.

Lemma Z_of_byte_nonneg b : 0 <= Z_of_byte b.
Proof. unfold Z_of_byte. lia. Qed.

Lemma Uint64_nonneg l n : BigEndian.Uint64 l = Some n -> 0 <= n.
Proof.
  unfold BigEndian.Uint64.
  destruct l as [|b0 [|b1 [|b2 [|b3 [|b4 [|b5 [|b6 [|b7 l]]]]]]]]; try discriminate.
  intros H.
  apply (f_equal (fun o => match o with Some v => v | None => 0 end)) in H.
  cbv beta iota in H. subst n.
  repeat (apply Z.lor_nonneg; split);
    try (apply Z.shiftl_nonneg); apply Z_of_byte_nonneg.
Qed.

Lemma firstn_prefix {A} k m (X : list A) :
  firstn (length (firstn k (firstn m X))) X = firstn k (firstn m X).
Proof.
  rewrite firstn_firstn, length_firstn.
  destruct (Nat.le_ge_cases (Nat.min k m) (length X)) as [H|H].
  - now rewrite Nat.min_l by exact H.
  - rewrite Nat.min_r by exact H. now rewrite firstn_all, firstn_all2 by exact H.
Qed.

(** A positional read copies to the start of the slice bytes that are in
    the file at the offset, and nothing else; without an error it fills
    the slice. *)
Lemma os_ReadAt_sound w f b off w1 b' n e :
  os.ReadAt w f b off = (w1, (b', n, e)) ->
  exists got,
    b' = got ++ skipn (length got) b /\ n = len got /\
    (length got <= length b)%nat /\
    got = bytes_at (disk w) off (length got) /\
    (got <> [] -> 0 <= off) /\
    (e = None -> length got = length b).
Proof.
  unfold os.ReadAt, bytes_at.
  destruct (Z.ltb_spec off 0) as [Hneg|Hoff].
  { intros [= _ <- <- <-]. exists []. repeat split; auto; try discriminate.
    - apply Nat.le_0_l.
    - congruence. }
  destruct (Z.eqb_spec (len b) 0) as [Hz|Hnz].
  { intros [= _ <- <- <-]. exists []. repeat split; auto.
    - apply Nat.le_0_l.
    - intros _. apply len_zero_nil in Hz. now subst b. }
  destruct (closed f).
  { intros [= _ <- <- <-]. exists []. repeat split; auto; try discriminate.
    apply Nat.le_0_l. }
  pose proof (syscall_disk w) as Hs. destruct (syscall w) as [flt w0]. simpl in Hs.
  destruct (maxFileSize <? off + len b).
  { intros [= _ <- <- <-]. exists []. repeat split; auto; try discriminate.
    apply Nat.le_0_l. }
  rewrite Hs.
  set (X := skipn (Z.to_nat off) (disk w)).
  assert (Hthere : exists m, (if off <? len (disk w) then firstn (length b) X else [])
                             = firstn m (firstn (length b) X)).
  { destruct (off <? len (disk w)); [exists (length b); now rewrite firstn_firstn, Nat.min_id|].
    exists 0%nat. reflexivity. }
  destruct Hthere as [m ->].
  destruct flt as [[k e0]|].
  - intros [= _ <- <- <-].
    exists (firstn k (firstn m (firstn (length b) X))).
    rewrite !firstn_firstn.
    split; [reflexivity|]. split; [reflexivity|]. split.
    { rewrite length_firstn. lia. }
    split.
    { rewrite <- (firstn_firstn X (Nat.min k m) (length b)) at 1.
      symmetry. rewrite <- firstn_firstn. apply firstn_prefix. }
    split; [intros _; exact Hoff|discriminate].
  - intros [= _ <- <- <-].
    exists (firstn m (firstn (length b) X)).
    split; [reflexivity|]. split; [reflexivity|]. split.
    { rewrite firstn_firstn, length_firstn. lia. }
    split; [symmetry; apply firstn_prefix|].
    split; [intros _; exact Hoff|].
    destruct (Z.ltb_spec (len (firstn m (firstn (length b) X))) (len b)) as [|Hge];
      [discriminate|].
    intros _. rewrite firstn_firstn, length_firstn in *. unfold len in Hge.
    rewrite length_firstn in Hge. lia.
Qed.

(** The bytes at an offset, when as many are there, split the list. *)
Lemma bytes_at_split l off k :
  0 <= off -> length (bytes_at l off k) = k ->
  l = firstn (Z.to_nat off) l ++ bytes_at l off k
        ++ skipn (Z.to_nat off + k) l /\
  (k <> 0%nat -> len (firstn (Z.to_nat off) l) = off) /\
  off + Z.of_nat k <= len l \/ k = 0%nat.
Proof.
  intros Hoff Hk. unfold bytes_at in *.
  destruct k as [|k]; [now right|]. left.
  rewrite length_firstn, length_skipn in Hk.
  split; [|split].
  - rewrite <- (firstn_skipn (Z.to_nat off) l) at 1. f_equal.
    rewrite <- (firstn_skipn (S k) (skipn (Z.to_nat off) l)) at 1. f_equal.
    now rewrite skipn_skipn, Nat.add_comm.
  - intros _. unfold len. rewrite length_firstn. lia.
  - unfold len. lia.
Qed.

End ReadsSound.

(** ** Goroutines calling any method *)

Section CallersLemmas.
Import Go os bufio log Callers.

Lemma finish_done k w s g :
  returned g <> None -> finish k w s g = (w, s, g).
Proof.
  intros H. induction k as [|k IH]; [reflexivity|]. cbn [finish].
  unfold statement. unfold returned in H. destruct (now g); congruence.
Qed.

(** The statements between [Lock] and the return are the body of the
    method. *)
Lemma finish_perform w s m :
  mutex s = false ->
  exists w1 s1 r,
    perform w s m = (w1, s1, r) /\
    finish 5 w (Lock s) (mkGoroutine m (enter m)) = (w1, s1, mkGoroutine m (Done r)).
Proof.
  intros Hm. destruct m as [d|p|data off|].
  - unfold perform, Append. rewrite Hm.
    cbn [finish statement now calling enter Lock File buffer fileSize mutex].
    destruct (binary.Write w (File s) (buffer s) (uint64 (len d)))
      as [[[w1 f1] b1] [e|]];
      cbn [statement now calling File buffer fileSize mutex returns Unlock]; [eauto|].
    destruct (bufio.Write w1 f1 b1 d) as [[[w2 f2] b2] [wn [e|]]];
      cbn [statement now calling File buffer fileSize mutex Unlock returns]; eauto.
  - unfold perform, Read. rewrite Hm.
    cbn [finish statement now calling enter Lock File buffer fileSize mutex].
    destruct (Flush w (File s) (buffer s)) as [[[w1 f1] b1] [e|]];
      cbn [statement now calling File buffer fileSize mutex returns Unlock]; [eauto|].
    destruct (make dataLengthWeightInBytes) as [l0|];
      cbn [statement now calling File buffer fileSize mutex returns Unlock]; [|eauto].
    destruct (os.ReadAt w1 f1 l0 (int64 p)) as [w2 [[l k] [e|]]];
      cbn [statement now calling File buffer fileSize mutex returns Unlock]; [eauto|].
    destruct (enc.Uint64 l) as [n|];
      cbn [statement now calling File buffer fileSize mutex returns Unlock]; [|eauto].
    destruct (make n) as [b|];
      cbn [statement now calling File buffer fileSize mutex returns Unlock]; [|eauto].
    destruct (os.ReadAt w2 f1 b _) as [w3 [[b' k'] [e|]]];
      cbn [statement now calling File buffer fileSize mutex returns Unlock]; eauto.
  - unfold perform, ReadAt. rewrite Hm.
    cbn [finish statement now calling enter Lock File buffer fileSize mutex].
    destruct (Flush w (File s) (buffer s)) as [[[w1 f1] b1] [e|]];
      cbn [statement now calling File buffer fileSize mutex returns Unlock]; [eauto|].
    destruct (os.ReadAt w1 f1 data off) as [w2 r];
      cbn [statement now calling File buffer fileSize mutex returns Unlock]; eauto.
  - unfold perform, Close. rewrite Hm.
    cbn [finish statement now calling enter Lock File buffer fileSize mutex].
    destruct (Flush w (File s) (buffer s)) as [[[w1 f1] b1] [e|]];
      cbn [statement now calling File buffer fileSize mutex returns Unlock]; [eauto|].
    destruct (os.Close w1 f1) as [[w2 f2] e];
      cbn [statement now calling File buffer fileSize mutex returns Unlock]; eauto.
Qed.

Lemma inside_waiting g : inside g = true -> returned g = None.
Proof. unfold inside, returned. now destruct (now g). Qed.

(** A statement inside a method brings the return nearer; only the
    deferred [Unlock] changes the mutex. *)
Lemma statement_inside w s g :
  inside g = true ->
  let '(w1, s1, g1) := statement w s g in
  (budget (now g1) < budget (now g))%nat /\ calling g1 = calling g /\
  mutex s1 = (match now g with AtUnlock _ => false | _ => mutex s end) /\
  (match now g with AtUnlock _ => returned g1 <> None | _ => inside g1 = true end).
Proof.
  unfold inside, statement. intros Hin.
  destruct g as [m [|d|d pos|d pos|pos wn|pos|pos|pos l|d off|d off| | |r|r]];
    try discriminate; cbn [now calling].
  - cbn; repeat split; auto.
  - destruct (binary.Write _ _ _ _) as [[[w1 f1] b1] [e|]]; cbn; repeat split; auto.
  - destruct (bufio.Write _ _ _ _) as [[[w1 f1] b1] [wn [e|]]]; cbn; repeat split; auto.
  - cbn; repeat split; auto.
  - destruct (Flush _ _ _) as [[[w1 f1] b1] [e|]]; cbn; repeat split; auto.
  - destruct (make dataLengthWeightInBytes) as [l0|]; [|cbn; repeat split; auto].
    destruct (os.ReadAt _ _ _ _) as [w1 [[l k] [e|]]]; cbn; repeat split; auto.
  - destruct (enc.Uint64 l) as [n|]; [|cbn; repeat split; auto].
    destruct (make n) as [b|]; [|cbn; repeat split; auto].
    destruct (os.ReadAt _ _ _ _) as [w1 [[b' k] [e|]]]; cbn; repeat split; auto.
  - destruct (Flush _ _ _) as [[[w1 f1] b1] [e|]]; cbn; repeat split; auto.
  - destruct (os.ReadAt _ _ _ _) as [w1 r]; cbn; repeat split; auto.
  - destruct (Flush _ _ _) as [[[w1 f1] b1] [e|]]; cbn; repeat split; auto.
  - destruct (os.Close _ _) as [[w1 f1] e]; cbn; repeat split; auto.
  - cbn; repeat split; auto. discriminate.
Qed.

(** With as many statements as it has left, a goroutine inside its
    method has returned. *)
Lemma finish_returns k : forall w s g,
  inside g = true \/ returned g <> None -> (budget (now g) <= k)%nat ->
  returned (snd (finish k w s g)) <> None.
Proof.
  induction k as [|k IH]; intros w s g Hg Hk.
  - cbn [finish snd]. destruct Hg as [Hin|Hr]; [|exact Hr].
    unfold inside in Hin. destruct (now g); cbn in Hk; try discriminate; lia.
  - destruct Hg as [Hin|Hr]; [|now rewrite finish_done].
    cbn [finish]. pose proof (statement_inside w s g Hin) as X.
    destruct (statement w s g) as [[w1 s1] g1]. destruct X as (Hlt & _ & _ & Hnext).
    apply IH; [|lia].
    destruct (now g); auto.
Qed.

Lemma finish_next k w s g :
  finish (S k) w s g = let '(w1, s1, g1) := statement w s g in finish k w1 s1 g1.
Proof. reflexivity. Qed.

Lemma finish_add k j : forall w s g,
  finish (k + j) w s g = let '(w1, s1, g1) := finish k w s g in finish j w1 s1 g1.
Proof.
  induction k as [|k IH]; intros w s g; [reflexivity|].
  cbn [Nat.add finish]. destruct (statement w s g) as [[w1 s1] g1]. apply IH.
Qed.

(** A goroutine inside its method returns within four more statements,
    so one statement does not change where it ends. *)
Lemma finish_statement_inside w s g :
  inside g = true ->
  let '(w1, s1, g1) := statement w s g in
  finish 5 w1 s1 g1 = finish 5 w s g /\ calling g1 = calling g /\
  mutex s1 = (match now g with AtUnlock _ => false | _ => mutex s end) /\
  (match now g with AtUnlock _ => returned g1 <> None | _ => inside g1 = true end).
Proof.
  intros Hin. pose proof (statement_inside w s g Hin) as X.
  assert (Hb : (budget (now g) <= 5)%nat).
  { unfold inside in Hin. destruct (now g); cbn; try discriminate; lia. }
  rewrite (finish_next 4 w s g).
  destruct (statement w s g) as [[w1 s1] g1] eqn:Hs.
  destruct X as (Hlt & Hc & Hm & Hnext). split; [|auto].
  assert (Hg1 : inside g1 = true \/ returned g1 <> None) by (destruct (now g); auto).
  pose proof (finish_returns 4 w1 s1 g1 Hg1 ltac:(lia)) as Hr.
  change (finish 5 w1 s1 g1) with (finish (4 + 1) w1 s1 g1). rewrite finish_add.
  destruct (finish 4 w1 s1 g1) as [[w2 s2] g2]. now apply finish_done.
Qed.

Lemma performs_app : forall l1 l2 w s,
  performs w s (l1 ++ l2) =
  let '(w1, s1, rs1) := performs w s l1 in
  let '(w2, s2, rs2) := performs w1 s1 l2 in
  (w2, s2, rs1 ++ rs2).
Proof.
  induction l1 as [|m l1 IH]; intros l2 w s.
  - cbn [app performs]. now destruct (performs w s l2) as [[w2 s2] rs2].
  - cbn [app performs]. destruct (perform w s m) as [[w1 s1] r]. rewrite IH.
    destruct (performs w1 s1 l1) as [[w2 s2] rs1].
    now destruct (performs w2 s2 l2) as [[w3 s3] rs2].
Qed.

Lemma performs_length : forall ms w s w1 s1 rs,
  performs w s ms = (w1, s1, rs) -> length rs = length ms.
Proof.
  induction ms as [|m ms IH]; intros w s w1 s1 rs H.
  - now injection H as _ _ <-.
  - cbn [performs] in H. destruct (perform w s m) as [[w' s'] r].
    destruct (performs w' s' ms) as [[w2 s2] rs2] eqn:HR. injection H as _ _ <-.
    cbn [length]. f_equal. eauto.
Qed.

End CallersLemmas.

Section Serialization.
Import Go os bufio log Callers.

Variables (w0 : World) (s0 : store) (ms : list method).

Lemma serialized_spawn :
  mutex s0 = false -> serialized w0 s0 ms (spawn w0 s0 ms) [].
Proof.
  intros Hm.
  assert (Hat : forall i g, nth_error (threads (spawn w0 s0 ms)) i = Some g ->
                            now g = AtLock).
  { intros i g H. apply nth_error_In in H. simpl in H.
    apply in_map_iff in H as (d & <- & _). reflexivity. }
  constructor.
  - simpl. rewrite map_map. simpl. apply map_id.
  - constructor.
  - intros i. split; [intros []|]. intros (g & Hg & Hr).
    apply Hat in Hg. unfold returned in Hr. now rewrite Hg in Hr.
  - exists w0, s0, []. split; [reflexivity|]. split; [exact Hm|]. split.
    + intros [|k] i H; discriminate.
    + left. split; [reflexivity|]. split; [reflexivity|].
      apply Forall_forall. intros g Hg. apply In_nth_error in Hg as [i Hi].
      apply Hat in Hi. unfold inside. now rewrite Hi.
Qed.

(** A goroutine that has not returned moves without returning: the other
    goroutines, and those that returned, are as before. *)
Lemma waiting_update ths i (g g' : goroutine) :
  nth_error ths i = Some g -> returned g = None -> returned g' = None ->
  calling g' = calling g ->
  map calling (Goroutines.set_nth i g' ths) = map calling ths /\
  (forall k, (exists g0, nth_error (Goroutines.set_nth i g' ths) k = Some g0 /\
                         returned g0 <> None)
         <-> (exists g0, nth_error ths k = Some g0 /\ returned g0 <> None)) /\
  (forall k g0 r, nth_error ths k = Some g0 -> now g0 = Done r ->
                  nth_error (Goroutines.set_nth i g' ths) k = Some g0).
Proof.
  intros Hg Hr Hr' Hd. split; [now apply map_set_nth with g|]. split.
  - intros k. destruct (Nat.eq_dec i k) as [<-|Hne].
    + rewrite (nth_error_set_nth_eq _ _ _ _ Hg), Hg.
      split; intros (g0 & [= <-] & H); congruence.
    + now rewrite nth_error_set_nth_neq.
  - intros k g0 r Hk Hdone. destruct (Nat.eq_dec i k) as [<-|Hne].
    + rewrite Hg in Hk. injection Hk as <-. unfold returned in Hr.
      now rewrite Hdone in Hr.
    + now rewrite nth_error_set_nth_neq.
Qed.

Lemma step_nothing i sys g :
  nth_error (threads sys) i = Some g ->
  statement (world sys) (shared sys) g = (world sys, shared sys, g) ->
  step i sys = sys.
Proof.
  intros Hg Hs. unfold step. rewrite Hg, Hs, (set_nth_same _ _ _ Hg).
  now destruct sys.
Qed.

Lemma released_by i sys g :
  nth_error (threads sys) i = Some g ->
  released i sys = match now g with AtUnlock _ => [i] | _ => [] end.
Proof. unfold released. intros ->. now destruct g. Qed.

Lemma call_nth sys i g :
  map calling (threads sys) = ms -> nth_error (threads sys) i = Some g ->
  nth i ms CallClose = calling g.
Proof.
  intros <- Hg. apply nth_error_nth. now apply map_nth_error.
Qed.

(** The goroutine [i] takes the free mutex. *)
Lemma serialized_acquire sys order i g :
  serialized w0 s0 ms sys order ->
  nth_error (threads sys) i = Some g -> now g = AtLock ->
  mutex (shared sys) = false ->
  serialized w0 s0 ms
    (mkSystem (world sys) (Lock (shared sys))
       (Goroutines.set_nth i (mkGoroutine (calling g) (enter (calling g))) (threads sys)))
    order.
Proof.
  intros [Hdata Hnd Hdone (wl & sl & rs & Happ & Hml & Hres & Hst)] Hg Hnow Hmx.
  destruct Hst as [(Hw & Hs & Hall)|(j & gj & _ & _ & Hmj & _)]; [|congruence].
  assert (Hr : returned g = None) by (unfold returned; now rewrite Hnow).
  assert (Hin' : inside (mkGoroutine (calling g) (enter (calling g))) = true)
    by (now destruct (calling g)).
  destruct (waiting_update (threads sys) i g (mkGoroutine (calling g) (enter (calling g))) Hg Hr
              (inside_waiting _ Hin') eq_refl) as (U1 & U2 & U3).
  constructor; cbn [threads world shared].
  - now rewrite U1.
  - exact Hnd.
  - intros k. now rewrite U2.
  - exists wl, sl, rs. split; [exact Happ|]. split; [exact Hml|]. split.
    + intros k i' Hk. destruct (Hres k i' Hk) as (g0 & r & H1 & H2 & H3).
      exists g0, r. eauto.
    + right. exists i, (mkGoroutine (calling g) (enter (calling g))).
      split; [now apply nth_error_set_nth_eq with g|]. split; [exact Hin'|].
      split; [reflexivity|]. split.
      * intros i' g' Hne Hi'. rewrite nth_error_set_nth_neq in Hi' by congruence.
        rewrite Forall_forall in Hall. apply Hall. now apply nth_error_In with i'.
      * rewrite Hw, Hs. cbn [calling]. exact (finish_perform wl sl (calling g) Hml).
Qed.

(** The goroutine that holds the mutex runs a statement of the body. *)
Lemma serialized_progress sys order i g w' s' g' :
  serialized w0 s0 ms sys order ->
  nth_error (threads sys) i = Some g -> inside g = true ->
  statement (world sys) (shared sys) g = (w', s', g') ->
  (forall r, now g <> AtUnlock r) ->
  serialized w0 s0 ms (mkSystem w' s' (Goroutines.set_nth i g' (threads sys))) order.
Proof.
  intros [Hdata Hnd Hdone (wl & sl & rs & Happ & Hml & Hres & Hst)] Hg Hin Hstm Hnot.
  destruct Hst as [(_ & _ & Hall)|(j & gj & Hj & Hinj & Hmx & Hothers & w1 & s1 & r & HA & Hfin)].
  { rewrite Forall_forall in Hall. apply nth_error_In in Hg. apply Hall in Hg. congruence. }
  assert (i = j) as <-.
  { destruct (Nat.eq_dec i j) as [|Hne]; [assumption|].
    specialize (Hothers i g Hne Hg). congruence. }
  rewrite Hg in Hj. injection Hj as <-.
  pose proof (finish_statement_inside (world sys) (shared sys) g Hin) as X.
  rewrite Hstm in X. destruct X as (Hf & Hd & Hm' & Hnext).
  assert (Hin' : inside g' = true /\ mutex s' = mutex (shared sys)).
  { destruct (now g); try (split; assumption). now destruct (Hnot r0). }
  destruct Hin' as [Hin' Hms].
  destruct (waiting_update (threads sys) i g g' Hg (inside_waiting _ Hin)
              (inside_waiting _ Hin') Hd) as (U1 & U2 & U3).
  constructor; cbn [threads world shared].
  - now rewrite U1.
  - exact Hnd.
  - intros k. now rewrite U2.
  - exists wl, sl, rs. split; [exact Happ|]. split; [exact Hml|]. split.
    + intros k i' Hk. destruct (Hres k i' Hk) as (g0 & r0 & H1 & H2 & H3).
      exists g0, r0. eauto.
    + right. exists i, g'.
      split; [now apply nth_error_set_nth_eq with g|]. split; [exact Hin'|].
      split; [congruence|]. split.
      * intros i' g0 Hne Hi'. rewrite nth_error_set_nth_neq in Hi' by congruence.
        eauto.
      * exists w1, s1, r. rewrite Hd, Hf. auto.
Qed.

(** The goroutine that holds the mutex releases it: its call takes its
    place after the calls of [order]. *)
Lemma serialized_release sys order i g r0 :
  serialized w0 s0 ms sys order ->
  nth_error (threads sys) i = Some g -> now g = AtUnlock r0 ->
  serialized w0 s0 ms
    (mkSystem (world sys) (Unlock (shared sys))
       (Goroutines.set_nth i (mkGoroutine (calling g) (Done r0)) (threads sys)))
    (order ++ [i]).
Proof.
  intros [Hdata Hnd Hdone (wl & sl & rs & Happ & Hml & Hres & Hst)] Hg Hnow.
  assert (Hin : inside g = true) by (unfold inside; now rewrite Hnow).
  destruct Hst as [(_ & _ & Hall)|(j & gj & Hj & Hinj & Hmx & Hothers & w1 & s1 & r & HA & Hfin)].
  { rewrite Forall_forall in Hall. apply nth_error_In in Hg. apply Hall in Hg. congruence. }
  assert (i = j) as <-.
  { destruct (Nat.eq_dec i j) as [|Hne]; [assumption|].
    specialize (Hothers i g Hne Hg). congruence. }
  rewrite Hg in Hj. injection Hj as <-.
  assert (Hfin' : (world sys, Unlock (shared sys), mkGoroutine (calling g) (Done r0))
                  = (w1, s1, mkGoroutine (calling g) (Done r))).
  { rewrite <- Hfin. destruct g as [d pcg]. simpl in Hnow. subst pcg.
    cbn [finish statement now calling]. reflexivity. }
  injection Hfin' as Hw1 Hs1 Hr. subst r0.
  assert (Hnotin : ~ In i order).
  { intros Hi. apply Hdone in Hi as (g0 & Hg0 & Hret). rewrite Hg in Hg0.
    injection Hg0 as <-. now rewrite (inside_waiting _ Hin) in Hret. }
  set (g' := mkGoroutine (calling g) (Done r)).
  assert (Hlen : length rs = length order).
  { apply performs_length in Happ. now rewrite length_map in Happ. }
  constructor; cbn [threads world shared].
  - rewrite (map_set_nth calling i g' g _ Hg eq_refl). exact Hdata.
  - apply NoDup_app; [exact Hnd|repeat constructor; intros []|].
    intros a Ha [<-|[]]. contradiction.
  - intros k. rewrite in_app_iff. destruct (Nat.eq_dec i k) as [<-|Hne].
    + rewrite (nth_error_set_nth_eq _ _ _ _ Hg). split; [|simpl; auto].
      intros _. exists g'. split; [reflexivity|discriminate].
    + rewrite nth_error_set_nth_neq by exact Hne. rewrite <- Hdone.
      split; [intros [H|[H|[]]]; [exact H|contradiction]|auto].
  - exists w1, s1, (rs ++ [r]). split; [|split; [|split]].
    + rewrite map_app, performs_app, Happ. cbn [map performs].
      rewrite (call_nth sys i g Hdata Hg), HA. reflexivity.
    + now rewrite <- Hs1.
    + intros k i' Hk. destruct (Nat.lt_ge_cases k (length order)) as [Hlt|Hge].
      * rewrite nth_error_app1 in Hk by exact Hlt.
        destruct (Hres k i' Hk) as (g0 & r1 & H1 & H2 & H3).
        exists g0, r1. split; [|split; [exact H2|]].
        -- rewrite nth_error_set_nth_neq; [exact H1|].
           intros <-. rewrite Hg in H1. injection H1 as <-. congruence.
        -- rewrite nth_error_app1 by lia. exact H3.
      * rewrite nth_error_app2 in Hk by exact Hge.
        destruct (k - length order)%nat as [|m] eqn:Hk0; [|destruct m; discriminate].
        injection Hk as <-. exists g', r.
        split; [now apply nth_error_set_nth_eq with g|]. split; [reflexivity|].
        rewrite nth_error_app2 by lia. replace (k - length rs)%nat with 0%nat by lia.
        reflexivity.
    + left. split; [exact Hw1|]. split; [exact Hs1|].
      apply Forall_forall. intros g0 Hg0. apply In_nth_error in Hg0 as [k Hk].
      destruct (Nat.eq_dec i k) as [<-|Hne].
      * rewrite (nth_error_set_nth_eq _ _ _ _ Hg) in Hk. now injection Hk as <-.
      * rewrite nth_error_set_nth_neq in Hk by exact Hne. eauto.
Qed.

(** Every step keeps the system serialized. *)
Lemma serialized_step sys order i :
  serialized w0 s0 ms sys order ->
  serialized w0 s0 ms (step i sys) (order ++ released i sys).
Proof.
  intros Hlin.
  destruct (nth_error (threads sys) i) as [g|] eqn:Hg.
  2:{ unfold step, released. rewrite Hg, app_nil_r. exact Hlin. }
  rewrite (released_by _ _ _ Hg).
  destruct (inside g) eqn:Hin.
  - destruct (now g) as [|d|d pos|d pos|pos wn|pos|pos|pos l|d off|d off| | |r|r] eqn:Hnow;
      try (unfold inside in Hin; rewrite Hnow in Hin; discriminate);
      try (rewrite app_nil_r; unfold step; rewrite Hg;
           destruct (statement (world sys) (shared sys) g) as [[w' s'] g'] eqn:Hs;
           apply serialized_progress with g; auto; congruence).
    unfold step. rewrite Hg. unfold statement. rewrite Hnow.
    now apply serialized_release.
  - assert (Hidle : statement (world sys) (shared sys) g = (world sys, shared sys, g) ->
                    serialized w0 s0 ms (step i sys)
                      (order ++ match now g with AtUnlock _ => [i] | _ => [] end)).
    { intros Hs. rewrite (step_nothing _ _ _ Hg Hs).
      unfold inside in Hin. destruct (now g); rewrite ?app_nil_r; try exact Hlin.
      discriminate. }
    unfold inside in Hin.
    destruct (now g) as [|d|d pos|d pos|pos wn|pos|pos|pos l|d off|d off| | |r|r] eqn:Hnow;
      try discriminate.
    + destruct (mutex (shared sys)) eqn:Hmx.
      * apply Hidle. unfold statement. now rewrite Hnow, Hmx.
      * rewrite app_nil_r. unfold step. rewrite Hg. unfold statement.
        rewrite Hnow, Hmx. now apply serialized_acquire.
    + apply Hidle. unfold statement. now rewrite Hnow.
Qed.

Lemma serialized_run sched : forall sys order,
  serialized w0 s0 ms sys order ->
  serialized w0 s0 ms (run sched sys) (order ++ releases sched sys).
Proof.
  induction sched as [|i rest IH]; intros sys order Hlin.
  - simpl. now rewrite app_nil_r.
  - cbn [releases run]. rewrite app_assoc. apply IH. now apply serialized_step.
Qed.

End Serialization.

Section Serialized.
Import Go os bufio log Callers.

(** When every goroutine has returned, the system is in the state that
    the whole calls, in the order of the releases of the mutex, lead to. *)
Lemma serialized_done w s ms sys order :
  serialized w s ms sys order -> all_done sys ->
  Permutation order (seq 0 (length ms)) /\
  performs w s (map (fun i => nth i ms CallClose) order)
  = (world sys, shared sys, map (result_of (threads sys)) order).
Proof.
  intros [Hdata Hnd Hdone (wl & sl & rs & Happ & Hml & Hres & Hst)] Hall.
  unfold all_done in Hall. rewrite Forall_forall in Hall.
  assert (Hlen : length (threads sys) = length ms) by (now rewrite <- Hdata, length_map).
  split.
  - apply NoDup_Permutation; [exact Hnd|apply seq_NoDup|].
    intros i. rewrite in_seq, Hdone. split.
    + intros (g & Hg & _). apply nth_error_Some_lt in Hg. lia.
    + intros [_ Hi]. destruct (nth_error (threads sys) i) as [g|] eqn:Hg.
      * exists g. split; [reflexivity|]. apply Hall. now apply nth_error_In with i.
      * apply nth_error_None in Hg. simpl in Hi. lia.
  - destruct Hst as [(-> & -> & _)|(j & g & Hj & Hin & _)].
    2:{ apply nth_error_In in Hj. apply Hall in Hj.
        now rewrite (inside_waiting _ Hin) in Hj. }
    rewrite Happ. f_equal.
    apply nth_error_ext. intros k. rewrite nth_error_map.
    destruct (nth_error order k) as [i|] eqn:Hk.
    + destruct (Hres k i Hk) as (g & r & Hg & Hnow & ->). simpl. f_equal.
      unfold result_of, returned. now rewrite Hg, Hnow.
    + simpl. apply nth_error_None. apply nth_error_None in Hk.
      apply performs_length in Happ. rewrite length_map in Happ. lia.
Qed.

(** At every moment at most one goroutine is inside a method. *)
Lemma serialized_exclusive w s ms sys order i j gi gj :
  serialized w s ms sys order ->
  nth_error (threads sys) i = Some gi -> nth_error (threads sys) j = Some gj ->
  inside gi = true -> inside gj = true -> i = j.
Proof.
  intros [_ _ _ (wl & sl & rs & _ & _ & _ & Hst)] Hi Hj Hini Hinj.
  destruct Hst as [(_ & _ & Hall)|(k & g & _ & _ & _ & Hothers & _)].
  - rewrite Forall_forall in Hall. apply nth_error_In in Hi. apply Hall in Hi. congruence.
  - destruct (Nat.eq_dec i k) as [->|Hik];
      [|specialize (Hothers i gi Hik Hi); congruence].
    destruct (Nat.eq_dec j k) as [->|Hjk]; [reflexivity|].
    specialize (Hothers j gj Hjk Hj). congruence.
Qed.

End Serialized.

(** ** A read beside the appends *)

Section ReadBesideAppends.
Import Go os bufio log Callers.

Lemma perform_call w s m w1 s1 r :
  valid_method m -> perform w s m = (w1, s1, r) -> call (w, s) (w1, s1).
Proof.
  destruct m as [d|p|data off|]; cbn [valid_method perform]; intros Hv H.
  - destruct (Append w s d) as [[w' s'] r'] eqn:HA. injection H as <- <- _.
    exact (call_Append _ _ _ _ _ _ Hv HA).
  - destruct (Read w s p) as [[w' s'] r'] eqn:HA. injection H as <- <- _.
    exact (call_Read _ _ _ _ _ _ HA).
  - destruct (ReadAt w s data off) as [[w' s'] r'] eqn:HA. injection H as <- <- _.
    exact (call_ReadAt _ _ _ _ _ _ _ HA).
  - destruct (Close w s) as [[w' s'] r'] eqn:HA. injection H as <- <- _.
    exact (call_Close _ _ _ _ _ HA).
Qed.

Lemma performs_calls : forall ms w s w1 s1 rs,
  Forall valid_method ms -> performs w s ms = (w1, s1, rs) ->
  calls (w, s) (w1, s1).
Proof.
  induction ms as [|m ms IH]; intros w s w1 s1 rs Hv H.
  - injection H as <- <- _. apply calls_nil.
  - inversion Hv as [|? ? Hm Hv']; subst. cbn [performs] in H.
    destruct (perform w s m) as [[w' s'] r] eqn:HP.
    destruct (performs w' s' ms) as [[w2 s2] rs2] eqn:HR. injection H as <- <- _.
    apply calls_cons with (w', s'); [exact (perform_call _ _ _ _ _ _ Hm HP)|eauto].
Qed.

(** The run up to the call of index [k], the call, and the rest. *)
Lemma performs_split : forall ms k m w s w1 s1 rs,
  nth_error ms k = Some m -> performs w s ms = (w1, s1, rs) ->
  exists wk sk rsk wk' sk' r rs',
    performs w s (firstn k ms) = (wk, sk, rsk) /\
    perform wk sk m = (wk', sk', r) /\
    performs wk' sk' (skipn (S k) ms) = (w1, s1, rs') /\
    rs = rsk ++ r :: rs' /\ length rsk = k.
Proof.
  induction ms as [|m0 ms IH]; intros [|k] m w s w1 s1 rs Hk H; try discriminate.
  - injection Hk as ->. cbn [performs firstn skipn] in *.
    destruct (perform w s m) as [[w' s'] r] eqn:HP.
    destruct (performs w' s' ms) as [[w2 s2] rs2] eqn:HR. injection H as <- <- <-.
    exists w, s, [], w', s', r, rs2. auto.
  - cbn [nth_error] in Hk. cbn [performs firstn skipn] in *.
    destruct (perform w s m0) as [[w' s'] r0] eqn:HP.
    destruct (performs w' s' ms) as [[w2 s2] rs2] eqn:HR. injection H as <- <- <-.
    destruct (IH k m w' s' w2 s2 rs2 Hk HR)
      as (wk & sk & rsk & wk' & sk' & r & rs' & H1 & H2 & H3 & H4 & H5).
    exists wk, sk, (r0 :: rsk), wk', sk', r, rs'. rewrite H1.
    split; [reflexivity|]. split; [exact H2|]. split; [exact H3|].
    split; [now rewrite H4|cbn [length]; now rewrite H5].
Qed.

Lemma Forall_firstn {A} (P : A -> Prop) k l : Forall P l -> Forall P (firstn k l).
Proof.
  intros H. rewrite <- (firstn_skipn k l) in H. now apply Forall_app in H.
Qed.

Lemma Forall_skipn {A} (P : A -> Prop) k l : Forall P l -> Forall P (skipn k l).
Proof.
  intros H. rewrite <- (firstn_skipn k l) in H. now apply Forall_app in H.
Qed.

Lemma skipn_nth_cons {A} k (l : list A) x :
  nth_error l k = Some x -> skipn k l = x :: skipn (S k) l.
Proof.
  intros H. apply (app_inv_head (firstn k l)).
  now rewrite firstn_skipn, (firstn_skipn_middle k l H).
Qed.

Lemma calls_store_inv st st1 :
  calls st st1 -> store_inv (fst st) (snd st) -> store_inv (fst st1) (snd st1).
Proof. intros Hc Hinv. exact (proj1 (calls_inv _ _ Hc Hinv)). Qed.

(** A successful [Append] leaves its record at the position it returns,
    also when the file is closed. *)
Lemma Append_record_inv w s d w1 s1 n p :
  store_inv w s -> Append w s d = (w1, s1, Return (n, p, None)) ->
  record_at (logical w1 s1) p d /\ p = len (logical w s).
Proof.
  intros Hinv H.
  destruct (err (buffer s)) as [e0|] eqn:He0.
  { rewrite (Append_stuck w s d e0 (inv_mutex _ _ Hinv) He0) in H. discriminate. }
  destruct (Append_spec _ _ _ _ _ _ H (inv_mutex _ _ Hinv) (inv_end _ _ Hinv))
    as (_ & c & n' & p' & e & [= <- <- <-] & Hg & _ & -> & _ & -> & _).
  destruct Hg as (Hl & _).
  assert (Hp : fileSize s = len (logical w s)).
  { unfold logical. rewrite len_app. exact (inv_size _ _ Hinv He0). }
  split; [|exact Hp].
  exists (logical w s), []. split; [|now rewrite Hp].
  unfold logical. rewrite Hl, app_nil_r. now rewrite app_assoc.
Qed.

(** [Read] on a store whose file is closed returns an error. *)
Lemma Read_closed_fails w s p w1 s1 r :
  mutex s = false -> closed (File s) = true ->
  Read w s p = (w1, s1, r) -> exists e, r = Return ([], Some e).
Proof.
  intros Hm Hc H. rewrite Read_unfold in H by exact Hm.
  destruct (Flush w (File s) (buffer s)) as [[[w' f'] b'] e] eqn:Hf.
  destruct (Flush_closed _ _ _ _ _ _ _ Hc Hf) as [-> ->].
  destruct e as [e|]; [injection H as _ _ <-; eauto|].
  unfold Read_tail in H.
  change (make dataLengthWeightInBytes) with (Some (repeat x00 8)) in H.
  cbv beta iota in H. unfold os.ReadAt in H.
  destruct (int64 p <? 0); [injection H as _ _ <-; eauto|].
  change (len (repeat x00 8) =? 0) with false in H. cbv beta iota in H.
  rewrite Hc in H. injection H as _ _ <-. eauto.
Qed.

(** [Read] at the record of [d] returns [d] or an error, whatever has
    become of the store. *)
Lemma Read_record_inv w s p d w1 s1 r :
  store_inv w s -> record_at (logical w s) p d -> valid d ->
  Read w s p = (w1, s1, r) ->
  r = Return (d, None) \/ exists e, r = Return ([], Some e).
Proof.
  intros Hinv Hrec Hd H.
  destruct (err (buffer s)) as [e0|] eqn:He0.
  { rewrite (Read_stuck w s p e0 (inv_mutex _ _ Hinv) He0) in H.
    injection H as _ _ <-. eauto. }
  destruct (closed (File s)) eqn:Hc.
  { right. exact (Read_closed_fails _ _ _ _ _ _ (inv_mutex _ _ Hinv) Hc H). }
  destruct (Read_found _ _ _ _ _ _ _ (store_inv_ok _ _ Hinv He0 Hc) Hrec Hd H)
    as [[-> _]|He]; auto.
Qed.

(** [Read] at or past the end of the bytes of the store returns an
    error. *)
Lemma Read_beyond_fails w s p w1 s1 r :
  store_inv w s -> len (logical w s) <= p < 2 ^ 64 ->
  Read w s p = (w1, s1, r) -> exists e, r = Return ([], Some e).
Proof.
  intros Hinv Hp H. rewrite Read_unfold in H by apply Hinv.
  destruct (Flush w (File s) (buffer s)) as [[[w' f'] b'] e] eqn:Hf.
  destruct (Flush_spec _ _ _ _ _ _ _ Hf (inv_end _ _ Hinv)) as (Hl & _ & _ & _ & _ & Hnil & _).
  destruct e as [e|]; [injection H as _ _ <-; eauto|].
  specialize (Hnil eq_refl). rewrite Hnil, app_nil_r in Hl.
  unfold Read_tail in H.
  change (make dataLengthWeightInBytes) with (Some (repeat x00 8)) in H.
  cbv beta iota in H.
  destruct (os.ReadAt w' f' (repeat x00 8) (int64 p)) as [w2 [[l k] e]] eqn:H1.
  destruct e as [e|]; [injection H as _ _ <-; eauto|]. exfalso.
  destruct (os_ReadAt_sound _ _ _ _ _ _ _ _ H1) as (got & _ & _ & _ & Hgot & Hoff & Hfull).
  specialize (Hfull eq_refl). change (length (repeat x00 8)) with 8%nat in Hfull.
  assert (Hoff0 : 0 <= int64 p) by (apply Hoff; intros ->; discriminate).
  pose proof (len_nonneg (logical w s)) as Hl0.
  assert (Hp63 : p < 2 ^ 63).
  { destruct (Z.lt_ge_cases p (2 ^ 63)) as [|Hge]; [assumption|]. exfalso.
    unfold int64 in Hoff0.
    replace (p + 2 ^ 63) with (p - 2 ^ 63 + 1 * 2 ^ 64) in Hoff0 by lia.
    rewrite Z_mod_plus_full, Z.mod_small in Hoff0 by lia. lia. }
  rewrite int64_small in Hgot by lia.
  assert (Hlen : length (bytes_at (disk w') p (length got)) = 8%nat)
    by (rewrite <- Hgot; exact Hfull).
  unfold bytes_at in Hlen. rewrite length_firstn, length_skipn, Hl in Hlen.
  unfold logical, len in *. lia.
Qed.

(** In a run of calls, a [Read] at the position that an [Append] of the
    run returned, before or after it, returns the payload of that
    [Append] or an error. *)
Lemma performs_Read_Append ms w s w1 s1 rs i j d n p r :
  store_inv w s -> Forall valid_method ms ->
  performs w s ms = (w1, s1, rs) ->
  nth_error ms i = Some (CallAppend d) ->
  nth_error rs i = Some (Return (FromAppend (n, p, None))) ->
  nth_error ms j = Some (CallRead p) -> nth_error rs j = Some r ->
  r = Return (FromRead (d, None)) \/ exists e, r = Return (FromRead ([], Some e)).
Proof.
  intros Hinv Hv H Hi Hri Hj Hrj.
  assert (Hvd : valid d).
  { rewrite Forall_forall in Hv. exact (Hv _ (nth_error_In _ _ Hi)). }
  destruct (performs_split ms i _ w s w1 s1 rs Hi H)
    as (wi & si & rsi & wi' & si' & ri & rsi' & Pi1 & Pi2 & Pi3 & Pi4 & Pi5).
  destruct (performs_split ms j _ w s w1 s1 rs Hj H)
    as (wj & sj & rsj & wj' & sj' & rj & rsj' & Pj1 & Pj2 & Pj3 & Pj4 & Pj5).
  assert (Hri' : ri = Return (FromAppend (n, p, None))).
  { rewrite Pi4, nth_error_app2, Pi5, Nat.sub_diag in Hri by lia. now injection Hri. }
  assert (Hrj' : rj = r).
  { rewrite Pj4, nth_error_app2, Pj5, Nat.sub_diag in Hrj by lia. now injection Hrj. }
  subst ri rj.
  pose proof (calls_store_inv _ _ (performs_calls _ _ _ _ _ _ (Forall_firstn _ i _ Hv) Pi1) Hinv)
    as Hinvi.
  pose proof (calls_store_inv _ _ (performs_calls _ _ _ _ _ _ (Forall_firstn _ j _ Hv) Pj1) Hinv)
    as Hinvj.
  cbn [fst snd] in Hinvi, Hinvj.
  cbn [perform] in Pi2, Pj2.
  destruct (Append wi si d) as [[wa sa] ra] eqn:HA.
  destruct (Read wj sj p) as [[wr sr] rr] eqn:HR.
  injection Pi2 as <- <- Hra. injection Pj2 as <- <- <-.
  destruct ra as [[[n' p'] e']| |]; try discriminate. injection Hra as -> -> ->.
  destruct (Append_record_inv _ _ _ _ _ _ _ Hinvi HA) as [Hrec Hp].
  assert (Hinva : store_inv wa sa).
  { exact (proj1 (Append_inv _ _ _ _ _ _ Hinvi Hvd HA)). }
  assert (Hshape : rr = Return (d, None) \/ exists e, rr = Return ([], Some e)).
  { destruct (Nat.lt_trichotomy i j) as [Hlt|[Heq|Hgt]].
    - (* the read comes after the append *)
      assert (Hmid : performs wa sa (firstn (j - S i) (skipn (S i) ms))
                     = (wj, sj, skipn (S i) rsj)).
      { assert (Hfj : firstn j ms = firstn i ms ++ CallAppend d
                        :: firstn (j - S i) (skipn (S i) ms)).
        { rewrite <- (firstn_skipn i (firstn j ms)) at 1.
          rewrite firstn_firstn, Nat.min_l by lia. f_equal.
          rewrite skipn_firstn_comm.
          replace (j - i)%nat with (S (j - S i)) by lia.
          rewrite (skipn_nth_cons i ms (CallAppend d) Hi). reflexivity. }
        rewrite Hfj, performs_app, Pi1 in Pj1. cbn [performs perform] in Pj1.
        rewrite HA in Pj1. cbn [returns] in Pj1.
        destruct (performs wa sa (firstn (j - S i) (skipn (S i) ms)))
          as [[w2 s2] rs2]. injection Pj1 as <- <- <-.
        f_equal. rewrite skipn_app, Pi5.
        rewrite skipn_all2 by lia. replace (S i - i)%nat with 1%nat by lia.
        reflexivity. }
      pose proof (performs_calls _ _ _ _ _ _
                    (Forall_firstn _ _ _ (Forall_skipn _ (S i) _ Hv)) Hmid) as Hcalls.
      destruct (calls_frame _ _ Hcalls (inv_end _ _ Hinva)) as [c Hc]. cbn [fst snd] in Hc.
      apply (Read_record_inv wj sj p d wr sr rr Hinvj); [|exact Hvd|exact HR].
      rewrite Hc. now apply record_at_app.
    - rewrite Heq in Hi. rewrite Hi in Hj. discriminate.
    - (* the read comes before the append *)
      assert (Hmid : exists rs2, performs wr sr (firstn (i - S j) (skipn (S j) ms))
                                 = (wi, si, rs2)).
      { assert (Hfi : firstn i ms = firstn j ms ++ CallRead p
                        :: firstn (i - S j) (skipn (S j) ms)).
        { rewrite <- (firstn_skipn j (firstn i ms)) at 1.
          rewrite firstn_firstn, Nat.min_l by lia. f_equal.
          rewrite skipn_firstn_comm.
          replace (i - j)%nat with (S (i - S j)) by lia.
          rewrite (skipn_nth_cons j ms (CallRead p) Hj). reflexivity. }
        rewrite Hfi, performs_app, Pj1 in Pi1. cbn [performs perform] in Pi1.
        rewrite HR in Pi1.
        destruct (performs wr sr (firstn (i - S j) (skipn (S j) ms)))
          as [[w2 s2] rs2]. injection Pi1 as <- <- _. eauto. }
      destruct Hmid as [rs2 Hmid].
      pose proof (performs_calls _ _ _ _ _ _
                    (Forall_firstn _ _ _ (Forall_skipn _ (S j) _ Hv)) Hmid) as Hcalls.
      destruct (Read_frame _ _ _ _ _ _ HR (inv_end _ _ Hinvj)) as (_ & Hlr & Hendr).
      destruct (calls_frame _ _ Hcalls Hendr) as [c Hc]. cbn [fst snd] in Hc.
      right. apply (Read_beyond_fails wj sj p wr sr rr Hinvj); [|exact HR].
      assert (Hbound : len (logical wi si) < 2 ^ 64).
      { unfold logical. rewrite len_app.
        pose proof (inv_buf _ _ Hinvi). pose proof (inv_disk _ _ Hinvi).
        assert (maxFileSize = 2 ^ 63 - 1) by reflexivity.
        assert (defaultBufSize = 4096) by reflexivity. lia. }
      assert (Hge : len (logical wj sj) <= len (logical wi si)).
      { rewrite Hc, Hlr, len_app. pose proof (len_nonneg c). lia. }
      rewrite Hp. lia. }
  destruct Hshape as [->|[e ->]]; [now left|right; exists e; reflexivity].
Qed.

End ReadBesideAppends.

(** ** Progress of the goroutines, any method *)

Section CallersProgress.
Import Go os bufio log Callers.

Lemma callers_run_app a : forall b sys, run (a ++ b) sys = run b (run a sys).
Proof. induction a as [|i a IH]; intros b sys; [reflexivity|]. simpl. apply IH. Qed.

(** The goroutine [j] scheduled [k] times in a row. *)
Lemma callers_run_repeat k : forall j sys g,
  nth_error (threads sys) j = Some g ->
  run (repeat j k) sys =
  let '(w', s', g') := finish k (world sys) (shared sys) g in
  mkSystem w' s' (Goroutines.set_nth j g' (threads sys)).
Proof.
  induction k as [|k IH]; intros j sys g Hg.
  { cbn [repeat run finish]. rewrite (set_nth_same _ _ _ Hg). now destruct sys. }
  cbn [repeat run finish]. unfold step at 1. rewrite Hg.
  destruct (statement (world sys) (shared sys) g) as [[w1 s1] g1].
  rewrite (IH j (mkSystem w1 s1 (Goroutines.set_nth j g1 (threads sys))) g1)
    by (cbn [threads]; exact (nth_error_set_nth_eq _ _ _ _ Hg)).
  cbn [world shared threads].
  destruct (finish k w1 s1 g1) as [[w' s'] g']. now rewrite set_nth_set_nth.
Qed.

(** Every method returns with the mutex released. *)
Lemma perform_unlocks w s m w1 s1 r :
  mutex s = false -> perform w s m = (w1, s1, r) -> mutex s1 = false.
Proof.
  intros Hm. destruct m as [d|p|data off|]; cbn [perform].
  - destruct (Append w s d) as [[w' s'] r'] eqn:H. intros [= _ <- _].
    unfold Append in H. rewrite Hm in H.
    destruct (binary.Write _ _ _ _) as [[[w2 f2] b2] [e1|]];
      [now injection H as _ <- _|].
    destruct (bufio.Write w2 f2 b2 d) as [[[w3 f3] b3] [wn [e2|]]];
      now injection H as _ <- _.
  - destruct (Read w s p) as [[w' s'] r'] eqn:H. intros [= _ <- _].
    rewrite Read_unfold in H by exact Hm.
    destruct (Flush w (File s) (buffer s)) as [[[w2 f2] b2] [e|]];
      [now injection H as _ <- _|].
    destruct (Read_tail w2 f2 p). now injection H as _ <- _.
  - destruct (ReadAt w s data off) as [[w' s'] r'] eqn:H. intros [= _ <- _].
    rewrite ReadAt_unfold in H by exact Hm.
    destruct (Flush w (File s) (buffer s)) as [[[w2 f2] b2] [e|]];
      [now injection H as _ <- _|].
    destruct (os.ReadAt w2 f2 data off). now injection H as _ <- _.
  - destruct (Close w s) as [[w' s'] r'] eqn:H. intros [= _ <- _].
    unfold Close in H. rewrite Hm in H.
    destruct (Flush _ _ _) as [[[w2 f2] b2] [e|]]; [now injection H as _ <- _|].
    destruct (os.Close w2 f2) as [[w3 f3] e3]. now injection H as _ <- _.
Qed.

(** From an idle state, a goroutine scheduled six times in a row has
    returned, and the state is idle again. *)
Lemma turn_returns sys i g :
  idle sys -> nth_error (threads sys) i = Some g ->
  idle (run (repeat i 6) sys) /\
  (exists g', nth_error (threads (run (repeat i 6) sys)) i = Some g' /\
              returned g' <> None) /\
  (forall k, k <> i ->
     nth_error (threads (run (repeat i 6) sys)) k = nth_error (threads sys) k).
Proof.
  intros [Hm Hall] Hg. rewrite (callers_run_repeat 6 i sys g Hg).
  assert (Hin : inside g = false).
  { rewrite Forall_forall in Hall. apply Hall. eapply nth_error_In, Hg. }
  unfold inside in Hin.
  destruct g as [m [|d|d pos|d pos|pos wn|pos|pos|pos l|d off|d off| | |r|r]];
    try discriminate.
  - destruct (finish_perform (world sys) (shared sys) m Hm) as (w1 & s1 & r & HP & Hfin).
    assert (H6 : finish 6 (world sys) (shared sys) (mkGoroutine m AtLock)
                 = (w1, s1, mkGoroutine m (Done r))).
    { rewrite (finish_next 5). unfold statement. cbn [now calling]. rewrite Hm.
      exact Hfin. }
    rewrite H6. unfold idle. cbn [threads shared]. split; [|split].
    + split; [exact (perform_unlocks _ _ _ _ _ _ Hm HP)|].
      apply Forall_set_nth; [exact Hall|reflexivity].
    + exists (mkGoroutine m (Done r)).
      split; [exact (nth_error_set_nth_eq _ _ _ _ Hg)|discriminate].
    + intros k Hk. now apply nth_error_set_nth_neq.
  - rewrite finish_done by discriminate. unfold idle. cbn [threads shared].
    rewrite (set_nth_same _ _ _ Hg). split; [|split].
    + now split.
    + exists (mkGoroutine m (Done r)). split; [exact Hg|discriminate].
    + reflexivity.
Qed.

Lemma turns_return l : forall sys,
  idle sys -> (forall i, In i l -> (i < length (threads sys))%nat) ->
  let sys' := run (flat_map (fun i => repeat i 6) l) sys in
  idle sys' /\ length (threads sys') = length (threads sys) /\
  (forall k g, nth_error (threads sys) k = Some g -> returned g <> None ->
     exists g', nth_error (threads sys') k = Some g' /\ returned g' <> None) /\
  (forall i, In i l ->
     exists g', nth_error (threads sys') i = Some g' /\ returned g' <> None).
Proof.
  induction l as [|i l IH]; intros sys Hidle Hl.
  { cbn [flat_map run]. split; [exact Hidle|]. split; [reflexivity|].
    split; [eauto|intros i []]. }
  cbn [flat_map]. rewrite callers_run_app.
  destruct (nth_error (threads sys) i) as [g|] eqn:Hg;
    [|apply nth_error_None in Hg; specialize (Hl i (or_introl eq_refl)); lia].
  destruct (turn_returns sys i g Hidle Hg) as (Hidle1 & (gi & Hgi & Hri) & Hother).
  set (sys1 := run (repeat i 6) sys) in *.
  assert (Hlen1 : length (threads sys1) = length (threads sys)).
  { unfold sys1. rewrite (callers_run_repeat 6 i sys g Hg).
    destruct (finish 6 (world sys) (shared sys) g) as [[w' s'] g'].
    apply set_nth_length. }
  assert (Hkeep : forall k g0, nth_error (threads sys) k = Some g0 -> returned g0 <> None ->
            exists g', nth_error (threads sys1) k = Some g' /\ returned g' <> None).
  { intros k g0 Hk Hr. destruct (Nat.eq_dec k i) as [->|Hne]; [eauto|].
    rewrite (Hother k Hne). eauto. }
  destruct (IH sys1 Hidle1) as (Hidle2 & Hlen2 & Hkeep2 & Hdone2).
  { intros k Hk. rewrite Hlen1. apply Hl. now right. }
  split; [exact Hidle2|]. split; [congruence|]. split.
  - intros k g0 Hk Hr. destruct (Hkeep k g0 Hk Hr) as (g1 & Hk1 & Hr1). eauto.
  - intros k [<-|Hk]; [eauto|auto].
Qed.

Lemma idle_all_return sys :
  idle sys -> all_done (run (in_turn (length (threads sys))) sys).
Proof.
  intros Hidle. unfold in_turn.
  destruct (turns_return (seq 0 (length (threads sys))) sys Hidle)
    as (_ & Hlen & _ & Hdone).
  { intros i Hi. apply in_seq in Hi. lia. }
  unfold all_done. apply Forall_forall. intros g Hg.
  apply In_nth_error in Hg as [k Hk].
  assert (Hlt : (k < length (threads sys))%nat).
  { rewrite <- Hlen. apply nth_error_Some. congruence. }
  destruct (Hdone k) as (g' & Hk' & Hr); [apply in_seq; lia|].
  congruence.
Qed.

(** Every state the goroutines reach can be completed. *)
Lemma serialized_completes w0 s0 ms sys order :
  serialized w0 s0 ms sys order ->
  exists rest, all_done (run rest sys).
Proof.
  intros Hlin.
  destruct (ser_state _ _ _ _ _ Hlin) as (wl & sl & rs & _ & Hml & _ & [Hq|Hb]).
  - destruct Hq as (Hw & Hs & Hall).
    exists (in_turn (length (threads sys))). apply idle_all_return.
    split; [now rewrite Hs|exact Hall].
  - destruct Hb as (j & g & Hg & Hin & _ & Hothers & w1 & s1 & r & HA & Hfin).
    exists (repeat j 5 ++ in_turn (length (threads (run (repeat j 5) sys)))).
    rewrite callers_run_app. apply idle_all_return.
    rewrite (callers_run_repeat 5 j sys g Hg), Hfin. unfold idle.
    cbn [threads shared]. split.
    + exact (perform_unlocks _ _ _ _ _ _ Hml HA).
    + apply Forall_forall. intros x Hx. apply In_nth_error in Hx as [k Hk].
      destruct (Nat.eq_dec j k) as [<-|Hne].
      * rewrite (nth_error_set_nth_eq _ _ _ _ Hg) in Hk. now injection Hk as <-.
      * rewrite nth_error_set_nth_neq in Hk by exact Hne. eapply Hothers; eauto.
Qed.

End CallersProgress.

(** ** The properties *)

Section Further.
Import Go os bufio log Goroutines.

(** X1. An [Append] whose record fits in what is left of the buffer of the
    writer only fills the buffer: it returns 8 + len(data) and the cursor
    as the position, whatever the state of the file is, and it makes no
    system call, so that neither the file nor the handle changes; the
    record is in the file only after a later flush. *)
Theorem X1_Append_buffered w s d :
  mutex s = false -> err (buffer s) = None ->
  len (buf (buffer s)) + 8 + len d <= defaultBufSize ->
  Append w s d =
  (w,
   mkStore (File s) false (mkWriter None (buf (buffer s) ++ record d))
     (uint64 (fileSize s + (len d + 8))),
   Return (len d + 8, fileSize s, None)).
Proof.
  intros Hm He Hfit. rewrite (Append_fits w s d Hm He Hfit).
  pose proof (len_nonneg d) as Hd0. pose proof (len_nonneg (buf (buffer s))) as Hb0.
  assert (Hbs : defaultBufSize = 4096) by reflexivity.
  unfold dataLengthWeightInBytes.
  rewrite int64_small, (uint64_small (len d + 8)) by lia. reflexivity.
Qed.

Lemma X1_Append_buffered_witness :
  Append full_world fresh_store testData
  = (full_world,
     mkStore (File fresh_store) false (mkWriter None ([] ++ record testData))
       (uint64 (0 + (len testData + 8))),
     Return (len testData + 8, 0, None)).
Proof.
  refine (X1_Append_buffered full_world fresh_store testData _ _ _).
  - reflexivity.
  - reflexivity.
  - vm_compute; discriminate.
Defined.

(** X2. The error of the writer is final. Once a write has failed, every
    later [Append], [Read], [ReadAt] and [Close] returns that same error
    and changes neither the file nor the store; in particular [Close] does
    not close the file, and no sequence of calls brings the store back. *)
Theorem X2_failed_writer_is_final w s e :
  mutex s = false -> err (buffer s) = Some e ->
  (forall d, Append w s d = (w, s, Return (0, 0, Some e))) /\
  (forall p, Read w s p = (w, s, Return ([], Some e))) /\
  (forall data off, ReadAt w s data off = (w, s, Return (data, 0, Some e))) /\
  Close w s = (w, s, Return (Some e)) /\
  (forall w1 s1, calls (w, s) (w1, s1) -> w1 = w /\ s1 = s).
Proof.
  intros Hm He. split; [|split; [|split; [|split]]].
  - intros d. now apply Append_stuck.
  - intros p. now apply Read_stuck.
  - intros data off. now apply ReadAt_stuck.
  - now apply Close_stuck.
  - intros w1 s1 Hc. pose proof (calls_stuck _ _ e Hc Hm He) as [= -> ->]. auto.
Qed.

Lemma X2_failed_writer_is_final_witness :
  Close torn_world torn_store = (torn_world, torn_store, Return (Some ENOSPC)) /\
  closed (File torn_store) = false.
Proof.
  split; [|reflexivity].
  refine (proj1 (proj2 (proj2 (proj2
            (X2_failed_writer_is_final torn_world torn_store ENOSPC _ _))))).
  - reflexivity.
  - vm_compute; reflexivity.
Defined.

(** X3. A failed [Append] can leave a torn record behind. It returns with
    the writer failed with the error it reports; the bytes of the store
    (the file followed by the buffer) are the old ones followed by a part
    of the record from its start on, possibly the whole header and a part
    of the payload; and the cursor is as it was, so that it no longer
    counts the bytes of the store when that part is not empty. *)
Theorem X3_Append_failure_tears w s d w1 s1 n p e :
  store_ok w s ->
  Append w s d = (w1, s1, Return (n, p, Some e)) ->
  err (buffer s1) = Some e /\
  exists c rest,
    record d = c ++ rest /\
    logical w1 s1 = logical w s ++ c /\
    len (logical w1 s1) = fileSize s1 + len c.
Proof.
  intros Hok H. split; [exact (proj2 (Append_failed _ _ _ _ _ _ _ _ H))|].
  destruct (Append_torn _ _ _ _ _ _ _ _ (ok_end _ _ Hok) H) as (c & rest & Hr & Hl).
  exists c, rest. split; [exact Hr|]. split; [exact Hl|].
  destruct (Append_spec _ _ _ _ _ _ H (ok_mutex _ _ Hok) (ok_end _ _ Hok))
    as (_ & c' & n' & p' & e' & [= <- <- <-] & _ & _ & _ & _ & ->).
  rewrite Hl, len_app. unfold logical. rewrite len_app, (ok_size _ _ Hok). reflexivity.
Qed.

Lemma X3_Append_failure_tears_witness :
  err (buffer torn_store) = Some ENOSPC /\
  exists c rest,
    record big_payload = c ++ rest /\
    logical torn_world torn_store = logical full_world full_store ++ c /\
    len (logical torn_world torn_store) = fileSize torn_store + len c.
Proof.
  refine (X3_Append_failure_tears full_world full_store big_payload
            torn_world torn_store 0 0 ENOSPC _ _).
  - compute_store_ok.
  - vm_compute; reflexivity.
Defined.

(** X4. [Read] at the end of the records. On a consistent store, the
    system reporting no failure, [Read] at a position where the bytes of
    the store end before the eight bytes of a header (so at the cursor
    itself, the position of the next record) returns no bytes and an
    error: io.EOF when the eight bytes would end within the largest offset
    of a file, and from position 2^63 - 8 on EINVAL, the system refusing
    the read; the store stays consistent. *)
Theorem X4_Read_past_the_end w s p :
  store_ok w s -> calm w -> fileSize s <= maxFileSize ->
  0 <= p < 2 ^ 63 -> fileSize s < p + 8 ->
  exists w1 s1,
    Read w s p
    = (w1, s1,
       Return ([], Some (if p + 8 <=? maxFileSize then EOF else EINVAL))) /\
    store_ok w1 s1.
Proof.
  intros Hok Hc Hfit Hp Hshort.
  destruct (Read_calm_tail w s p Hok Hc Hfit) as (w1 & f1 & Hc1 & Hd & Ho & Hok1 & ->).
  destruct (Read_tail_short_header w1 f1 p Hc1 Ho Hp) as (w2 & Ht).
  { rewrite Hd. unfold logical. rewrite len_app, <- (ok_size _ _ Hok). exact Hshort. }
  rewrite Ht. eexists _, _. split; [reflexivity|].
  apply store_ok_disk with w1; [|exact Hok1].
  exact (Read_tail_disk _ _ _ _ _ Ht).
Qed.

Lemma X4_Read_past_the_end_witness :
  (exists w1 s1,
     Read fresh_world one_record 23 = (w1, s1, Return ([], Some EOF)) /\
     store_ok w1 s1) /\
  (exists w1 s1,
     Read fresh_world one_record (2 ^ 63 - 8) = (w1, s1, Return ([], Some EINVAL)) /\
     store_ok w1 s1).
Proof.
  split.
  - refine (X4_Read_past_the_end fresh_world one_record 23 _ _ _ _ _).
    + compute_store_ok.
    + vm_compute. constructor.
    + vm_compute; discriminate.
    + vm_compute. split; [discriminate|reflexivity].
    + vm_compute; reflexivity.
  - refine (X4_Read_past_the_end fresh_world one_record (2 ^ 63 - 8) _ _ _ _ _).
    + compute_store_ok.
    + vm_compute. constructor.
    + vm_compute; discriminate.
    + vm_compute. split; [discriminate|reflexivity].
    + vm_compute; reflexivity.
Defined.

(** X5. Offsets out of the range of a file. The position of [Read] is
    converted to an int64: a position from 2^63 on is a negative offset,
    and the call returns an error and no bytes; so does [ReadAt] at a
    negative offset, leaving the slice as it was. The error is the one of
    the flush if the flush failed and the one for a negative offset
    otherwise. *)
Theorem X5_offset_out_of_range w s :
  mutex s = false ->
  (forall p, 2 ^ 63 <= p < 2 ^ 64 ->
     exists w1 s1 e,
       Read w s p = (w1, s1, Return ([], Some e)) /\
       (err (buffer s1) = None -> e = ErrNegativeOffset)) /\
  (forall data off, off < 0 ->
     exists w1 s1 e,
       ReadAt w s data off = (w1, s1, Return (data, 0, Some e)) /\
       (err (buffer s1) = None -> e = ErrNegativeOffset)).
Proof.
  intros Hm. split.
  - intros p Hp. rewrite Read_unfold by exact Hm.
    destruct (Flush w (File s) (buffer s)) as [[[w1 f1] b1] e] eqn:Hf.
    pose proof (Flush_reports _ _ _ _ _ _ _ Hf) as He.
    destruct e as [e|].
    + eexists _, _, e. split; [reflexivity|]. simpl. congruence.
    + unfold Read_tail.
      change (make dataLengthWeightInBytes) with (Some (repeat x00 8)). cbv beta iota.
      unfold os.ReadAt.
      assert (Hneg : (int64 p <? 0) = true).
      { apply Z.ltb_lt. unfold int64.
        replace (p + 2 ^ 63) with (p - 2 ^ 63 + 1 * 2 ^ 64) by lia.
        rewrite Z_mod_plus_full, Z.mod_small by lia. lia. }
      rewrite Hneg. eexists _, _, _. split; [reflexivity|]. reflexivity.
  - intros data off Hoff. rewrite ReadAt_unfold by exact Hm.
    destruct (Flush w (File s) (buffer s)) as [[[w1 f1] b1] e] eqn:Hf.
    pose proof (Flush_reports _ _ _ _ _ _ _ Hf) as He.
    destruct e as [e|].
    + eexists _, _, e. split; [reflexivity|]. simpl. congruence.
    + unfold os.ReadAt. destruct (Z.ltb_spec off 0) as [_|]; [|lia].
      eexists _, _, _. split; [reflexivity|]. reflexivity.
Qed.

Lemma X5_offset_out_of_range_witness :
  exists w1 s1 e,
    Read fresh_world one_record (2 ^ 64 - 8) = (w1, s1, Return ([], Some e)) /\
    (err (buffer s1) = None -> e = ErrNegativeOffset).
Proof.
  refine (proj1 (X5_offset_out_of_range fresh_world one_record _) (2 ^ 64 - 8) _).
  - reflexivity.
  - vm_compute. split; [discriminate|reflexivity].
Defined.

(** X6. [Read] does not know where records start: it decodes whatever is at
    the position. If a payload holds the encoding of a record, [Read] at
    the offset of that encoding inside the appended record returns the
    payload of the inner record, though no [Append] returned that position
    for it. *)
Theorem X6_Read_inside_a_payload w s d1 d2 d3 w1 s1 n p :
  store_ok w s -> valid (d1 ++ record d2 ++ d3) ->
  Append w s (d1 ++ record d2 ++ d3) = (w1, s1, Return (n, p, None)) ->
  reads_back w1 s1 (p + 8 + len d1) d2.
Proof.
  intros Hok Hv H.
  destruct (Append_ok _ _ _ _ _ _ _ Hok Hv H) as (_ & _ & _ & _ & Hok1).
  destruct (Append_record_at _ _ _ _ _ _ _ Hok Hv H) as (pre & post & Hl & Hp).
  apply reads_back_intro; [exact Hok1| |].
  - exists (pre ++ BigEndian.PutUint64 (uint64 (len (d1 ++ record d2 ++ d3))) ++ d1),
           (d3 ++ post).
    split.
    + rewrite Hl. unfold record at 1. now rewrite <- !app_assoc.
    + rewrite !len_app, Hp.
      change (len (BigEndian.PutUint64 _)) with 8. lia.
  - unfold valid in *. rewrite !len_app in Hv.
    pose proof (len_nonneg d1). pose proof (len_nonneg d3).
    rewrite record_length in Hv. lia.
Qed.

Lemma X6_Read_inside_a_payload_witness :
  exists w2 s2,
    Read (fst (fst (Append fresh_world fresh_store ([] ++ record testData ++ []))))
         (snd (fst (Append fresh_world fresh_store ([] ++ record testData ++ []))))
         (0 + 8 + len (@nil byte))
    = (w2, s2, Return (testData, None)).
Proof.
  refine (proj1 (X6_Read_inside_a_payload fresh_world fresh_store [] testData []
                   _ _ 31 0 _ _ _) _ _).
  - compute_store_ok.
  - vm_compute; discriminate.
  - vm_compute; reflexivity.
  - vm_compute. constructor.
  - vm_compute; discriminate.
Defined.

(** X7. [Read] trusts the length it decodes. Where the eight bytes at the
    position give a length larger than any slice can have, the allocation
    of the result panics: [Read] returns no bytes, whatever the system
    does; the deferred unlock has released the mutex; and, the system
    reporting no failure, the call panics and leaves the store
    consistent. *)
Theorem X7_Read_oversized_length w s pre n post :
  store_ok w s ->
  logical w s = pre ++ BigEndian.PutUint64 n ++ post ->
  maxAlloc < n < 2 ^ 64 ->
  (forall w1 s1 r, Read w s (len pre) = (w1, s1, r) ->
     (r = Panic \/ exists e, r = Return ([], Some e)) /\ mutex s1 = false) /\
  (calm w -> fileSize s <= maxFileSize ->
   exists w1 s1, Read w s (len pre) = (w1, s1, Panic) /\ store_ok w1 s1).
Proof.
  intros Hok Hl Hn.
  assert (Hn64 : 0 <= n < 2 ^ 64).
  { assert (maxAlloc = 2 ^ 48) by reflexivity. lia. }
  split.
  - intros w1 s1 r. rewrite Read_unfold by apply Hok.
    destruct (Flush w (File s) (buffer s)) as [[[w' f'] b'] e] eqn:Hf.
    destruct e as [e|]; [intros [= _ <- <-]; split; [eauto|reflexivity]|].
    destruct (Flush_ok _ _ _ _ _ Hok Hf) as (Hd & _ & Hok1).
    destruct (Read_tail w' f' (len pre)) as [w2 r'] eqn:Ht. intros [= _ <- <-].
    split; [|reflexivity]. rewrite Hl in Hd.
    apply (Read_tail_oversized w' f' pre post n Hd Hn64 (ok_disk _ _ Hok1) w2 r');
      [lia|exact Ht].
  - intros Hc Hfit.
    destruct (Read_calm_tail w s (len pre) Hok Hc Hfit)
      as (w1 & f1 & Hc1 & Hd & Ho & Hok1 & ->).
    rewrite Hl in Hd.
    destruct (Read_tail_header_calm w1 f1 pre post n Hd Hn64 (ok_disk _ _ Hok1) Hc1 Ho)
      as (w2 & Hc2 & Hd2 & Ht).
    unfold make in Ht. destruct (Z.leb_spec n maxAlloc); [lia|].
    rewrite Ht. eexists _, _. split; [reflexivity|].
    now apply store_ok_disk with w1.
Qed.

Lemma X7_Read_oversized_length_witness :
  exists w1 s1, Read fresh_world hostile_store 8 = (w1, s1, Panic) /\ store_ok w1 s1.
Proof.
  refine (proj2 (X7_Read_oversized_length fresh_world hostile_store
                   (BigEndian.PutUint64 8) (2 ^ 64 - 1) [] _ _ _) _ _).
  - compute_store_ok.
  - vm_compute; reflexivity.
  - vm_compute. split; reflexivity.
  - vm_compute. constructor.
  - vm_compute; discriminate.
Defined.

(** X8. What [ReadAt] returns. On a consistent store, the system reporting
    no failure, [ReadAt(data, off)] with [off >= 0] that ends within the
    largest offset of a file copies to the start of [data] the bytes of
    the store from [off] on, those still in the buffer included, as many
    as [data] takes or as there are; it returns their number, and io.EOF
    exactly when there were fewer than [len(data)]. A read that would end
    past the largest offset, [off + len(data) > 2^63 - 1], is refused by
    the system: it returns 0 and EINVAL and leaves the slice as it was.
    After the call the file holds all the bytes of the store and the
    buffer is empty. *)
Theorem X8_ReadAt_returns w s data off :
  store_ok w s -> calm w -> fileSize s <= maxFileSize -> 0 <= off < 2 ^ 63 ->
  exists w1 s1,
    ReadAt w s data off
    = (w1, s1,
       Return (if off + len data <=? maxFileSize
               then read_result data (bytes_at (logical w s) off (length data))
               else (data, 0, Some EINVAL))) /\
    disk w1 = logical w s /\ buf (buffer s1) = [] /\ store_ok w1 s1 /\ calm w1.
Proof.
  intros Hok Hc Hfit Hoff.
  destruct (Flush_store_calm w s Hok Hc Hfit) as (w1 & f1 & Hf & Hc1 & Hd & Ho & Hok1).
  assert (HR : exists w2,
            os.ReadAt w1 f1 data off
            = (w2, if off + len data <=? maxFileSize
                   then read_result data (bytes_at (disk w1) off (length data))
                   else (data, 0, Some EINVAL)) /\
            calm w2 /\ disk w2 = disk w1).
  { destruct (Z.leb_spec (off + len data) maxFileSize) as [Hin|Hout].
    - apply os_ReadAt_calm_gen; [exact Hc1|exact Ho|lia|exact Hin].
    - apply os_ReadAt_refused; [exact Hc1|exact Ho|lia| |exact Hout].
      intros ->. change (len (@nil byte)) with 0 in Hout.
      assert (maxFileSize = 2 ^ 63 - 1) by reflexivity. lia. }
  destruct HR as (w2 & HR & Hc2 & Hd2).
  rewrite ReadAt_unfold by apply Hok. rewrite Hf. cbv beta iota zeta. rewrite HR, Hd.
  eexists _, _. split; [reflexivity|]. split; [congruence|]. split; [reflexivity|].
  split; [now apply store_ok_disk with w1|exact Hc2].
Qed.

Lemma X8_ReadAt_returns_witness :
  (exists w1 s1,
     ReadAt fresh_world one_record (repeat x00 30) 8
     = (w1, s1, Return (testData ++ repeat x00 15, 15, Some EOF)) /\
     disk w1 = logical fresh_world one_record /\ buf (buffer s1) = [] /\
     store_ok w1 s1 /\ calm w1) /\
  (exists w1 s1,
     ReadAt fresh_world one_record (repeat x00 4) (2 ^ 63 - 4)
     = (w1, s1, Return (repeat x00 4, 0, Some EINVAL)) /\
     disk w1 = logical fresh_world one_record /\ buf (buffer s1) = [] /\
     store_ok w1 s1 /\ calm w1).
Proof.
  split.
  - refine (X8_ReadAt_returns fresh_world one_record (repeat x00 30) 8 _ _ _ _).
    + compute_store_ok.
    + vm_compute. constructor.
    + vm_compute; discriminate.
    + vm_compute. split; [discriminate|reflexivity].
  - refine (X8_ReadAt_returns fresh_world one_record (repeat x00 4) (2 ^ 63 - 4) _ _ _ _).
    + compute_store_ok.
    + vm_compute. constructor.
    + vm_compute; discriminate.
    + vm_compute. split; [discriminate|reflexivity].
Defined.

(** X9. Use after [Close]. When the flush of [Close] succeeded, the file
    holds all the bytes of the store and the handle is closed, also when
    closing it reported an error; from then on [Close] again, [Read] and
    [ReadAt] of a non-empty slice return the error of a closed file and
    change nothing. *)
Theorem X9_use_after_Close w s w1 s1 r :
  store_ok w s -> Close w s = (w1, s1, Return r) -> err (buffer s1) = None ->
  closed (File s1) = true /\ disk w1 = logical w s /\ buf (buffer s1) = [] /\
  Close w1 s1 = (w1, s1, Return (Some ErrClosed)) /\
  (forall p, 0 <= p < 2 ^ 63 ->
     Read w1 s1 p = (w1, s1, Return ([], Some ErrClosed))) /\
  (forall data off, 0 <= off -> data <> [] ->
     ReadAt w1 s1 data off = (w1, s1, Return (data, 0, Some ErrClosed))).
Proof.
  intros Hok H He.
  assert (Hst : mutex s1 = false /\ closed (File s1) = true /\
                buffer s1 = mkWriter None [] /\ disk w1 = logical w s).
  { unfold Close in H. rewrite (ok_mutex _ _ Hok) in H.
    cbn [Lock Unlock File buffer fileSize mutex] in H.
    destruct (Flush w (File s) (buffer s)) as [[[w' f'] b'] e] eqn:Hf.
    pose proof (Flush_reports _ _ _ _ _ _ _ Hf) as Hr.
    destruct e as [e|]; [injection H as _ <- _; simpl in He; congruence|].
    destruct (Flush_ok _ _ _ _ _ Hok Hf) as (Hd & Hb & Hok1).
    destruct (os.Close w' f') as [[w2 f2] e2] eqn:Hcl. injection H as <- <- _.
    pose proof (os_Close_disk _ _ _ _ _ Hcl) as Hd2.
    unfold os.Close in Hcl. pose proof (ok_open _ _ Hok1) as Ho. simpl in Ho.
    rewrite Ho in Hcl. destruct (syscall w') as [flt w0]. injection Hcl as _ <- _.
    simpl. repeat split; congruence. }
  destruct Hst as (Hm & Hc & Hb & Hd).
  split; [exact Hc|]. split; [exact Hd|]. split; [now rewrite Hb|].
  exact (closed_store_returns w1 s1 Hm Hc Hb).
Qed.

Lemma X9_use_after_Close_witness :
  closed (File (snd (fst three_closed))) = true /\
  disk (fst (fst three_closed))
  = logical (fst (fst three_appends)) (snd (fst three_appends)) /\
  Close (fst (fst three_closed)) (snd (fst three_closed))
  = (fst (fst three_closed), snd (fst three_closed), Return (Some ErrClosed)) /\
  Read (fst (fst three_closed)) (snd (fst three_closed)) 23
  = (fst (fst three_closed), snd (fst three_closed), Return ([], Some ErrClosed)).
Proof.
  destruct (X9_use_after_Close (fst (fst three_appends)) (snd (fst three_appends))
              (fst (fst three_closed)) (snd (fst three_closed)) None)
    as (Hc & Hd & _ & HC & HR & _).
  - compute_store_ok.
  - vm_compute; reflexivity.
  - vm_compute; reflexivity.
  - split; [exact Hc|]. split; [exact Hd|]. split; [exact HC|].
    apply HR. vm_compute. split; [discriminate|reflexivity].
Defined.

(** X10. A store whose file was closed never writes again. No sequence of
    calls changes the file or reopens the handle. Yet an [Append] whose
    record fits in the buffer still reports success, with the byte count
    and a position; the record is lost, and the error of the closed file
    shows only at the next flush, here the one of [Close]. *)
Theorem X10_closed_store_never_writes w s :
  closed (File s) = true ->
  (forall w1 s1, calls (w, s) (w1, s1) -> w1 = w /\ File s1 = File s) /\
  (forall d, mutex s = false -> err (buffer s) = None ->
     len (buf (buffer s)) + 8 + len d <= defaultBufSize ->
     exists s1 s2,
       Append w s d = (w, s1, Return (len d + 8, fileSize s, None)) /\
       Close w s1 = (w, s2, Return (Some ErrClosed))).
Proof.
  intros Hc. split.
  - intros w1 s1 H. exact (calls_closed _ _ H Hc).
  - intros d Hm He Hfit. rewrite (Append_fits w s d Hm He Hfit).
    pose proof (len_nonneg d) as Hd0. pose proof (len_nonneg (buf (buffer s))) as Hb0.
    assert (Hbs : defaultBufSize = 4096) by reflexivity.
    unfold dataLengthWeightInBytes.
    rewrite int64_small, (uint64_small (len d + 8)) by lia.
    eexists _, _. split; [reflexivity|].
    unfold Close, Flush. cbn [Lock Unlock File buffer fileSize mutex err buf].
    unfold Buffered. cbn [buf].
    destruct (Z.eqb_spec (len (buf (buffer s) ++ record d)) 0) as [Hz|_].
    { rewrite len_app, record_length in Hz. lia. }
    rewrite (os_Write_closed w (File s) _ Hc).
    rewrite andb_false_r. reflexivity.
Qed.

Lemma X10_closed_store_never_writes_witness :
  exists s1 s2,
    Append (fst (fst three_closed)) (snd (fst three_closed)) testData
    = (fst (fst three_closed), s1,
       Return (len testData + 8, fileSize (snd (fst three_closed)), None)) /\
    Close (fst (fst three_closed)) s1
    = (fst (fst three_closed), s2, Return (Some ErrClosed)).
Proof.
  refine (proj2 (X10_closed_store_never_writes (fst (fst three_closed))
                   (snd (fst three_closed)) _) testData _ _ _).
  - vm_compute; reflexivity.
  - vm_compute; reflexivity.
  - vm_compute; reflexivity.
  - vm_compute; discriminate.
Defined.



(** X12. The file is append-only. Through a handle that writes at the end
    of its file, no sequence of calls changes or removes a byte that is in
    the file: the file after the calls is the file of before followed by
    the bytes written since. *)
Theorem X12_file_append_only w s w1 s1 :
  at_end w (File s) -> calls (w, s) (w1, s1) ->
  exists x, disk w1 = disk w ++ x.
Proof.
  intros Hend Hc. exact (calls_appends _ _ Hc Hend).
Qed.

Lemma X12_file_append_only_witness :
  exists x, disk torn_world = disk full_world ++ x.
Proof.
  refine (X12_file_append_only full_world full_store torn_world torn_store _ _).
  - right; reflexivity.
  - apply calls_cons with (torn_world, torn_store); [|apply calls_nil].
    apply call_Append with big_payload (Return (0, 0, Some ENOSPC)).
    + vm_compute; discriminate.
    + vm_compute; reflexivity.
Defined.

(** X13. [newStore] trusts the handle it is given. It takes the cursor
    from the length of the file but does not move the handle, and the
    writer writes where the handle is. Over a handle that is inside the
    file and was not opened for appending, an [Append] still returns the
    length of the file as the position; the flush then writes the record
    over the bytes at the offset of the handle, the file keeps its length,
    and [Read] at the position returned finds the end of the file (a
    header read there ending within the largest offset of a file). *)
Theorem X13_newStore_trusts_the_handle w f d :
  calm w -> closed f = false -> append f = false ->
  0 <= offset f -> offset f + (len d + 8) <= len (disk w) ->
  len (disk w) + 8 <= maxFileSize -> len d + 8 <= defaultBufSize ->
  exists w0 s0 w1 s1 w2 s2,
    newStore w f = (w0, inl s0) /\
    Append w0 s0 d = (w1, s1, Return (len d + 8, len (disk w), None)) /\
    Read w1 s1 (len (disk w)) = (w2, s2, Return ([], Some EOF)) /\
    disk w2 = firstn (Z.to_nat (offset f)) (disk w) ++ record d
              ++ skipn (Z.to_nat (offset f + (len d + 8))) (disk w).
Proof.
  intros Hc Ho Ha Hoff Hin Hmax Hfit.
  pose proof (len_nonneg d) as Hd0. pose proof (len_nonneg (disk w)) as Hk0.
  assert (Hms : maxFileSize = 2 ^ 63 - 1) by reflexivity.
  assert (Hbs : defaultBufSize = 4096) by reflexivity.
  destruct (syscall_calm w Hc) as [Hs Hc0].
  set (w0 := snd (syscall w)) in *.
  assert (Hd0' : disk w0 = disk w) by apply syscall_disk.
  set (s0 := mkStore f false NewWriter (len (disk w))).
  assert (HN : newStore w f = (w0, inl s0)).
  { unfold newStore, os.Stat. rewrite Hs. fold w0. rewrite Hd0'.
    rewrite uint64_small by lia. reflexivity. }
  set (s1 := mkStore f false (mkWriter None ([] ++ record d))
               (uint64 (len (disk w) + (len d + 8)))).
  assert (HA : Append w0 s0 d = (w0, s1, Return (len d + 8, len (disk w), None))).
  { rewrite (Append_fits w0 s0 d eq_refl eq_refl)
      by (change (len (buf (buffer s0))) with 0; lia).
    unfold dataLengthWeightInBytes.
    rewrite int64_small, (uint64_small (len d + 8)) by lia. reflexivity. }
  destruct (Flush_inside w0 f (record d) Hc0 Ho Ha Hoff) as (w1 & f1 & Hf & Hc1 & Ho1 & Hd1).
  { rewrite record_length, Hd0'. exact Hin. }
  { rewrite Hd0'. lia. }
  { intros Hnil. apply (f_equal len) in Hnil. rewrite record_length in Hnil.
    change (len (@nil byte)) with 0 in Hnil. lia. }
  destruct (pwrite_inside (disk w0) (offset f) (record d) Hoff) as [Hpw Hlen].
  { rewrite record_length, Hd0'. exact Hin. }
  destruct (Read_tail_short_header w1 f1 (len (disk w)) Hc1 Ho1) as (w2 & Ht).
  { lia. }
  { rewrite Hd1, Hlen, Hd0'. lia. }
  destruct (Z.leb_spec (len (disk w) + 8) maxFileSize) as [_|]; [|lia].
  exists w0, s0, w0, s1, w2, (mkStore f1 false (mkWriter None []) (fileSize s1)).
  split; [exact HN|]. split; [exact HA|]. split.
  - rewrite Read_unfold by reflexivity. cbn [File buffer s1 app]. rewrite Hf.
    cbv beta iota zeta. rewrite Ht. reflexivity.
  - rewrite (Read_tail_disk _ _ _ _ _ Ht), Hd1, Hpw, record_length, Hd0'. reflexivity.
Qed.

Lemma X13_newStore_trusts_the_handle_witness :
  exists w0 s0 w1 s1 w2 s2,
    newStore two_records rewound = (w0, inl s0) /\
    Append w0 s0 testData
    = (w1, s1, Return (len testData + 8, len (disk two_records), None)) /\
    Read w1 s1 (len (disk two_records)) = (w2, s2, Return ([], Some EOF)) /\
    disk w2 = firstn (Z.to_nat (offset rewound)) (disk two_records)
              ++ record testData
              ++ skipn (Z.to_nat (offset rewound + (len testData + 8)))
                   (disk two_records).
Proof.
  refine (X13_newStore_trusts_the_handle two_records rewound testData _ _ _ _ _ _ _).
  - vm_compute. constructor.
  - reflexivity.
  - reflexivity.
  - vm_compute; discriminate.
  - vm_compute; discriminate.
  - vm_compute; discriminate.
  - vm_compute; discriminate.
Defined.

(** X14. Goroutines appending to one store never deadlock. [Append]
    releases the mutex on every path, the failed ones included: whatever
    the schedule was so far and whatever the system reported, the
    schedule can go on so that every goroutine returns. *)
Theorem X14_Append_never_deadlocks w s ds sched :
  mutex s = false ->
  exists rest, all_done (run (sched ++ rest) (spawn w s ds)).
Proof.
  intros Hm.
  pose proof (linearized_run w s ds sched _ _ (linearized_spawn w s ds Hm)) as Hlin.
  destruct (linearized_completes _ _ _ _ _ Hlin) as [rest Hrest].
  exists rest. now rewrite run_app.
Qed.

Lemma X14_Append_never_deadlocks_witness :
  exists rest,
    all_done (run ([2; 0; 1; 2; 2]%nat ++ rest)
                (spawn full_world fresh_store [testData; []; big_payload])).
Proof.
  refine (X14_Append_never_deadlocks full_world fresh_store
            [testData; []; big_payload] [2; 0; 1; 2; 2]%nat _).
  reflexivity.
Defined.

(** X15. The tests of the package pass whenever the system reports no
    failure: every [require] of TestStoreAppendRead (testAppend, testRead,
    testReadAt, and testRead again over a second store built on the same
    handle) and of TestStoreClose (the file is longer after [Close] than
    before) holds. *)
Theorem X15_tests_pass faults :
  Forall (fun x => x = None) faults ->
  log_test.TestStoreAppendRead faults = true /\
  log_test.TestStoreClose faults = true.
Proof.
  intros Hc. rewrite (TestStoreAppendRead_quiet faults Hc), (TestStoreClose_quiet faults Hc).
  split; vm_compute; reflexivity.
Qed.

Lemma X15_tests_pass_witness :
  log_test.TestStoreAppendRead [None; None; None] = true /\
  log_test.TestStoreClose [None; None; None] = true.
Proof.
  refine (X15_tests_pass [None; None; None] _).
  repeat constructor.
Defined.

(** X16. Reading flushes. A [Read], [ReadAt] or [Close] that returns with
    the writer not failed has written every byte of the store to the file
    and left the buffer empty, whatever it returns itself: a record is in
    the file from the first such call after its [Append] on. *)
Theorem X16_reading_flushes w s :
  at_end w (File s) ->
  (forall p w1 s1 r, Read w s p = (w1, s1, Return r) ->
     err (buffer s1) = None -> disk w1 = logical w s /\ buf (buffer s1) = []) /\
  (forall data off w1 s1 r, ReadAt w s data off = (w1, s1, Return r) ->
     err (buffer s1) = None -> disk w1 = logical w s /\ buf (buffer s1) = []) /\
  (forall w1 s1 r, Close w s = (w1, s1, Return r) ->
     err (buffer s1) = None -> disk w1 = logical w s /\ buf (buffer s1) = []).
Proof.
  intros Hend.
  assert (Hflush : forall w' f' b' e, Flush w (File s) (buffer s) = (w', f', b', e) ->
            err b' = None -> disk w' = logical w s /\ buf b' = [] /\ e = None).
  { intros w' f' b' e Hf He.
    destruct (Flush_spec _ _ _ _ _ _ _ Hf Hend) as (Hl & _ & _ & _ & He1 & Hnil & _).
    rewrite He in He1. subst e. specialize (Hnil eq_refl).
    rewrite Hnil, app_nil_r in Hl. auto. }
  split; [|split].
  - intros p w1 s1 r H He. destruct (mutex s) eqn:Hm.
    { unfold Read in H. rewrite Hm in H. discriminate. }
    rewrite Read_unfold in H by exact Hm.
    destruct (Flush w (File s) (buffer s)) as [[[w' f'] b'] e] eqn:Hf.
    assert (Hb : err b' = None).
    { destruct e; [injection H as _ <- _; exact He|].
      destruct (Read_tail w' f' p). injection H as _ <- _. exact He. }
    destruct (Hflush _ _ _ _ eq_refl Hb) as (Hd & Hn & ->).
    destruct (Read_tail w' f' p) as [w2 r'] eqn:Ht. injection H as <- <- _.
    split; [|exact Hn]. now rewrite (Read_tail_disk _ _ _ _ _ Ht).
  - intros data off w1 s1 r H He. destruct (mutex s) eqn:Hm.
    { unfold ReadAt in H. rewrite Hm in H. discriminate. }
    rewrite ReadAt_unfold in H by exact Hm.
    destruct (Flush w (File s) (buffer s)) as [[[w' f'] b'] e] eqn:Hf.
    assert (Hb : err b' = None).
    { destruct e; [injection H as _ <- _; exact He|].
      destruct (os.ReadAt w' f' data off). injection H as _ <- _. exact He. }
    destruct (Hflush _ _ _ _ eq_refl Hb) as (Hd & Hn & ->).
    destruct (os.ReadAt w' f' data off) as [w2 r'] eqn:Ht. injection H as <- <- _.
    split; [|exact Hn]. now rewrite (os_ReadAt_disk _ _ _ _ _ _ Ht).
  - intros w1 s1 r H He. unfold Close in H.
    destruct (mutex s); [discriminate|].
    cbn [Lock Unlock File buffer fileSize mutex] in H.
    destruct (Flush w (File s) (buffer s)) as [[[w' f'] b'] e] eqn:Hf.
    assert (Hb : err b' = None).
    { destruct e; [injection H as _ <- _; exact He|].
      destruct (os.Close w' f') as [[w2 f2] e2]. injection H as _ <- _. exact He. }
    destruct (Hflush _ _ _ _ eq_refl Hb) as (Hd & Hn & ->).
    destruct (os.Close w' f') as [[w2 f2] e2] eqn:Hc. injection H as <- <- _.
    split; [|exact Hn]. now rewrite (os_Close_disk _ _ _ _ _ Hc).
Qed.

Lemma X16_reading_flushes_witness :
  disk (fst (fst (Read fresh_world one_record 0))) = logical fresh_world one_record /\
  buf (buffer (snd (fst (Read fresh_world one_record 0)))) = [].
Proof.
  refine (proj1 (X16_reading_flushes fresh_world one_record _) 0 _ _
            (testData, None) _ _).
  - right; reflexivity.
  - vm_compute; reflexivity.
  - vm_compute; reflexivity.
Defined.

(** X17. [Read] invents nothing. If [Read(p)], [p] a uint64, returns
    bytes and no error, then these bytes are in the store: the bytes of
    the store (the file followed by the buffer) hold at [p] eight bytes
    that decode to the number of the bytes returned, and right after them
    the bytes returned. This holds whatever the system does. *)
Theorem X17_Read_sound w s p w1 s1 d :
  store_ok w s -> 0 <= p < 2 ^ 64 ->
  Read w s p = (w1, s1, Return (d, None)) ->
  exists pre hdr post,
    logical w s = pre ++ hdr ++ d ++ post /\
    len pre = p /\ len hdr = 8 /\ BigEndian.Uint64 hdr = Some (len d).
Proof.
  intros Hok Hp H. rewrite Read_unfold in H by apply Hok.
  destruct (Flush w (File s) (buffer s)) as [[[w' f'] b'] e] eqn:Hf.
  destruct e as [e|]; [discriminate|].
  destruct (Flush_ok _ _ _ _ _ Hok Hf) as (Hd & _ & Hok1).
  pose proof (ok_disk _ _ Hok1) as Hmax. rewrite <- Hd. clear Hf Hok1 Hd Hok.
  assert (Hms : maxFileSize = 2 ^ 63 - 1) by reflexivity.
  destruct (Read_tail w' f' p) as [w2 r] eqn:Ht. injection H as _ _ ->.
  unfold Read_tail in Ht.
  change (make dataLengthWeightInBytes) with (Some (repeat x00 8)) in Ht.
  cbv beta iota in Ht.
  destruct (os.ReadAt w' f' (repeat x00 8) (int64 p)) as [w3 [[l k] e]] eqn:H1.
  destruct e as [e|]; [discriminate|].
  pose proof (os_ReadAt_disk _ _ _ _ _ _ H1) as Hd3.
  destruct (os_ReadAt_sound _ _ _ _ _ _ _ _ H1) as (got & Hl & _ & _ & Hgot & Hoff & Hfull).
  specialize (Hfull eq_refl). change (length (repeat x00 8)) with 8%nat in Hfull.
  rewrite Hfull in Hl, Hgot.
  change (skipn 8 (repeat x00 8)) with (@nil byte) in Hl. rewrite app_nil_r in Hl.
  subst l.
  assert (Hoff0 : 0 <= int64 p).
  { apply Hoff. intros ->. discriminate. }
  assert (Hp63 : p < 2 ^ 63).
  { destruct (Z.lt_ge_cases p (2 ^ 63)) as [|Hge]; [assumption|]. exfalso.
    unfold int64 in Hoff0.
    replace (p + 2 ^ 63) with (p - 2 ^ 63 + 1 * 2 ^ 64) in Hoff0 by lia.
    rewrite Z_mod_plus_full, Z.mod_small in Hoff0 by lia. lia. }
  rewrite int64_small in Hgot, Hoff0 by lia.
  destruct (bytes_at_split (disk w') p 8 (proj1 Hp)) as [(Hsplit & Hpre & Hin)|];
    [now rewrite <- Hgot| |discriminate].
  specialize (Hpre ltac:(discriminate)). rewrite <- Hgot in Hsplit.
  destruct (BigEndian.Uint64 got) as [n|] eqn:Hdec; [|discriminate].
  pose proof (Uint64_nonneg _ _ Hdec) as Hn0.
  unfold make in Ht. destruct (Z.leb_spec n maxAlloc) as [Hn|]; [|discriminate].
  destruct (os.ReadAt w3 f' (repeat x00 (Z.to_nat n))
              (int64 (uint64 (p + dataLengthWeightInBytes)))) as [w4 [[b2 k2] e]] eqn:H2.
  destruct e as [e|]; [discriminate|]. injection Ht as _ ->.
  destruct (os_ReadAt_sound _ _ _ _ _ _ _ _ H2) as (got2 & Hb2 & _ & _ & Hgot2 & _ & Hfull2).
  specialize (Hfull2 eq_refl).
  rewrite Hfull2, skipn_all, app_nil_r in Hb2. subst got2.
  rewrite repeat_length in Hfull2.
  assert (Hoff2 : int64 (uint64 (p + dataLengthWeightInBytes)) = p + 8).
  { unfold dataLengthWeightInBytes.
    rewrite uint64_small, int64_small; rewrite ?uint64_small; lia. }
  rewrite Hoff2, Hd3 in Hgot2. unfold bytes_at in Hgot2.
  exists (firstn (Z.to_nat p) (disk w')), got,
         (skipn (length d) (skipn (Z.to_nat (p + 8)) (disk w'))).
  split; [|split; [exact Hpre|split]].
  - rewrite Hsplit at 1. do 2 f_equal.
    replace (Z.to_nat p + 8)%nat with (Z.to_nat (p + 8)) by lia.
    rewrite Hgot2 at 1. symmetry. apply firstn_skipn.
  - unfold len. now rewrite Hfull.
  - rewrite Hdec. f_equal. unfold len. lia.
Qed.

Lemma X17_Read_sound_witness :
  exists pre hdr post,
    logical fresh_world one_record = pre ++ hdr ++ testData ++ post /\
    len pre = 0 /\ len hdr = 8 /\ BigEndian.Uint64 hdr = Some (len testData).
Proof.
  refine (X17_Read_sound fresh_world one_record 0
            (fst (fst (Read fresh_world one_record 0)))
            (snd (fst (Read fresh_world one_record 0))) testData _ _ _).
  - compute_store_ok.
  - vm_compute. split; [discriminate|reflexivity].
  - vm_compute; reflexivity.
Defined.

(** X18. [ReadAt] invents nothing either. Whatever the system does, the
    slice comes back with its first [n] bytes, [n] the count returned,
    replaced by the [n] bytes of the store (the file followed by the
    buffer) at the offset and the rest as it was; [n] is at most
    [len(data)], and it is [len(data)] when no error is returned. *)
Theorem X18_ReadAt_sound w s data off w1 s1 b n e :
  at_end w (File s) ->
  ReadAt w s data off = (w1, s1, Return (b, n, e)) ->
  0 <= n <= len data /\
  b = bytes_at (logical w s) off (Z.to_nat n) ++ skipn (Z.to_nat n) data /\
  (0 < n -> 0 <= off) /\
  (e = None -> n = len data).
Proof.
  intros Hend H. destruct (mutex s) eqn:Hm.
  { unfold ReadAt in H. rewrite Hm in H. discriminate. }
  rewrite ReadAt_unfold in H by exact Hm.
  destruct (Flush w (File s) (buffer s)) as [[[w' f'] b'] e'] eqn:Hf.
  destruct (Flush_spec _ _ _ _ _ _ _ Hf Hend) as (Hl & _ & _ & _ & _ & Hnil & _).
  destruct e' as [e'|].
  { injection H as _ _ <- <- <-. pose proof (len_nonneg data).
    split; [lia|]. split; [reflexivity|]. split; [lia|discriminate]. }
  specialize (Hnil eq_refl). rewrite Hnil, app_nil_r in Hl.
  destruct (os.ReadAt w' f' data off) as [w2 [[b2 n2] e2]] eqn:HR.
  injection H as _ _ <- <- <-.
  destruct (os_ReadAt_sound _ _ _ _ _ _ _ _ HR)
    as (got & -> & -> & Hle & Hgot & Hoff & Hfull).
  unfold len, logical. rewrite Nat2Z.id. rewrite Hl in Hgot.
  split; [lia|]. split; [now rewrite <- Hgot|]. split.
  - intros Hpos. apply Hoff. intros ->. simpl in Hpos. lia.
  - intros He. now rewrite (Hfull He).
Qed.

Lemma X18_ReadAt_sound_witness :
  testData
  = bytes_at (logical fresh_world one_record) 8 (Z.to_nat 15)
    ++ skipn (Z.to_nat 15) (repeat x00 15).
Proof.
  refine (proj1 (proj2 (X18_ReadAt_sound fresh_world one_record (repeat x00 15) 8
            (fst (fst (ReadAt fresh_world one_record (repeat x00 15) 8)))
            (snd (fst (ReadAt fresh_world one_record (repeat x00 15) 8)))
            testData 15 None _ _))).
  - right; reflexivity.
  - vm_compute; reflexivity.
Defined.

End Further.

Section FurtherCallers.
Import Go os bufio log Callers.

(** X19. Goroutines calling any methods of one store at once, under any
    schedule and whatever the system reports. Every method holds the
    mutex from its first statement to its deferred unlock, so: at every
    moment at most one goroutine is inside a method; the schedule can
    always go on so that every goroutine returns; and when all have
    returned, the file, the store and what each goroutine got are those
    of the calls run whole, one after the other, in the order of the
    releases of the mutex. *)
Theorem X19_calls_are_serialized w s ms sched :
  mutex s = false ->
  all_done (run sched (spawn w s ms)) ->
  let sys := run sched (spawn w s ms) in
  let order := releases sched (spawn w s ms) in
  (forall sched' i j gi gj,
     nth_error (threads (run sched' (spawn w s ms))) i = Some gi ->
     nth_error (threads (run sched' (spawn w s ms))) j = Some gj ->
     inside gi = true -> inside gj = true -> i = j) /\
  (forall sched', exists rest, all_done (run (sched' ++ rest) (spawn w s ms))) /\
  Permutation order (seq 0 (length ms)) /\
  performs w s (map (fun i => nth i ms CallClose) order)
  = (world sys, shared sys, map (result_of (threads sys)) order).
Proof.
  intros Hm Hall sys order.
  pose proof (serialized_spawn w s ms Hm) as Hser0.
  split; [|split].
  - intros sched' i j gi gj. pose proof (serialized_run w s ms sched' _ _ Hser0) as Hl.
    now apply serialized_exclusive with (1 := Hl).
  - intros sched'. pose proof (serialized_run w s ms sched' _ _ Hser0) as Hl.
    destruct (serialized_completes _ _ _ _ _ Hl) as [rest Hrest].
    exists rest. now rewrite callers_run_app.
  - pose proof (serialized_run w s ms sched _ _ Hser0) as Hser. simpl in Hser.
    exact (serialized_done _ _ _ _ _ Hser Hall).
Qed.

Lemma X19_calls_are_serialized_witness :
  Permutation (releases mixed_schedule mixed_goroutines) (seq 0 (length mixed_calls)) /\
  performs fresh_world fresh_store
    (map (fun i => nth i mixed_calls CallClose) (releases mixed_schedule mixed_goroutines))
  = (world (run mixed_schedule mixed_goroutines),
     shared (run mixed_schedule mixed_goroutines),
     map (result_of (threads (run mixed_schedule mixed_goroutines)))
       (releases mixed_schedule mixed_goroutines)).
Proof.
  refine (proj2 (proj2 (X19_calls_are_serialized fresh_world fresh_store mixed_calls
                          mixed_schedule _ _))).
  - reflexivity.
  - vm_compute. repeat (apply Forall_cons; [discriminate|]). apply Forall_nil.
Defined.

(** X20. No torn reads. Among goroutines calling any methods of one
    store at once, a [Read] at the position that the [Append] of another
    goroutine returned gives the payload of that [Append] or an error,
    under any schedule and whatever the system reports, whichever of the
    two took the mutex first: never a part of the record, and never
    other bytes. *)
Theorem X20_no_torn_reads w s ms sched i j d n p :
  store_ok w s -> Forall valid_method ms ->
  all_done (run sched (spawn w s ms)) ->
  nth_error ms i = Some (CallAppend d) ->
  result_of (threads (run sched (spawn w s ms))) i = Return (FromAppend (n, p, None)) ->
  nth_error ms j = Some (CallRead p) ->
  result_of (threads (run sched (spawn w s ms))) j = Return (FromRead (d, None)) \/
  exists e,
    result_of (threads (run sched (spawn w s ms))) j = Return (FromRead ([], Some e)).
Proof.
  intros Hok Hv Hall Hi Hri Hj.
  pose proof (serialized_run w s ms sched _ _
                (serialized_spawn w s ms (ok_mutex _ _ Hok))) as Hser. simpl in Hser.
  destruct (serialized_done _ _ _ _ _ Hser Hall) as [Hperm Hrun].
  set (sys := run sched (spawn w s ms)) in *.
  set (order := releases sched (spawn w s ms)) in *.
  assert (Hin : forall k m, nth_error ms k = Some m ->
            exists q, nth_error order q = Some k /\
                      nth_error (map (fun i => nth i ms CallClose) order) q = Some m).
  { intros k m Hk.
    assert (Hk' : In k order).
    { apply (Permutation_in _ (Permutation_sym Hperm)). apply in_seq.
      apply nth_error_Some_lt in Hk. lia. }
    apply In_nth_error in Hk' as [q Hq]. exists q. split; [exact Hq|].
    rewrite nth_error_map, Hq. cbn [option_map]. f_equal. now apply nth_error_nth. }
  destruct (Hin i _ Hi) as (qi & Hqi & Hmi). destruct (Hin j _ Hj) as (qj & Hqj & Hmj).
  assert (Hvo : Forall valid_method (map (fun i => nth i ms CallClose) order)).
  { apply Forall_forall. intros m Hm. apply in_map_iff in Hm as (k & <- & Hk).
    apply (Permutation_in _ Hperm) in Hk. apply in_seq in Hk.
    rewrite Forall_forall in Hv. apply Hv, nth_In. lia. }
  apply (performs_Read_Append _ _ _ _ _ _ qi qj d n p _
           (store_ok_inv _ _ Hok) Hvo Hrun Hmi); [|exact Hmj|].
  - rewrite nth_error_map, Hqi. cbn [option_map]. now rewrite Hri.
  - now rewrite nth_error_map, Hqj.
Qed.

Lemma X20_no_torn_reads_witness :
  result_of (threads (run mixed_schedule mixed_goroutines)) 1
  = Return (FromRead (testData, None)) \/
  exists e,
    result_of (threads (run mixed_schedule mixed_goroutines)) 1
    = Return (FromRead ([], Some e)).
Proof.
  refine (X20_no_torn_reads fresh_world fresh_store mixed_calls mixed_schedule
            0 1 testData 23 0 _ _ _ _ _ _).
  - compute_store_ok.
  - repeat constructor. vm_compute; discriminate.
  - vm_compute. repeat (apply Forall_cons; [discriminate|]). apply Forall_nil.
  - reflexivity.
  - vm_compute; reflexivity.
  - reflexivity.
Defined.

End FurtherCallers.
